(** * Spark dicer: voxel grids, signed distance functions and GPU kernels

    A shallow embedding of [src/dicer/voxel.js].

    Numbers.  JavaScript numbers and WGSL [f32] values are modelled by the
    real numbers of the standard library: rounding is not modelled.  The one
    non-finite value the code can produce from finite inputs, the [NaN] of
    [0 / 0] in the long-hole SDF, is modelled by [None] in [option R]; every
    comparison with it is false, as in IEEE 754.  Grid dimensions and cell
    indices are integers ([Z]). *)

From Stdlib Require Import Reals Lra Lia ZArith List Psatz.
From Stdlib Require Import String.
From stdpp Require Import base option list gmap strings.

#[local] Open Scope R_scope.

(** ** three.js [Vector3]

    The methods of [Vector3] that the dicer calls, with the semantics of the
    three.js library.  Methods that mutate their receiver are modelled as
    functions returning the new value. *)
Module Vector3.

Record t : Type := mk { x : R; y : R; z : R }.

Definition zero : t := mk 0 0 0.
Definition add (a b : t) : t := mk (x a + x b) (y a + y b) (z a + z b).
Definition sub (a b : t) : t := mk (x a - x b) (y a - y b) (z a - z b).
Definition addScalar (a : t) (s : R) : t := mk (x a + s) (y a + s) (z a + s).
Definition multiplyScalar (a : t) (s : R) : t := mk (x a * s) (y a * s) (z a * s).
Definition dot (a b : t) : R := x a * x b + y a * y b + z a * z b.
Definition lengthSq (a : t) : R := dot a a.
Definition length (a : t) : R := sqrt (lengthSq a).
Definition distanceTo (a b : t) : R := length (sub a b).

(** [divideScalar s] is [multiplyScalar (1 / s)]. *)
Definition divideScalar (a : t) (s : R) : t := multiplyScalar a (1 / s).

(** [normalize] is [divideScalar (length () || 1)]: the zero vector is left
    as it is. *)
Definition normalize (a : t) : t :=
  divideScalar a (if Req_dec_T (length a) 0 then 1 else length a).

(** [projectOnVector v]: zero when [v] has length zero, otherwise
    [v * (v . a / |v|^2)]. *)
Definition projectOnVector (a v : t) : t :=
  if Req_dec_T (lengthSq v) 0 then zero
  else multiplyScalar v (dot v a / lengthSq v).

(** [projectOnPlane n] subtracts the projection on [n]. *)
Definition projectOnPlane (a n : t) : t := sub a (projectOnVector a n).

End Vector3.

Abbreviation Vec3 := Vector3.t.
Abbreviation vec3 := Vector3.mk.

(** [Math.hypot] of two arguments. *)
Definition hypot (a b : R) : R := sqrt (a * a + b * b).

(** ** Errors and results

    What the code throws: the messages of the thrown strings and [Error]
    objects, one constructor per [throw] site, the [ReferenceError] that the
    language raises for an identifier bound in no enclosing scope, and the
    [TypeError] of a property access on [null] or [undefined]. *)
Inductive error : Type :=
  | CylinderDirectionNotNormalized
  | ElhDirectionNotNormalized
  | InvalidExtrusionNormal
  | InvalidPQPair
  | HalfVectorsNotPerpendicular
  | UnknownRoundMode (roundMode : string)
  | GridSizeMismatch
  | GridOffsetMismatch
  | GridResolutionMismatch
  | MapFnNotRegistered (fnName : string)
  | MapFnAlreadyRegistered (fnName : string)
  | Map2FnNotRegistered (fnName : string)
  | ReduceFnNotRegistered (fnName : string)
  | BufferSizeMismatch
  | ReferenceError (identifier : string)
  | TypeError.

Inductive result (A : Type) : Type :=
  | Ok (a : A)
  | Throw (e : error).
Arguments Ok {A} a.
Arguments Throw {A} e.

Definition is_Throw {A} (r : result A) : Prop :=
  match r with Throw _ => True | Ok _ => False end.

(** ** Shapes *)
Inductive Shape : Type :=
  | Cylinder (p n : Vec3) (r h : R)
  | ELH (p q n : Vec3) (r h : R)
  | Box (center halfVec0 halfVec1 halfVec2 : Vec3).

Definition createCylinderShape (p n : Vec3) (r h : R) : Shape := Cylinder p n r h.
Definition createELHShape (p q n : Vec3) (r h : R) : Shape := ELH p q n r h.
Definition createBoxShape (center halfVec0 halfVec1 halfVec2 : Vec3) : Shape :=
  Box center halfVec0 halfVec1 halfVec2.

(** An SDF maps a point to a number; [None] is [NaN]. *)
Definition Sdf : Type := Vec3 -> option R.

(** [d <= c] on a possibly-[NaN] left operand. *)
Definition leb_num (d : option R) (c : R) : bool :=
  match d with
  | Some v => if Rle_dec v c then true else false
  | None => false
  end.

(** The last line of the cylinder and long-hole SDFs. *)
Definition combine (d1 d2 : R) : R :=
  Rmin (Rmax d1 d2) 0 + hypot (Rmax d1 0) (Rmax d2 0).

Definition createSdfCylinder (p n : Vec3) (r h : R) : result Sdf :=
  if Req_dec_T (Vector3.length n) 1 then
    Ok (fun x =>
      let dx := Vector3.sub x p in
      let dx1 := Vector3.dot dx n in
      let dx2 := Vector3.projectOnPlane dx n in
      let d1 := Rabs (dx1 - h * 0.5) - h * 0.5 in
      let d2 := Vector3.length dx2 - r in
      Some (combine d1 d2))
  else Throw CylinderDirectionNotNormalized.

Definition clamp01 (x : R) : R := Rmax 0 (Rmin 1 x).

(** [clamp01 (a / b)] for finite [a] and [b]: the quotient is infinite when
    only [b] is zero, and [clamp01] maps it to 1 or 0; it is [NaN] when both
    are zero, and [Math.min] and [Math.max] return [NaN] for it. *)
Definition clamp01_div (a b : R) : option R :=
  if Req_dec_T b 0 then
    if Req_dec_T a 0 then None
    else if Rlt_dec 0 a then Some 1 else Some 0
  else Some (clamp01 (a / b)).

Definition createSdfElh (p q n : Vec3) (r h : R) : result Sdf :=
  if Req_dec_T (Vector3.length n) 1 then
    if Req_dec_T (Vector3.dot (Vector3.sub q p) n) 0 then
      if Rlt_dec (Vector3.distanceTo q p) 0 then Throw InvalidPQPair
      else
        let dq := Vector3.sub q p in
        let dqLenSq := Vector3.dot dq dq in
        Ok (fun x =>
          let dx := Vector3.sub x p in
          let dx1 := Vector3.dot n dx in
          let dx2 := Vector3.projectOnPlane dx n in
          let d1 := Rabs (dx1 - h * 0.5) - h * 0.5 in
          match clamp01_div (Vector3.dot dx2 dq) dqLenSq with
          | Some t =>
              let d2 := Vector3.distanceTo dx2 (Vector3.multiplyScalar dq t) - r in
              Some (combine d1 d2)
          | None => None
          end)
    else Throw InvalidExtrusionNormal
  else Throw ElhDirectionNotNormalized.

Definition createSdfBox (center halfVec0 halfVec1 halfVec2 : Vec3) : result Sdf :=
  if Req_dec_T (Vector3.dot halfVec0 halfVec1) 0 then
  if Req_dec_T (Vector3.dot halfVec0 halfVec2) 0 then
  if Req_dec_T (Vector3.dot halfVec1 halfVec2) 0 then
    let unitVec0 := Vector3.normalize halfVec0 in
    let unitVec1 := Vector3.normalize halfVec1 in
    let unitVec2 := Vector3.normalize halfVec2 in
    let halfSize :=
      vec3 (Vector3.length halfVec0) (Vector3.length halfVec1) (Vector3.length halfVec2) in
    Ok (fun p =>
      let dp := Vector3.sub p center in
      let dp := vec3 (Rabs (Vector3.dot dp unitVec0)) (Rabs (Vector3.dot dp unitVec1))
                     (Rabs (Vector3.dot dp unitVec2)) in
      let dp := Vector3.sub dp halfSize in
      let dInside :=
        Rmin 0 (Rmax (Rmax (Vector3.x dp) (Vector3.y dp)) (Vector3.z dp)) in
      let dOutside :=
        Vector3.length (vec3 (Rmax 0 (Vector3.x dp)) (Rmax 0 (Vector3.y dp))
                             (Rmax 0 (Vector3.z dp))) in
      Some (dInside + dOutside))
  else Throw HalfVectorsNotPerpendicular
  else Throw HalfVectorsNotPerpendicular
  else Throw HalfVectorsNotPerpendicular.

(** [createSdf] dispatches on the shape's tag; the shape constructors produce
    no other tag than these three. *)
Definition createSdf (shape : Shape) : result Sdf :=
  match shape with
  | Cylinder p n r h => createSdfCylinder p n r h
  | ELH p q n r h => createSdfElh p q n r h
  | Box center halfVec0 halfVec1 halfVec2 => createSdfBox center halfVec0 halfVec1 halfVec2
  end.

(** ** Host voxel grid ([VoxelGridCpu])

    [data] is the typed array of the grid.  The element type [E] stands for
    the values the typed array holds; [val] arguments are values of that
    type.  The [type] tag only selects the array constructor and is not
    kept. *)
Module VoxelGridCpu.

Record t (E : Type) : Type := mk {
  res : R;
  numX : Z;
  numY : Z;
  numZ : Z;
  ofs : Vec3;
  data : list E
}.
Arguments mk {E} res numX numY numZ ofs data.
Arguments res {E} _.
Arguments numX {E} _.
Arguments numY {E} _.
Arguments numZ {E} _.
Arguments ofs {E} _.
Arguments data {E} _.

Section Ops.
Context {E : Type}.

(** The index expression shared by [get] and [set]. *)
Definition index (vg : t E) (ix iy iz : Z) : Z :=
  (ix + iy * numX vg + iz * numX vg * numY vg)%Z.

(** [set]: a typed array ignores a store outside its bounds. *)
Definition set (vg : t E) (ix iy iz : Z) (val : E) : t E :=
  let i := index vg ix iy iz in
  if (0 <=? i)%Z then
    mk (res vg) (numX vg) (numY vg) (numZ vg) (ofs vg) (<[Z.to_nat i := val]> (data vg))
  else vg.

(** [get]: [None] is the [undefined] read outside the bounds. *)
Definition get (vg : t E) (ix iy iz : Z) : option E :=
  let i := index vg ix iy iz in
  if (0 <=? i)%Z then data vg !! Z.to_nat i else None.

Definition centerOf (vg : t E) (ix iy iz : Z) : Vec3 :=
  Vector3.add
    (Vector3.multiplyScalar (Vector3.addScalar (vec3 (IZR ix) (IZR iy) (IZR iz)) 0.5) (res vg))
    (ofs vg).

(** [fill (val)] is [data.fill (val)]. *)
Definition fill (vg : t E) (val : E) : t E :=
  mk (res vg) (numX vg) (numY vg) (numZ vg) (ofs vg)
     (replicate (List.length (data vg)) val).

End Ops.

(** The counting methods, on a grid of type "u32" (the default): the cells
    are integers, and so is [val]. *)
Definition count (vg : t Z) : Z :=
  fold_left (fun cnt d => if (d =? 0)%Z then cnt else (cnt + 1)%Z) (data vg) 0%Z.

Definition countEq (vg : t Z) (val : Z) : Z :=
  fold_left (fun cnt d => if (d =? val)%Z then (cnt + 1)%Z else cnt) (data vg) 0%Z.

Definition countLessThan (vg : t Z) (val : Z) : Z :=
  fold_left (fun cnt d => if (d <? val)%Z then (cnt + 1)%Z else cnt) (data vg) 0%Z.

(** [max ()] starts from [-Infinity]: [None] stands for it. *)
Definition max (vg : t Z) : option Z :=
  fold_left (fun max d =>
               match max with
               | None => Some d
               | Some m => if (d >? m)%Z then Some d else Some m
               end) (data vg) None.


End VoxelGridCpu.

Abbreviation Grid := VoxelGridCpu.t.

(** ** Traversal *)

(** The values [0, 1, ..., n-1] of a counting loop [for (i = 0; i < n; i++)]. *)
Definition range (n : Z) : list Z := List.map Z.of_nat (seq 0 (Z.to_nat n)).

Definition blockSize : Z := 8.

Section Traverse.
Context {E : Type}.

Definition blockOffset (vg : Grid E) : R :=
  VoxelGridCpu.res vg * IZR blockSize * 0.5 * sqrt 3.

Definition blockCenter (vg : Grid E) (bx by_ bz : Z) : Vec3 :=
  Vector3.add
    (Vector3.multiplyScalar
       (Vector3.addScalar (vec3 (IZR bx) (IZR by_) (IZR bz)) 0.5)
       (IZR blockSize * VoxelGridCpu.res vg))
    (VoxelGridCpu.ofs vg).

(** First loop nest: the blocks that pass the culling test, in push order. *)
Definition blocks (vg : Grid E) (sdf : Sdf) (offset : R) : list (Z * Z * Z) :=
  let nbx := (VoxelGridCpu.numX vg / blockSize + 1)%Z in
  let nby := (VoxelGridCpu.numY vg / blockSize + 1)%Z in
  let nbz := (VoxelGridCpu.numZ vg / blockSize + 1)%Z in
  flat_map (fun bz =>
    flat_map (fun by_ =>
      flat_map (fun bx =>
        if leb_num (sdf (blockCenter vg bx by_ bz)) (blockOffset vg + offset)
        then [(bx, by_, bz)] else [])
      (range nbx))
    (range nby))
  (range nbz).

(** Second loop nest for one block: the cells for which [fn] is reached. *)
Definition blockCells (vg : Grid E) (sdf : Sdf) (offset : R) (b : Z * Z * Z)
  : list (Z * Z * Z) :=
  let '(bx, by_, bz) := b in
  flat_map (fun dz =>
    let iz := (bz * blockSize + dz)%Z in
    if (iz >=? VoxelGridCpu.numZ vg)%Z then []
    else
      flat_map (fun dy =>
        let iy := (by_ * blockSize + dy)%Z in
        if (iy >=? VoxelGridCpu.numY vg)%Z then []
        else
          flat_map (fun dx =>
            let ix := (bx * blockSize + dx)%Z in
            if (ix >=? VoxelGridCpu.numX vg)%Z then []
            else if leb_num (sdf (VoxelGridCpu.centerOf vg ix iy iz)) offset
                 then [(ix, iy, iz)] else [])
          (range blockSize))
      (range blockSize))
  (range blockSize).

(** The cells at which the traversal calls [fn] when [fn] never stops it. *)
Definition candidates (vg : Grid E) (sdf : Sdf) (offset : R) : list (Z * Z * Z) :=
  flat_map (blockCells vg sdf offset) (blocks vg sdf offset).

(** The calls of [fn], in order, with the early return: [fn] acts on a state
    [S] (what its closure mutates) and returns the stop flag. *)
Fixpoint visit {S : Type} (fn : Z -> Z -> Z -> S -> S * bool)
    (cells : list (Z * Z * Z)) (s : S) : S * bool :=
  match cells with
  | [] => (s, false)
  | (ix, iy, iz) :: rest =>
      let '(s', stop) := fn ix iy iz s in
      if stop then (s', true) else visit fn rest s'
  end.

Definition traverseAllPointsInside {S : Type} (vg : Grid E) (sdf : Sdf) (offset : R)
    (fn : Z -> Z -> Z -> S -> S * bool) (s : S) : S * bool :=
  visit fn (candidates vg sdf offset) s.

Definition everyPointInsideIs {S : Type} (vg : Grid E) (sdf : Sdf) (offset : R)
    (pred : Z -> Z -> Z -> S -> S * bool) (s : S) : S * bool :=
  let '(s', r) :=
    traverseAllPointsInside vg sdf offset
      (fun ix iy iz s => let '(s', b) := pred ix iy iz s in (s', negb b)) s in
  (s', negb r).

Definition anyPointInsideIs {S : Type} (vg : Grid E) (sdf : Sdf) (offset : R)
    (pred : Z -> Z -> Z -> S -> S * bool) (s : S) : S * bool :=
  traverseAllPointsInside vg sdf offset pred s.

(** ** [fillShape] *)

Definition halfDiag (vg : Grid E) : R := VoxelGridCpu.res vg * 0.5 * sqrt 3.

Definition roundOffset (vg : Grid E) (roundMode : string) : result R :=
  if String.eqb roundMode "outside" then Ok (halfDiag vg)
  else if String.eqb roundMode "inside" then Ok (- halfDiag vg)
  else if String.eqb roundMode "nearest" then Ok 0
  else Throw (UnknownRoundMode roundMode).

(** The callback of [fillShape] returns nothing, which is falsy: it never
    stops the traversal. *)
Definition fillShape (vg : Grid E) (shape : Shape) (val : E) (roundMode : string)
  : result (Grid E) :=
  match createSdf shape with
  | Throw e => Throw e
  | Ok sdf =>
      match roundOffset vg roundMode with
      | Throw e => Throw e
      | Ok offset =>
          Ok (fst (traverseAllPointsInside vg sdf offset
                     (fun ix iy iz g => (VoxelGridCpu.set g ix iy iz val, false)) vg))
      end
  end.

End Traverse.

(** ** Device values, buffers and grids

    A device buffer holds an array of cells.  Reading a buffer at another
    element type than the one it was written at reinterprets the bits; that
    is not modelled: the accessors below return zero at a cell of another
    type. *)
Inductive CellType : Type := U32 | F32 | Vec3F | Vec4F.

Inductive value : Type :=
  | VU32 (n : Z)
  | VF32 (x : R)
  | VVec4 (xyz : Vec3) (w : R).

Definition zeroOf (ty : CellType) : value :=
  match ty with
  | U32 => VU32 0
  | F32 => VF32 0
  | Vec3F | Vec4F => VVec4 Vector3.zero 0
  end.

Definition sizeOfType (ty : CellType) : Z :=
  match ty with
  | U32 => 4
  | F32 => 4
  | Vec3F => 16
  | Vec4F => 16
  end.

Definition as_u32 (v : value) : Z := match v with VU32 n => n | _ => 0%Z end.
Definition as_f32 (v : value) : R := match v with VF32 x => x | _ => 0 end.
Definition vec4_xyz (v : value) : Vec3 := match v with VVec4 p _ => p | _ => Vector3.zero end.
Definition vec4_w (v : value) : R := match v with VVec4 _ w => w | _ => 0 end.

(** A [GPUBuffer]: its size in bytes and its cells.  A new buffer is
    zero-filled. *)
Record Buffer : Type := mkBuffer {
  size : Z;
  cells : list value
}.

(** A [VoxelGridGpu] object.  [buffer] is the handle of its storage buffer,
    [None] once [destroy] has set it to [null]. *)
Module VoxelGridGpu.
Record t : Type := mk {
  res : R;
  numX : Z;
  numY : Z;
  numZ : Z;
  ofs : Vec3;
  type : CellType;
  buffer : option nat
}.
End VoxelGridGpu.

(** The common grid parameters that [#checkGridCompat] returns. *)
Record GridParams : Type := mkParams {
  p_res : R;
  p_numX : Z;
  p_numY : Z;
  p_numZ : Z;
  p_ofs : Vec3
}.

(** ** The grid snippet of the WGSL kernels

    [nums] and [ofs_res] are the two uniforms.  [u32] arithmetic wraps at
    [2^32]. *)
Definition u32 (n : Z) : Z := (n mod 2 ^ 32)%Z.

Record Uniforms : Type := mkUniforms {
  nums_x : Z; nums_y : Z; nums_z : Z; nums_w : Z;
  ofs_xyz : Vec3; ofs_w : R
}.

Definition decompose_ix (u : Uniforms) (ix : Z) : Z * Z * Z :=
  ((ix mod nums_x u)%Z,
   ((ix / nums_x u) mod nums_y u)%Z,
   (ix / u32 (nums_x u * nums_y u))%Z).

Definition compose_ix (u : Uniforms) (ix3 : Z * Z * Z) : Z :=
  let '(x, y, z) := ix3 in
  u32 (u32 (x + u32 (y * nums_x u)) + u32 (u32 (z * nums_x u) * nums_y u)).

Definition cell_center (u : Uniforms) (ix3 : Z * Z * Z) : Vec3 :=
  let '(x, y, z) := ix3 in
  Vector3.add (Vector3.multiplyScalar (vec3 (IZR x) (IZR y) (IZR z)) (ofs_w u)) (ofs_xyz u).

(** ** Pipelines

    A registered snippet is kept by what it computes: [vo] from [p] and [vi]
    for a map, from [p], [vi1] and [vi2] for a map of two, from [vi1] and
    [vi2] for a reduce. *)
Record MapPipeline : Type := mkMap {
  map_inType : CellType;
  map_outType : CellType;
  map_snippet : Vec3 -> value -> value
}.

Record Map2Pipeline : Type := mkMap2 {
  map2_inType1 : CellType;
  map2_inType2 : CellType;
  map2_outType : CellType;
  map2_snippet : Vec3 -> value -> value -> value
}.

Record ReducePipeline : Type := mkReduce {
  reduce_valType : CellType;
  reduce_initVal : value;
  reduce_snippet : value -> value -> value
}.

Definition wgSize : Z := 128.

(** Number of invocations of a dispatch of [numThreads] wanted threads:
    [ceil (numThreads / 128)] workgroups of [wgSize] invocations. *)
Definition invocations (numThreads : Z) : Z :=
  ((numThreads + 127) / 128 * wgSize)%Z.

(** The map kernel: invocation [index] returns at once when
    [index >= arrayLength(&vs_in)], otherwise it stores [vo] at
    [vs_out[index]].  Each invocation writes a cell of its own and [vs_in] is
    another buffer than [vs_out], so the order of the invocations does not
    matter; a store outside [vs_out] is dropped. *)
Definition map_invocation (f : Vec3 -> value -> value) (u : Uniforms)
    (vs_in : list value) (vs_out : list value) (index : Z) : list value :=
  match vs_in !! Z.to_nat index with
  | None => vs_out
  | Some vi =>
      let p := cell_center u (decompose_ix u index) in
      <[Z.to_nat index := f p vi]> vs_out
  end.

Definition map_kernel (f : Vec3 -> value -> value) (u : Uniforms)
    (numThreads : Z) (vs_in vs_out : list value) : list value :=
  fold_left (map_invocation f u vs_in) (range (invocations numThreads)) vs_out.

Definition map2_invocation (f : Vec3 -> value -> value -> value) (u : Uniforms)
    (vs_in1 vs_in2 : list value) (vs_out : list value) (index : Z) : list value :=
  match vs_in1 !! Z.to_nat index with
  | None => vs_out
  | Some vi1 =>
      let p := cell_center u (decompose_ix u index) in
      let vi2 := default (VU32 0) (vs_in2 !! Z.to_nat index) in
      <[Z.to_nat index := f p vi1 vi2]> vs_out
  end.

Definition map2_kernel (f : Vec3 -> value -> value -> value) (u : Uniforms)
    (numThreads : Z) (vs_in1 vs_in2 vs_out : list value) : list value :=
  fold_left (map2_invocation f u vs_in1 vs_in2) (range (invocations numThreads)) vs_out.

(** ** The dispatcher ([GpuKernels]) and its device

    The state holds the three pipeline tables, the storage buffers of the
    device by handle, and the [VoxelGridGpu] objects by reference: two
    references are the same object exactly when they are equal ([===]).
    Submitted work runs in submission order, so a dispatch is applied when
    it is submitted.  The two uniform buffers of a dispatch are passed as a
    [Uniforms] value. *)
Record State : Type := mkState {
  mapPipelines : gmap string MapPipeline;
  map2Pipelines : gmap string Map2Pipeline;
  reducePipelines : gmap string ReducePipeline;
  buffers : gmap nat Buffer;
  objects : gmap nat VoxelGridGpu.t
}.

Definition M (A : Type) : Type := State -> result A * State.

Definition ret {A} (a : A) : M A := fun s => (Ok a, s).
Definition throw {A} (e : error) : M A := fun s => (Throw e, s).
Definition bind {A B} (m : M A) (k : A -> M B) : M B :=
  fun s => match m s with
           | (Ok a, s') => k a s'
           | (Throw e, s') => (Throw e, s')
           end.
Definition lift {A} (r : result A) : M A := fun s => (r, s).

Notation "x <- m ;; k" := (bind m (fun x => k))
  (at level 100, m at next level, right associativity).
Notation "m ;;; k" := (bind m (fun _ => k))
  (at level 100, right associativity).

(** Property access [g.field] on the object [g]. *)
Definition deref (g : nat) : M VoxelGridGpu.t :=
  fun s => match objects s !! g with
           | Some o => (Ok o, s)
           | None => (Throw TypeError, s)
           end.

(** [createBuffer]: a new zero-filled storage buffer.  [n] and [ty] give the
    cells of [size = n * sizeOfType ty] bytes. *)
Definition createBuffer (n : Z) (ty : CellType) : M nat :=
  fun s =>
    let h := fresh (dom (buffers s)) in
    (Ok h,
     mkState (mapPipelines s) (map2Pipelines s) (reducePipelines s)
       (<[h := mkBuffer (n * sizeOfType ty) (replicate (Z.to_nat n) (zeroOf ty))]> (buffers s))
       (objects s)).

(** [new VoxelGridGpu(...)]. *)
Definition newVoxelGridGpu (res : R) (numX numY numZ : Z) (ofs : Vec3) (ty : CellType)
  : M nat :=
  h <- createBuffer (numX * numY * numZ) ty ;;
  fun s =>
    let g := fresh (dom (objects s)) in
    (Ok g,
     mkState (mapPipelines s) (map2Pipelines s) (reducePipelines s) (buffers s)
       (<[g := VoxelGridGpu.mk res numX numY numZ ofs ty (Some h)]> (objects s))).

Definition createLike (buf : nat) (ty : option CellType) : M nat :=
  o <- deref buf ;;
  newVoxelGridGpu (VoxelGridGpu.res o) (VoxelGridGpu.numX o) (VoxelGridGpu.numY o)
    (VoxelGridGpu.numZ o) (VoxelGridGpu.ofs o) (default (VoxelGridGpu.type o) ty).

(** [#checkGridCompat (grid1, ...grids)]. *)
Fixpoint checkGrids (grid1 : VoxelGridGpu.t) (grids : list VoxelGridGpu.t) : result unit :=
  match grids with
  | [] => Ok tt
  | grid2 :: rest =>
      if negb (Z.eqb (VoxelGridGpu.numX grid1) (VoxelGridGpu.numX grid2))
         || negb (Z.eqb (VoxelGridGpu.numY grid1) (VoxelGridGpu.numY grid2))
         || negb (Z.eqb (VoxelGridGpu.numZ grid1) (VoxelGridGpu.numZ grid2))
      then Throw GridSizeMismatch
      else if
        (if Req_dec_T (Vector3.x (VoxelGridGpu.ofs grid1)) (Vector3.x (VoxelGridGpu.ofs grid2))
         then false else true)
        || (if Req_dec_T (Vector3.y (VoxelGridGpu.ofs grid1)) (Vector3.y (VoxelGridGpu.ofs grid2))
            then false else true)
        || (if Req_dec_T (Vector3.z (VoxelGridGpu.ofs grid1)) (Vector3.z (VoxelGridGpu.ofs grid2))
            then false else true)
      then Throw GridOffsetMismatch
      else if Req_dec_T (VoxelGridGpu.res grid1) (VoxelGridGpu.res grid2)
      then checkGrids grid1 rest
      else Throw GridResolutionMismatch
  end.

Definition checkGridCompat (grid1 : nat) (grids : list nat) : M GridParams :=
  o1 <- deref grid1 ;;
  os <- (fix derefs (l : list nat) : M (list VoxelGridGpu.t) :=
           match l with
           | [] => ret []
           | g :: l' => o <- deref g ;; os <- derefs l' ;; ret (o :: os)
           end) grids ;;
  lift (checkGrids o1 os) ;;;
  ret (mkParams (VoxelGridGpu.res o1) (VoxelGridGpu.numX o1) (VoxelGridGpu.numY o1)
         (VoxelGridGpu.numZ o1) (VoxelGridGpu.ofs o1)).

(** The handle in [buf.buffer]; using [null] as a buffer is a [TypeError]. *)
Definition bufferOf (buf : nat) : M nat :=
  o <- deref buf ;;
  match VoxelGridGpu.buffer o with
  | Some h => ret h
  | None => throw TypeError
  end.

Definition readBuffer (h : nat) : M Buffer :=
  fun s => match buffers s !! h with
           | Some b => (Ok b, s)
           | None => (Throw TypeError, s)
           end.

Definition writeCells (h : nat) (cs : list value) : M unit :=
  fun s => match buffers s !! h with
           | Some b =>
               (Ok tt,
                mkState (mapPipelines s) (map2Pipelines s) (reducePipelines s)
                  (<[h := mkBuffer (size b) cs]> (buffers s)) (objects s))
           | None => (Throw TypeError, s)
           end.

(** [copyBuffer] between two device buffers (the grids of this model all
    live on the device).  The branch calls [copyBufferToBuffer] on the
    queue; it is modelled by the copy the branch is written for. *)
Definition copyBuffer (inBuf outBuf : nat) : M unit :=
  if decide (inBuf = outBuf) then ret tt
  else
    bi <- readBuffer inBuf ;;
    bo <- readBuffer outBuf ;;
    if negb (Z.eqb (size bi) (size bo)) then throw BufferSizeMismatch
    else writeCells outBuf (cells bi).

Definition copy (inBuf outBuf : nat) : M unit :=
  if decide (inBuf = outBuf) then ret tt
  else
    checkGridCompat inBuf [outBuf] ;;;
    hi <- bufferOf inBuf ;;
    ho <- bufferOf outBuf ;;
    copyBuffer hi ho.

(** [destroy buf]: destroys the buffer and sets [buf.buffer] to [null]. *)
Definition destroy (buf : nat) : M unit :=
  o <- deref buf ;;
  match VoxelGridGpu.buffer o with
  | None => throw TypeError
  | Some h =>
      fun s =>
        (Ok tt,
         mkState (mapPipelines s) (map2Pipelines s) (reducePipelines s)
           (delete h (buffers s))
           (<[buf := VoxelGridGpu.mk (VoxelGridGpu.res o) (VoxelGridGpu.numX o)
                       (VoxelGridGpu.numY o) (VoxelGridGpu.numZ o) (VoxelGridGpu.ofs o)
                       (VoxelGridGpu.type o) None]> (objects s)))
  end.

Definition uniformsOf (grid : GridParams) (aux : Z) : Uniforms :=
  mkUniforms (p_numX grid) (p_numY grid) (p_numZ grid) aux (p_ofs grid) (p_res grid).

Definition lookupPipeline {P} (table : State -> gmap string P) (fnName : string)
    (e : error) : M P :=
  fun s => match table s !! fnName with
           | Some pl => (Ok pl, s)
           | None => (Throw e, s)
           end.

(** [map (fnName, inBuf, outBuf = inBuf)].  [outBuf'] is the variable
    [outBuf] after the assignment [outBuf = tmpBuf]. *)
Definition map (fnName : string) (inBuf outBuf : nat) : M unit :=
  grid <- checkGridCompat inBuf [outBuf] ;;
  pipeline <- lookupPipeline mapPipelines fnName (MapFnNotRegistered fnName) ;;
  tmp_out <- (if decide (outBuf = inBuf)
              then tmpBuf <- createLike inBuf None ;; ret (Some tmpBuf, tmpBuf)
              else ret (None, outBuf)) ;;
  let '(tmpBuf, outBuf') := tmp_out in
  hi <- bufferOf inBuf ;;
  ho <- bufferOf outBuf' ;;
  bi <- readBuffer hi ;;
  bo <- readBuffer ho ;;
  writeCells ho
    (map_kernel (map_snippet pipeline) (uniformsOf grid 0)
       (p_numX grid * p_numY grid * p_numZ grid) (cells bi) (cells bo)) ;;;
  if decide (inBuf = outBuf') then
    match tmpBuf with
    | Some t => copy t inBuf ;;; destroy t
    | None => throw TypeError
    end
  else ret tt.

(** [map2 (fnName, inBuf1, inBuf2, outBuf = inBuf1)]. *)
Definition map2 (fnName : string) (inBuf1 inBuf2 outBuf : nat) : M unit :=
  grid <- checkGridCompat inBuf1 [inBuf2; outBuf] ;;
  pipeline <- lookupPipeline map2Pipelines fnName (Map2FnNotRegistered fnName) ;;
  tmp_out <- (if decide (outBuf = inBuf1)
              then tmpBuf <- createLike inBuf1 None ;; ret (Some tmpBuf, tmpBuf)
              else if decide (outBuf = inBuf2)
              then tmpBuf <- createLike inBuf2 None ;; ret (Some tmpBuf, tmpBuf)
              else ret (None, outBuf)) ;;
  let '(tmpBuf, outBuf') := tmp_out in
  h1 <- bufferOf inBuf1 ;;
  h2 <- bufferOf inBuf2 ;;
  ho <- bufferOf outBuf' ;;
  b1 <- readBuffer h1 ;;
  b2 <- readBuffer h2 ;;
  bo <- readBuffer ho ;;
  writeCells ho
    (map2_kernel (map2_snippet pipeline) (uniformsOf grid 0)
       (p_numX grid * p_numY grid * p_numZ grid) (cells b1) (cells b2) (cells bo)) ;;;
  if decide (inBuf1 = outBuf') then
    match tmpBuf with
    | Some t => copy t inBuf1 ;;; destroy t
    | None => throw TypeError
    end
  else if decide (inBuf2 = outBuf') then
    match tmpBuf with
    | Some t => copy t inBuf2 ;;; destroy t
    | None => throw TypeError
    end
  else ret tt.

(** ** Reduce *)

(** One round of the tree reduction in a workgroup: the invocations
    [lid < stride] combine [wg_buffer_accum[lid]] and
    [wg_buffer_accum[lid + stride]]. *)
Definition tree_round (f : value -> value -> value) (accum : list value) (stride : nat)
  : list value :=
  imap (fun lid v =>
          if (lid <? stride)%nat
          then f v (default v (accum !! (lid + stride)%nat))
          else v) accum.

(** The reduce kernel in workgroup [wg]: load (with [initVal] past the end of
    [vs_in]), halve the stride from [wgSize / 2] down to 1, and let invocation
    0 store the result at [vs_out[gid / wgSize]]. *)
Definition reduce_workgroup (pl : ReducePipeline) (vs_in : list value)
    (vs_out : list value) (wg : Z) : list value :=
  let accum :=
    List.map (fun lid => default (reduce_initVal pl) (vs_in !! Z.to_nat (wg * wgSize + lid)))
      (range wgSize) in
  let accum := fold_left (tree_round (reduce_snippet pl)) [64; 32; 16; 8; 4; 2; 1]%nat accum in
  <[Z.to_nat wg := default (reduce_initVal pl) (accum !! 0%nat)]> vs_out.

Definition reduce_kernel (pl : ReducePipeline) (numThreads : Z)
    (vs_in vs_out : list value) : list value :=
  fold_left (reduce_workgroup pl vs_in) (range ((numThreads + 127) / 128)) vs_out.

(** An identifier evaluates to its binding in the enclosing scopes, or
    raises a [ReferenceError] when there is none. *)
Definition lookupIdentifier {A} (scope : list (string * A)) (name : string) : M A :=
  match List.find (fun b => String.eqb (fst b) name) scope with
  | Some b => ret (snd b)
  | None => throw (ReferenceError name)
  end.

(** A call of an [async] function whose promise is dropped: its effects up
    to its first suspension take place, its exception does not reach the
    caller. *)
Definition detached {A} (m : M A) : M unit :=
  fun s => (Ok tt, snd (m s)).

(** The loop [while (numElems > 1)] of [reduce]; [fuel] bounds the rounds. *)
Fixpoint reduceRounds (fuel : nat) (pl : ReducePipeline) (hs : nat * nat) (numElems : Z)
  : M nat :=
  match fuel with
  | O => ret (fst hs)
  | S fuel' =>
      if (numElems >? 1)%Z then
        bi <- readBuffer (fst hs) ;;
        bo <- readBuffer (snd hs) ;;
        writeCells (snd hs) (reduce_kernel pl numElems (cells bi) (cells bo)) ;;;
        reduceRounds fuel' pl (snd hs, fst hs) ((numElems + 127) / 128)
      else ret (fst hs)
  end.

(** [reduce (fnName, inBuf)].  The initialiser of the first uniform buffer
    evaluates [grid.numX].  The scopes of [reduce] bind [fnName], [inBuf],
    [tempBufs] and [activeBufIx], and the module binds [Vector3], the shape
    and SDF functions and the three classes: the grid parameters that [map]
    binds to [grid] are bound to no identifier here (the global object is
    taken to have no property of that name).  The initialiser runs inside
    [createUniformBuffer], before the [try] block.  After the loop,
    [this.destroy (readBuf)] is applied to a raw buffer, which has no field
    [buffer]. *)
Definition reduce (fnName : string) (inBuf : nat) : M value :=
  pl <- lookupPipeline reducePipelines fnName (ReduceFnNotRegistered fnName) ;;
  tempBuf0 <- createLike inBuf None ;;
  tempBuf1 <- createLike inBuf None ;;
  detached (copy inBuf tempBuf0) ;;;
  grid <- lookupIdentifier ([] : list (string * GridParams)) "grid" ;;
  let _ := uniformsOf grid 0 in
  o <- deref inBuf ;;
  let numElems := (VoxelGridGpu.numX o * VoxelGridGpu.numY o * VoxelGridGpu.numZ o)%Z in
  h0 <- bufferOf tempBuf0 ;;
  h1 <- bufferOf tempBuf1 ;;
  reduceRounds (Z.to_nat numElems) pl (h0, h1) numElems ;;;
  throw TypeError.

(** [boundOfAxis (dir, inBuf, boundary)]: [dir] is not used.  A [boundary]
    outside the table gives [undefined], with which the sums are [NaN]. *)
Definition boundOfAxis (dir : Vec3) (inBuf : nat) (boundary : string)
  : M (option R * option R) :=
  min <- reduce "min_ignore_invalid" inBuf ;;
  max <- reduce "max_ignore_invalid" inBuf ;;
  o <- deref inBuf ;;
  let maxVoxelCenterOfs := VoxelGridGpu.res o * sqrt 3 * 0.5 in
  let offset :=
    if String.eqb boundary "in" then Some (- maxVoxelCenterOfs)
    else if String.eqb boundary "out" then Some maxVoxelCenterOfs
    else if String.eqb boundary "nearest" then Some 0
    else None in
  ret (match offset with
       | Some offset => (Some (as_f32 min - offset), Some (as_f32 max + offset))
       | None => (None, None)
       end).

(** ** The pipelines that the constructor registers *)
Definition invalidValue : R := 65536.

Definition df_init : MapPipeline :=
  mkMap U32 Vec4F
    (fun p vi => if (as_u32 vi >? 0)%Z then VVec4 p 0 else VVec4 Vector3.zero (-1)).

Definition df_to_dist : MapPipeline :=
  mkMap Vec4F F32 (fun p vi => VF32 (vec4_w vi)).

Definition project_to_axis : MapPipeline :=
  mkMap U32 F32
    (fun p vi =>
       let axis := vec3 1 0 0 in
       if (as_u32 vi >? 0)%Z then VF32 (Vector3.dot axis p) else VF32 invalidValue).

(** WGSL [select (f, t, cond)] is [t] when [cond] holds. *)
Definition select (f t : R) (cond : bool) : R := if cond then t else f.

Definition eqb_num (a b : R) : bool := if Req_dec_T a b then true else false.

Definition min_ignore_invalid : ReducePipeline :=
  mkReduce F32 (VF32 100000)
    (fun vi1 vi2 =>
       VF32 (Rmin (select (as_f32 vi1) 100000 (eqb_num (as_f32 vi1) invalidValue))
                  (select (as_f32 vi2) 100000 (eqb_num (as_f32 vi2) invalidValue)))).

Definition max_ignore_invalid : ReducePipeline :=
  mkReduce F32 (VF32 100000)
    (fun vi1 vi2 =>
       VF32 (Rmax (select (as_f32 vi1) (-100000) (eqb_num (as_f32 vi1) invalidValue))
                  (select (as_f32 vi2) (-100000) (eqb_num (as_f32 vi2) invalidValue)))).

(** The state after [new GpuKernels (device)]. *)
Definition newGpuKernels : State :=
  mkState
    (<["df_init" := df_init]> (<["df_to_dist" := df_to_dist]>
       (<["project_to_axis" := project_to_axis]> ∅)))
    ∅
    (<["min_ignore_invalid" := min_ignore_invalid]>
       (<["max_ignore_invalid" := max_ignore_invalid]> ∅))
    ∅ ∅.

(** [registerMapFn]: the types are of [CellType], so [checkAllowedType]
    passes. *)
Definition registerMapFn (name : string) (pl : MapPipeline) : M unit :=
  fun s =>
    match mapPipelines s !! name with
    | Some _ => (Throw (MapFnAlreadyRegistered name), s)
    | None =>
        (Ok tt,
         mkState (<[name := pl]> (mapPipelines s)) (map2Pipelines s) (reducePipelines s)
           (buffers s) (objects s))
    end.

(** ** Jump flooding *)

(** The six neighbour offsets, in the order of the kernel. *)
Definition offsets : list (Z * Z * Z) :=
  [(-1, 0, 0); (1, 0, 0); (0, -1, 0); (0, 1, 0); (0, 0, -1); (0, 0, 1)]%Z.

(** One iteration of the loop over the neighbours of the cell [ix3] at [p]:
    [read] is the load [df[nix]]. *)
Definition jump_flood_neighbor (u : Uniforms) (read : Z -> option value)
    (ix3 : Z * Z * Z) (p : Vec3) (sd : value) (offset : Z * Z * Z) : value :=
  let '(x, y, z) := ix3 in
  let '(ox, oy, oz) := offset in
  let nx := (x + ox * nums_w u)%Z in
  let ny := (y + oy * nums_w u)%Z in
  let nz := (z + oz * nums_w u)%Z in
  if ((nx <? 0) || (ny <? 0) || (nz <? 0)
      || (nx >=? nums_x u) || (ny >=? nums_y u) || (nz >=? nums_z u))%Z
  then sd
  else
    match read (compose_ix u (nx, ny, nz)) with
    | None => sd
    | Some nsd =>
        if Rlt_dec (vec4_w nsd) 0 then sd
        else
          let nd := Vector3.distanceTo (vec4_xyz nsd) p in
          if Rlt_dec (vec4_w sd) 0 then VVec4 (vec4_xyz nsd) nd
          else if Rlt_dec nd (vec4_w sd) then VVec4 (vec4_xyz nsd) nd
          else sd
    end.

(** The invocations of a pass run concurrently on the one buffer [df]: each
    stores to its own cell only, once, after its loads.  An execution of the
    pass is described by a schedule: the invocations (by [global_invocation_id])
    in the order of their stores, each with a flag per neighbour that tells
    whether the load of that neighbour sees the buffer as it is at that point
    ([true]) or as it was when the pass started ([false]).  [df0] is the
    buffer at the start of the pass; an invocation loads its own cell from
    it, no other invocation storing there. *)
Definition Schedule : Type := list (nat * (nat -> bool)).

(** The loop of an invocation over its neighbours: [read i nix] is the load
    [df[nix]] of iteration [i]. *)
Definition jump_flood_loop (u : Uniforms) (read : nat -> Z -> option value)
    (ix3 : Z * Z * Z) (p : Vec3) (sd : value) (offs : list (nat * (Z * Z * Z))) : value :=
  fold_left (fun sd io => jump_flood_neighbor u (read (fst io)) ix3 p sd (snd io)) offs sd.

Definition jump_flood_invocation (u : Uniforms) (df0 : list value)
    (df : list value) (inv : nat * (nat -> bool)) : list value :=
  let '(id, late) := inv in
  let ix := Z.of_nat id in
  match df0 !! id with
  | None => df
  | Some sd =>
      if Req_dec_T (vec4_w sd) 0 then df
      else
        let ix3 := decompose_ix u ix in
        let p := cell_center u ix3 in
        let sd' :=
          jump_flood_loop u
            (fun i nix => (if late i then df else df0) !! Z.to_nat nix)
            ix3 p sd (imap (fun i o => (i, o)) offsets) in
        <[id := sd']> df
  end.

Definition jump_flood_kernel (u : Uniforms) (sched : Schedule) (df0 : list value)
  : list value :=
  fold_left (jump_flood_invocation u df0) sched df0.

(** The loop over the passes of [distField], from [pass] on. *)
Fixpoint jumpFloodPasses (scheds : nat -> Schedule) (grid : GridParams) (h : nat)
    (numPass : nat) (count : nat) (pass : nat) : M unit :=
  match count with
  | O => ret tt
  | S count' =>
      let step := (2 ^ (Z.of_nat numPass - Z.of_nat pass - 1))%Z in
      b <- readBuffer h ;;
      writeCells h (jump_flood_kernel (uniformsOf grid step) (scheds pass) (cells b)) ;;;
      jumpFloodPasses scheds grid h numPass count' (S pass)
  end.

(** [distField (inSeedBuf, outDistBuf)]; [scheds pass] is the schedule under
    which the device executes the pass. *)
Definition distField (scheds : nat -> Schedule) (inSeedBuf outDistBuf : nat) : M unit :=
  grid <- checkGridCompat inSeedBuf [outDistBuf] ;;
  df <- createLike inSeedBuf (Some Vec4F) ;;
  map "df_init" inSeedBuf df ;;;
  let numPass :=
    Z.to_nat (Z.log2_up (Z.max (Z.max (p_numX grid) (p_numY grid)) (p_numZ grid))) in
  h <- bufferOf df ;;
  jumpFloodPasses scheds grid h numPass numPass 0 ;;;
  map "df_to_dist" df outDistBuf ;;;
  destroy df.

(** What [distField] computes, on the cells: the composition of the three
    kernels. *)
Fixpoint jumpFloodCells (scheds : nat -> Schedule) (grid : GridParams)
    (numPass : nat) (count : nat) (pass : nat) (df : list value) : list value :=
  match count with
  | O => df
  | S count' =>
      let step := (2 ^ (Z.of_nat numPass - Z.of_nat pass - 1))%Z in
      jumpFloodCells scheds grid numPass count' (S pass)
        (jump_flood_kernel (uniformsOf grid step) (scheds pass) df)
  end.

Definition distFieldCells (scheds : nat -> Schedule) (grid : GridParams)
    (seed dist : list value) : list value :=
  let n := (p_numX grid * p_numY grid * p_numZ grid)%Z in
  let numPass :=
    Z.to_nat (Z.log2_up (Z.max (Z.max (p_numX grid) (p_numY grid)) (p_numZ grid))) in
  let df := map_kernel (map_snippet df_init) (uniformsOf grid 0) n seed
              (replicate (Z.to_nat n) (zeroOf Vec4F)) in
  let df := jumpFloodCells scheds grid numPass numPass 0 df in
  map_kernel (map_snippet df_to_dist) (uniformsOf grid 0) n df dist.

(** ** Observing the traversal *)

(** A visitor that also records the indices it is invoked with. *)
Definition logged {S : Type} (fn : Z -> Z -> Z -> S -> S * bool)
  : Z -> Z -> Z -> S * list (Z * Z * Z) -> (S * list (Z * Z * Z)) * bool :=
  fun ix iy iz sl =>
    let '(s', stop) := fn ix iy iz (fst sl) in
    ((s', snd sl ++ [(ix, iy, iz)]), stop).

Definition inBounds {E} (vg : Grid E) (c : Z * Z * Z) : Prop :=
  let '(ix, iy, iz) := c in
  (0 <= ix < VoxelGridCpu.numX vg)%Z /\
  (0 <= iy < VoxelGridCpu.numY vg)%Z /\
  (0 <= iz < VoxelGridCpu.numZ vg)%Z.

(** The cells on which [fillShape] calls [set]: those its callback is invoked
    with; none when [fillShape] throws. *)
Definition cellsSet {E} (vg : Grid E) (shape : Shape) (val : E) (roundMode : string)
  : list (Z * Z * Z) :=
  match createSdf shape with
  | Throw _ => []
  | Ok sdf =>
      match roundOffset vg roundMode with
      | Throw _ => []
      | Ok offset =>
          snd (fst (traverseAllPointsInside vg sdf offset
                      (logged (fun ix iy iz g => (VoxelGridCpu.set g ix iy iz val, false)))
                      (vg, [])))
      end
  end.

(** ** Auxiliary definitions for the statements *)

(** The parameters of a grid object. *)
Definition paramsOf (o : VoxelGridGpu.t) : GridParams :=
  mkParams (VoxelGridGpu.res o) (VoxelGridGpu.numX o) (VoxelGridGpu.numY o)
    (VoxelGridGpu.numZ o) (VoxelGridGpu.ofs o).

(** The state after [createLike]: a new buffer and a new grid object. *)
Definition afterCreateLike (s : State) (o : VoxelGridGpu.t) (ty : CellType) : State :=
  let n := (VoxelGridGpu.numX o * VoxelGridGpu.numY o * VoxelGridGpu.numZ o)%Z in
  let h := fresh (dom (buffers s)) in
  mkState (mapPipelines s) (map2Pipelines s) (reducePipelines s)
    (<[h := mkBuffer (n * sizeOfType ty) (replicate (Z.to_nat n) (zeroOf ty))]> (buffers s))
    (<[fresh (dom (objects s)) :=
         VoxelGridGpu.mk (VoxelGridGpu.res o) (VoxelGridGpu.numX o) (VoxelGridGpu.numY o)
           (VoxelGridGpu.numZ o) (VoxelGridGpu.ofs o) ty (Some h)]> (objects s)).

(** ** Example inputs *)

(** The map function "negate" over [f32]: [vo = -vi]. *)
Definition negate : MapPipeline := mkMap F32 F32 (fun p vi => VF32 (- as_f32 vi)).

(** A dispatcher with "negate" registered and the device grids [grids], the
    grid object [i] owning the buffer [i]. *)
Definition deviceWith (grids : list (VoxelGridGpu.t * list value)) : State :=
  mkState
    (<["negate" := negate]> (mapPipelines newGpuKernels))
    (map2Pipelines newGpuKernels)
    (reducePipelines newGpuKernels)
    (list_to_map
       (imap (fun i gc =>
                (i, mkBuffer (Z.of_nat (List.length (snd gc)) * sizeOfType (VoxelGridGpu.type (fst gc)))
                             (snd gc))) grids))
    (list_to_map
       (imap (fun i gc =>
                (i, VoxelGridGpu.mk (VoxelGridGpu.res (fst gc)) (VoxelGridGpu.numX (fst gc))
                      (VoxelGridGpu.numY (fst gc)) (VoxelGridGpu.numZ (fst gc))
                      (VoxelGridGpu.ofs (fst gc)) (VoxelGridGpu.type (fst gc)) (Some i)))
             grids)).

(** The cells of the grid object [g], if it has a live buffer. *)
Definition cellsOf (s : State) (g : nat) : option (list value) :=
  match objects s !! g with
  | Some o =>
      match VoxelGridGpu.buffer o with
      | Some h => option_map cells (buffers s !! h)
      | None => None
      end
  | None => None
  end.

(** A grid of [numX * numY * numZ] cells of side 1 at the origin. *)
Definition unitGrid (numX numY numZ : Z) (ty : CellType) : VoxelGridGpu.t :=
  VoxelGridGpu.mk 1 numX numY numZ Vector3.zero ty None.

(** Two grids that [#checkGridCompat] accepts together: the same [res],
    [numX], [numY], [numZ] and [ofs]. *)
Definition sameGeometry (a b : VoxelGridGpu.t) : Prop :=
  VoxelGridGpu.res a = VoxelGridGpu.res b /\
  VoxelGridGpu.numX a = VoxelGridGpu.numX b /\
  VoxelGridGpu.numY a = VoxelGridGpu.numY b /\
  VoxelGridGpu.numZ a = VoxelGridGpu.numZ b /\
  VoxelGridGpu.ofs a = VoxelGridGpu.ofs b.

(** The errors of [#checkGridCompat]. *)
Definition structural (e : error) : Prop :=
  e = GridSizeMismatch \/ e = GridOffsetMismatch \/ e = GridResolutionMismatch.

(** A function of the point is 1-Lipschitz. *)
Definition lipschitz1 (f : Vec3 -> R) : Prop :=
  forall x y, Rabs (f x - f y) <= Vector3.distanceTo x y.

(** The distance in the long-hole SDF from [u] to the segment from 0 to
    [dq], for [dq] other than zero. *)
Definition segmentDistance (dq : Vec3) (u : Vec3) : R :=
  Vector3.distanceTo u
    (Vector3.multiplyScalar dq (clamp01 (Vector3.dot u dq / Vector3.lengthSq dq))).

(** The geometry of a host grid: everything but its cells. *)
Definition sameShape {E} (vg g : Grid E) : Prop :=
  VoxelGridCpu.res g = VoxelGridCpu.res vg /\
  VoxelGridCpu.numX g = VoxelGridCpu.numX vg /\
  VoxelGridCpu.numY g = VoxelGridCpu.numY vg /\
  VoxelGridCpu.numZ g = VoxelGridCpu.numZ vg /\
  VoxelGridCpu.ofs g = VoxelGridCpu.ofs vg /\
  List.length (VoxelGridCpu.data g) = List.length (VoxelGridCpu.data vg).

(** The typed array of a host grid has [numX * numY * numZ] cells, as the
    constructor allocates it. *)
Definition wellSized {E} (vg : Grid E) : Prop :=
  List.length (VoxelGridCpu.data vg)
  = Z.to_nat (VoxelGridCpu.numX vg * VoxelGridCpu.numY vg * VoxelGridCpu.numZ vg).

(** *** A seed grid for [distField]

    A grid of 5 x 5 x 5 cells of side 1 at the origin.  The seeds are the six
    cells at distance 2 from the cell (2, 2, 2) along the axes, and the cell
    (3, 3, 3); cell (x, y, z) has index [x + 5 * y + 25 * z]. *)
Definition jfGrid : GridParams := mkParams 1 5 5 5 Vector3.zero.

Definition jfAxisSeeds : list nat := [60; 64; 52; 72; 12; 112]%nat.

Definition jfSeeds : list nat := jfAxisSeeds ++ [93%nat].

Definition jfSeedCells : list value :=
  List.map (fun i => VU32 (if bool_decide (i ∈ jfSeeds) then 1 else 0)) (seq 0 125).

(** The coordinates of cell [i], and the point that the kernels compute for
    it. *)
Definition jfCoords (i : nat) : Z * Z * Z :=
  decompose_ix (uniformsOf jfGrid 0) (Z.of_nat i).

Definition jfPos (i : nat) : Vec3 := cell_center (uniformsOf jfGrid 0) (jfCoords i).

(** The centre of cell [i] of the grid, as [centerOf] of a host grid of the
    same geometry gives it. *)
Definition jfCenter (i : nat) : Vec3 :=
  let '(x, y, z) := jfCoords i in
  VoxelGridCpu.centerOf (VoxelGridCpu.mk 1 5 5 5 Vector3.zero ([] : list value)) x y z.

(** The value of a cell of [df] with no seed. *)
Definition noSeed : value := VVec4 Vector3.zero (-1).

(** A cell of [df] holds a seed: its fourth component is not negative. *)
Definition holdsSeed (v : value) : Prop := ~ vec4_w v < 0.

(** The cell that an invocation at [ix3] inspects for [offset], and the test
    that it lies in the grid. *)
Definition neighborCoords (u : Uniforms) (ix3 offset : Z * Z * Z) : Z * Z * Z :=
  let '(x, y, z) := ix3 in
  let '(ox, oy, oz) := offset in
  (x + ox * nums_w u, y + oy * nums_w u, z + oz * nums_w u)%Z.

Definition inGrid (u : Uniforms) (n3 : Z * Z * Z) : Prop :=
  let '(nx, ny, nz) := n3 in
  (0 <= nx < nums_x u)%Z /\ (0 <= ny < nums_y u)%Z /\ (0 <= nz < nums_z u)%Z.

(** The squared distance of two cells, in cells. *)
Definition sqDist (a b : Z * Z * Z) : Z :=
  let '(x, y, z) := a in
  let '(x', y', z') := b in
  ((x - x') * (x - x') + (y - y') * (y - y') + (z - z') * (z - z'))%Z.

Definition odd3 (c : Z * Z * Z) : Prop :=
  let '(x, y, z) := c in Z.odd x = true /\ Z.odd y = true /\ Z.odd z = true.

(** The six cells next to cell 62, that is (2, 2, 2). *)
Definition jfFaceCells : list nat := [61; 63; 57; 67; 37; 87]%nat.

(** Invariants of the jump-flood passes on the seed grid above.  [jfGood]:
    a cell holds no seed, or the position of a seed with the distance to
    it. *)
Definition jfGood (i : nat) (v : value) : Prop :=
  v = noSeed \/
  exists t, In t jfSeeds /\ v = VVec4 (jfPos t) (Vector3.distanceTo (jfPos t) (jfPos i)).

(** [jfWellFormed]: every cell is good and the seed cells hold themselves. *)
Definition jfWellFormed (df : list value) : Prop :=
  List.length df = 125%nat /\
  (forall i v, df !! i = Some v -> jfGood i v) /\
  (forall t, In t jfSeeds -> df !! t = Some (VVec4 (jfPos t) 0)).

(** [jfParity]: only cells with three odd coordinates hold the seed 93. *)
Definition jfParity (df : list value) : Prop :=
  forall i v, df !! i = Some v -> holdsSeed v -> vec4_xyz v = jfPos 93 -> odd3 (jfCoords i).

(** [jfFaces]: no cell next to cell 62 holds the seed 93. *)
Definition jfFaces (df : list value) : Prop :=
  forall i v, In i jfFaceCells -> df !! i = Some v -> holdsSeed v -> vec4_xyz v <> jfPos 93.

(** [jfCentre]: cell 62 holds no seed, or one of the six seeds at distance 2. *)
Definition jfCentreValue (v : value) : Prop :=
  v = noSeed \/ exists t, In t jfAxisSeeds /\ v = VVec4 (jfPos t) 2.

Definition jfCentre (df : list value) : Prop :=
  exists v, df !! 62%nat = Some v /\ jfCentreValue v.

(** *** The seed grid of 8 x 8 x 8 cells with the one seed (0, 0, 0) *)
Definition cubeGrid (res : R) : GridParams := mkParams res 8 8 8 Vector3.zero.

Definition cubeSeedCells : list value := VU32 1 :: replicate 511 (VU32 0).

Definition cubeCoords (i : nat) : Z * Z * Z :=
  decompose_ix (uniformsOf (cubeGrid 1) 0) (Z.of_nat i).

Definition coordSum (c : Z * Z * Z) : Z := let '(x, y, z) := c in (x + y + z)%Z.

(** Every load of the schedule sees the buffer as it was when the pass
    started: the invocations all load before any of them stores. *)
Definition loadsFirst (sched : Schedule) : Prop :=
  Forall (fun inv => forall i, snd inv i = false) sched.

(** [cubeWithin b]: the cells that hold a seed have coordinates of sum at
    most [b]. *)
Definition cubeWithin (b : Z) (df : list value) : Prop :=
  List.length df = 512%nat /\
  forall i v, df !! i = Some v -> v = noSeed \/ (coordSum (cubeCoords i) <= b)%Z.

(** ** The placeholder [fill] of the dispatcher *)

(** The kernel [fill]: the invocation returns at once when
    [index >= arrayLength(&vs_out)]; otherwise it computes the point of the
    cell by the expression of [cell_center] and stores 1 when [p.x < 10]. *)
Definition fill_invocation (u : Uniforms) (vs_out : list value) (index : Z) : list value :=
  match vs_out !! Z.to_nat index with
  | None => vs_out
  | Some _ =>
      let p := cell_center u (decompose_ix u index) in
      if Rlt_dec (Vector3.x p) 10 then <[Z.to_nat index := VU32 1]> vs_out else vs_out
  end.

Definition fill_kernel (u : Uniforms) (numThreads : Z) (vs_out : list value) : list value :=
  fold_left (fill_invocation u) (range (invocations numThreads)) vs_out.

(** [fill (shape, buf, boundary)]: the uniforms are those of [buf]; neither
    [shape] nor [boundary] is read.  After the submission, the [finally]
    block applies [this.destroy] to the uniform buffer [numsBuf], a raw
    buffer, whose field [buffer] is [undefined]. *)
Definition fill (shape : Shape) (buf : nat) (boundary : string) : M unit :=
  o <- deref buf ;;
  h <- bufferOf buf ;;
  b <- readBuffer h ;;
  writeCells h
    (fill_kernel (uniformsOf (paramsOf o) 0)
       (VoxelGridGpu.numX o * VoxelGridGpu.numY o * VoxelGridGpu.numZ o) (cells b)) ;;;
  throw TypeError.

(** The names that a plain object inherits from [Object.prototype]: a lookup
    [table[name]] with one of them finds the inherited property when the
    table has no entry of that name.  The pipeline tables are plain objects;
    the lookups of this model are right for every other name. *)
Definition objectPrototypeKeys : list string :=
  ["constructor"; "__defineGetter__"; "__defineSetter__"; "hasOwnProperty";
   "__lookupGetter__"; "__lookupSetter__"; "isPrototypeOf"; "propertyIsEnumerable";
   "toString"; "valueOf"; "__proto__"; "toLocaleString"].

(** The cells of a non-empty list combined by the operator [f], from the
    left; [None] for the empty list. *)
Definition foldl1 (f : value -> value -> value) (l : list value) : option value :=
  match l with
  | [] => None
  | a :: rest => Some (fold_left f rest a)
  end.

(** The values that the invocations of workgroup [wg] of a reduce kernel
    load: the cells [wg * 128 .. wg * 128 + 127] of [vs_in], [initVal] past
    its end. *)
Definition reduce_loads (pl : ReducePipeline) (vs_in : list value) (wg : Z) : list value :=
  List.map (fun lid => default (reduce_initVal pl) (vs_in !! Z.to_nat (wg * wgSize + lid)))
    (range wgSize).

(** *** Invariants of the jump-flood passes on any grid

    [kernelPoint]: the point that the kernels compute for cell [i].
    [isSeed]: the seed cell [t] is positive.  [dfGood]: a cell of [df] holds
    no seed, or the point of a seed cell with the distance to it.
    [dfWellFormed]: every cell is good and the seed cells hold themselves. *)
Definition kernelPoint (grid : GridParams) (i : nat) : Vec3 :=
  cell_center (uniformsOf grid 0) (decompose_ix (uniformsOf grid 0) (Z.of_nat i)).

Definition isSeed (seed : list value) (t : nat) : Prop :=
  exists vt, seed !! t = Some vt /\ (as_u32 vt > 0)%Z.

Definition dfGood (grid : GridParams) (seed : list value) (i : nat) (v : value) : Prop :=
  v = noSeed \/
  exists t, isSeed seed t /\
    v = VVec4 (kernelPoint grid t)
          (Vector3.distanceTo (kernelPoint grid t) (kernelPoint grid i)).

Definition dfWellFormed (grid : GridParams) (seed : list value) (df : list value) : Prop :=
  List.length df = List.length seed /\
  (forall i v, df !! i = Some v -> dfGood grid seed i v) /\
  (forall t, isSeed seed t -> df !! t = Some (VVec4 (kernelPoint grid t) 0)).



(** * Properties *)

Lemma in_range (n x : Z) : In x (range n) <-> (0 <= x < n)%Z.
Proof.
  unfold range. rewrite in_map_iff. split.
  - intros (k & <- & Hk). apply in_seq in Hk. lia.
  - intros H. exists (Z.to_nat x). split; [lia|]. apply in_seq. lia.
Qed.

Section TraverseFacts.
Context {E : Type}.
Implicit Types (vg : Grid E) (sdf : Sdf) (offset : R).

Lemma in_blocks vg sdf offset bx by_ bz :
  In (bx, by_, bz) (blocks vg sdf offset) <->
  (0 <= bx < VoxelGridCpu.numX vg / blockSize + 1)%Z /\
  (0 <= by_ < VoxelGridCpu.numY vg / blockSize + 1)%Z /\
  (0 <= bz < VoxelGridCpu.numZ vg / blockSize + 1)%Z /\
  leb_num (sdf (blockCenter vg bx by_ bz)) (blockOffset vg + offset) = true.
Proof.
  unfold blocks. rewrite in_flat_map. split.
  - intros (z & Hz & H). apply in_flat_map in H as (y & Hy & H).
    apply in_flat_map in H as (x & Hx & H).
    destruct (leb_num _ _) eqn:Hl; [|destruct H].
    destruct H as [H|[]]. inversion H; subst.
    rewrite in_range in Hx, Hy, Hz. tauto.
  - intros (Hx & Hy & Hz & Hl). exists bz. split; [now apply in_range|].
    apply in_flat_map. exists by_. split; [now apply in_range|].
    apply in_flat_map. exists bx. split; [now apply in_range|].
    rewrite Hl. now left.
Qed.

Lemma in_blockCells vg sdf offset bx by_ bz ix iy iz :
  In (ix, iy, iz) (blockCells vg sdf offset (bx, by_, bz)) <->
  (0 <= ix - bx * blockSize < blockSize)%Z /\ (ix < VoxelGridCpu.numX vg)%Z /\
  (0 <= iy - by_ * blockSize < blockSize)%Z /\ (iy < VoxelGridCpu.numY vg)%Z /\
  (0 <= iz - bz * blockSize < blockSize)%Z /\ (iz < VoxelGridCpu.numZ vg)%Z /\
  leb_num (sdf (VoxelGridCpu.centerOf vg ix iy iz)) offset = true.
Proof.
  unfold blockCells. rewrite in_flat_map. split.
  - intros (dz & Hz & H). destruct (Z.geb_spec (bz * blockSize + dz) (VoxelGridCpu.numZ vg)); [destruct H|].
    apply in_flat_map in H as (dy & Hy & H).
    destruct (Z.geb_spec (by_ * blockSize + dy) (VoxelGridCpu.numY vg)); [destruct H|].
    apply in_flat_map in H as (dx & Hx & H).
    destruct (Z.geb_spec (bx * blockSize + dx) (VoxelGridCpu.numX vg)); [destruct H|].
    destruct (leb_num _ _) eqn:Hl; [|destruct H].
    destruct H as [H|[]]. inversion H; subst.
    rewrite in_range in Hx, Hy, Hz. repeat split; try lia. exact Hl.
  - intros (Hx & Hx' & Hy & Hy' & Hz & Hz' & Hl).
    exists (iz - bz * blockSize)%Z. split; [now apply in_range|].
    replace (bz * blockSize + (iz - bz * blockSize))%Z with iz by lia.
    destruct (Z.geb_spec iz (VoxelGridCpu.numZ vg)); [lia|].
    apply in_flat_map. exists (iy - by_ * blockSize)%Z. split; [now apply in_range|].
    replace (by_ * blockSize + (iy - by_ * blockSize))%Z with iy by lia.
    destruct (Z.geb_spec iy (VoxelGridCpu.numY vg)); [lia|].
    apply in_flat_map. exists (ix - bx * blockSize)%Z. split; [now apply in_range|].
    replace (bx * blockSize + (ix - bx * blockSize))%Z with ix by lia.
    destruct (Z.geb_spec ix (VoxelGridCpu.numX vg)); [lia|].
    rewrite Hl. now left.
Qed.

(** A cell is reached exactly when it lies in the grid, passes the test at its
    centre, and its block passes the culling test. *)
Lemma in_candidates vg sdf offset ix iy iz :
  In (ix, iy, iz) (candidates vg sdf offset) <->
  inBounds vg (ix, iy, iz) /\
  leb_num (sdf (VoxelGridCpu.centerOf vg ix iy iz)) offset = true /\
  leb_num (sdf (blockCenter vg (ix / blockSize) (iy / blockSize) (iz / blockSize)))
          (blockOffset vg + offset) = true.
Proof.
  unfold candidates. rewrite in_flat_map. unfold inBounds, blockSize in *. split.
  - intros ([[bx by_] bz] & Hb & Hc).
    apply in_blocks in Hb. apply in_blockCells in Hc. unfold blockSize in *.
    assert (ix / 8 = bx)%Z by (symmetry; apply (Z.div_unique ix 8 bx (ix - bx * 8)); lia).
    assert (iy / 8 = by_)%Z by (symmetry; apply (Z.div_unique iy 8 by_ (iy - by_ * 8)); lia).
    assert (iz / 8 = bz)%Z by (symmetry; apply (Z.div_unique iz 8 bz (iz - bz * 8)); lia).
    subst. intuition lia.
  - intros ((Hx & Hy & Hz) & Hl & Hb).
    exists (ix / 8, iy / 8, iz / 8)%Z. split.
    + apply in_blocks. unfold blockSize.
      pose proof (Z.div_le_mono ix (VoxelGridCpu.numX vg) 8).
      pose proof (Z.div_le_mono iy (VoxelGridCpu.numY vg) 8).
      pose proof (Z.div_le_mono iz (VoxelGridCpu.numZ vg) 8).
      pose proof (Z.div_pos ix 8). pose proof (Z.div_pos iy 8). pose proof (Z.div_pos iz 8).
      repeat split; try lia. exact Hb.
    + apply in_blockCells. unfold blockSize.
      pose proof (Z.mod_pos_bound ix 8). pose proof (Z.mod_pos_bound iy 8).
      pose proof (Z.mod_pos_bound iz 8).
      pose proof (Z.div_mod ix 8). pose proof (Z.div_mod iy 8). pose proof (Z.div_mod iz 8).
      repeat split; try lia. exact Hl.
Qed.

Lemma candidates_inBounds vg sdf offset :
  Forall (inBounds vg) (candidates vg sdf offset).
Proof.
  apply List.Forall_forall. intros [[ix iy] iz] H. now apply in_candidates in H.
Qed.

(** The log of a [logged] visitor grows by a part of the visited list. *)
Lemma visit_logged_sub {S} (fn : Z -> Z -> Z -> S -> S * bool) cells :
  forall s log c,
    In c (snd (fst (visit (logged fn) cells (s, log)))) -> In c log \/ In c cells.
Proof.
  induction cells as [|[[ix iy] iz] rest IH]; intros s log c; simpl.
  - auto.
  - unfold logged at 1. simpl. destruct (fn ix iy iz s) as [s' stop].
    destruct stop; simpl.
    + rewrite in_app_iff. simpl. intuition.
    + intros H. apply IH in H. rewrite in_app_iff in H. simpl in H. intuition.
Qed.

(** A visitor that never stops is invoked with the whole list. *)
Lemma visit_logged_all {S} (fn : Z -> Z -> Z -> S -> S) cells :
  forall s log,
    snd (fst (visit (logged (fun ix iy iz s => (fn ix iy iz s, false))) cells (s, log)))
    = log ++ cells.
Proof.
  induction cells as [|[[ix iy] iz] rest IH]; intros s log; simpl.
  - now rewrite app_nil_r.
  - rewrite IH. now rewrite <- app_assoc.
Qed.

End TraverseFacts.

Lemma leb_num_mono (d : option R) (c c' : R) :
  c <= c' -> leb_num d c = true -> leb_num d c' = true.
Proof.
  destruct d as [v|]; simpl; [|discriminate].
  destruct (Rle_dec v c), (Rle_dec v c'); intros; try reflexivity; try discriminate.
  lra.
Qed.

Lemma candidates_mono {E} (vg : Grid E) sdf (offset offset' : R) :
  offset <= offset' ->
  incl (candidates vg sdf offset) (candidates vg sdf offset').
Proof.
  intros Hle [[ix iy] iz] H. apply in_candidates in H as (Hb & Hc & Hk).
  apply in_candidates. repeat split; try apply Hb.
  - now apply (leb_num_mono _ offset).
  - apply (leb_num_mono _ (blockOffset vg + offset)); [lra|exact Hk].
Qed.

Lemma halfDiag_nonneg {E} (vg : Grid E) :
  0 <= VoxelGridCpu.res vg -> 0 <= halfDiag vg.
Proof.
  intros H. unfold halfDiag. pose proof (sqrt_pos 3).
  apply Rmult_le_pos; [lra|assumption].
Qed.

(** C10.  Whatever the grid, the SDF, the offset and the visitor,
    [traverseAllPointsInside] invokes the visitor with indices inside the grid
    only, although on each axis the [floor (num / 8) + 1] blocks of 8 cells
    reach beyond the grid. *)
Theorem traverse_visits_in_bounds {E S : Type} (vg : Grid E) (sdf : Sdf) (offset : R)
    (fn : Z -> Z -> Z -> S -> S * bool) (s : S) :
  Forall (inBounds vg)
    (snd (fst (traverseAllPointsInside vg sdf offset (logged fn) (s, [])))) /\
  (VoxelGridCpu.numX vg < (VoxelGridCpu.numX vg / blockSize + 1) * blockSize)%Z /\
  (VoxelGridCpu.numY vg < (VoxelGridCpu.numY vg / blockSize + 1) * blockSize)%Z /\
  (VoxelGridCpu.numZ vg < (VoxelGridCpu.numZ vg / blockSize + 1) * blockSize)%Z.
Proof.
  split.
  - apply List.Forall_forall. intros c Hc.
    unfold traverseAllPointsInside in Hc.
    apply visit_logged_sub in Hc as [[]|Hc].
    pose proof (candidates_inBounds vg sdf offset) as HF.
    rewrite List.Forall_forall in HF. now apply HF.
  - unfold blockSize.
    pose proof (Z.mod_pos_bound (VoxelGridCpu.numX vg) 8).
    pose proof (Z.mod_pos_bound (VoxelGridCpu.numY vg) 8).
    pose proof (Z.mod_pos_bound (VoxelGridCpu.numZ vg) 8).
    pose proof (Z.div_mod (VoxelGridCpu.numX vg) 8).
    pose proof (Z.div_mod (VoxelGridCpu.numY vg) 8).
    pose proof (Z.div_mod (VoxelGridCpu.numZ vg) 8).
    lia.
Qed.

(** C8.  On a grid of non-negative resolution, the cells that [fillShape]
    sets with round mode "inside" are among those it sets with "nearest",
    which are among those it sets with "outside", for every shape. *)
Theorem fillShape_round_modes_nested {E : Type} (vg : Grid E) (shape : Shape) (val : E) :
  0 <= VoxelGridCpu.res vg ->
  incl (cellsSet vg shape val "inside") (cellsSet vg shape val "nearest") /\
  incl (cellsSet vg shape val "nearest") (cellsSet vg shape val "outside").
Proof.
  intros Hres. pose proof (halfDiag_nonneg vg Hres) as Hd.
  unfold cellsSet. destruct (createSdf shape) as [sdf|e].
  - cbn [roundOffset String.eqb Ascii.eqb Bool.eqb]. simpl.
    unfold traverseAllPointsInside. rewrite !visit_logged_all. simpl.
    split; apply candidates_mono; lra.
  - split; apply incl_refl.
Qed.

(** ** The dispatcher *)

Lemma checkGrids_same (o : VoxelGridGpu.t) : checkGrids o [o] = Ok tt.
Proof.
  simpl. rewrite !Z.eqb_refl. simpl.
  repeat (destruct (Req_dec_T _ _); [|congruence]). reflexivity.
Qed.


Lemma bind_ok {A B} (m : M A) (k : A -> M B) (s s' : State) (a : A) :
  m s = (Ok a, s') -> bind m k s = k a s'.
Proof. intros H. unfold bind. now rewrite H. Qed.

Lemma bind_throw {A B} (m : M A) (k : A -> M B) (s s' : State) (e : error) :
  m s = (Throw e, s') -> bind m k s = (Throw e, s').
Proof. intros H. unfold bind. now rewrite H. Qed.

Lemma deref_ok (s : State) (g : nat) (o : VoxelGridGpu.t) :
  objects s !! g = Some o -> deref g s = (Ok o, s).
Proof. intros H. unfold deref. now rewrite H. Qed.

Lemma checkGridCompat_1 (s : State) (g1 g2 : nat) (o1 o2 : VoxelGridGpu.t) :
  objects s !! g1 = Some o1 -> objects s !! g2 = Some o2 ->
  checkGridCompat g1 [g2] s =
    match checkGrids o1 [o2] with
    | Ok _ => (Ok (paramsOf o1), s)
    | Throw e => (Throw e, s)
    end.
Proof.
  intros H1 H2. unfold checkGridCompat.
  rewrite (bind_ok _ _ _ _ _ (deref_ok _ _ _ H1)).
  rewrite (bind_ok _ _ s s [o2]).
  2:{ rewrite (bind_ok _ _ _ _ _ (deref_ok _ _ _ H2)). reflexivity. }
  unfold bind, lift, ret. destruct (checkGrids o1 [o2]); reflexivity.
Qed.

Lemma checkGridCompat_2 (s : State) (g1 g2 g3 : nat) (o1 o2 o3 : VoxelGridGpu.t) :
  objects s !! g1 = Some o1 -> objects s !! g2 = Some o2 -> objects s !! g3 = Some o3 ->
  checkGridCompat g1 [g2; g3] s =
    match checkGrids o1 [o2; o3] with
    | Ok _ => (Ok (paramsOf o1), s)
    | Throw e => (Throw e, s)
    end.
Proof.
  intros H1 H2 H3. unfold checkGridCompat.
  rewrite (bind_ok _ _ _ _ _ (deref_ok _ _ _ H1)).
  rewrite (bind_ok _ _ s s [o2; o3]).
  2:{ rewrite (bind_ok _ _ _ _ _ (deref_ok _ _ _ H2)).
      rewrite (bind_ok _ _ s s [o3]); [reflexivity|].
      rewrite (bind_ok _ _ _ _ _ (deref_ok _ _ _ H3)). reflexivity. }
  unfold bind, lift, ret. destruct (checkGrids o1 [o2; o3]); reflexivity.
Qed.

Lemma lookupPipeline_ok {P} (table : State -> gmap string P) fnName e s pl :
  table s !! fnName = Some pl -> lookupPipeline table fnName e s = (Ok pl, s).
Proof. intros H. unfold lookupPipeline. now rewrite H. Qed.

Lemma bufferOf_ok (s : State) (g : nat) (o : VoxelGridGpu.t) (h : nat) :
  objects s !! g = Some o -> VoxelGridGpu.buffer o = Some h ->
  bufferOf g s = (Ok h, s).
Proof.
  intros H1 H2. unfold bufferOf.
  rewrite (bind_ok _ _ _ _ _ (deref_ok _ _ _ H1)). now rewrite H2.
Qed.

Lemma readBuffer_ok (s : State) (h : nat) (b : Buffer) :
  buffers s !! h = Some b -> readBuffer h s = (Ok b, s).
Proof. intros H. unfold readBuffer. now rewrite H. Qed.

Lemma writeCells_ok (s : State) (h : nat) (b : Buffer) (cs : list value) :
  buffers s !! h = Some b ->
  writeCells h cs s =
    (Ok tt, mkState (mapPipelines s) (map2Pipelines s) (reducePipelines s)
              (<[h := mkBuffer (size b) cs]> (buffers s)) (objects s)).
Proof. intros H. unfold writeCells. now rewrite H. Qed.

Lemma createLike_ok (s : State) (g : nat) (o : VoxelGridGpu.t) (ty : option CellType) :
  objects s !! g = Some o ->
  createLike g ty s =
    (Ok (fresh (dom (objects s))), afterCreateLike s o (default (VoxelGridGpu.type o) ty)).
Proof.
  intros H. unfold createLike.
  rewrite (bind_ok _ _ _ _ _ (deref_ok _ _ _ H)). reflexivity.
Qed.

Lemma fresh_object_ne (s : State) (g : nat) (o : VoxelGridGpu.t) :
  objects s !! g = Some o -> fresh (dom (objects s)) <> g.
Proof.
  intros H Heq. pose proof (is_fresh (dom (objects s))) as Hf.
  rewrite Heq in Hf. apply Hf, elem_of_dom. eauto.
Qed.

Lemma fresh_buffer_ne (s : State) (h : nat) (b : Buffer) :
  buffers s !! h = Some b -> fresh (dom (buffers s)) <> h.
Proof.
  intros H Heq. pose proof (is_fresh (dom (buffers s))) as Hf.
  rewrite Heq in Hf. apply Hf, elem_of_dom. eauto.
Qed.

(** In-place [map]: the kernel runs into a temporary grid; the test
    [inBuf === outBuf] that guards the copy back is made after [outBuf] has
    been set to the temporary grid, so it fails: the grid keeps its cells and
    the temporary grid stays allocated. *)
Lemma map_in_place_keeps_cells (s : State) (fnName : string) (g : nat)
    (o : VoxelGridGpu.t) (h : nat) (b : Buffer) (pl : MapPipeline) :
  objects s !! g = Some o ->
  VoxelGridGpu.buffer o = Some h ->
  buffers s !! h = Some b ->
  mapPipelines s !! fnName = Some pl ->
  exists s',
    map fnName g g s = (Ok tt, s') /\
    objects s' !! g = Some o /\
    buffers s' !! h = Some b /\
    exists t ot ht bt,
      t <> g /\ objects s' !! t = Some ot /\ VoxelGridGpu.buffer ot = Some ht /\
      buffers s' !! ht = Some bt /\
      cells bt =
        map_kernel (map_snippet pl) (uniformsOf (paramsOf o) 0)
          (VoxelGridGpu.numX o * VoxelGridGpu.numY o * VoxelGridGpu.numZ o)
          (cells b)
          (replicate
             (Z.to_nat (VoxelGridGpu.numX o * VoxelGridGpu.numY o * VoxelGridGpu.numZ o))
             (zeroOf (VoxelGridGpu.type o))).
Proof.
  intros Hg Hb Hh Hpl.
  pose proof (fresh_object_ne _ _ _ Hg) as Ht.
  pose proof (fresh_buffer_ne _ _ _ Hh) as Hh'.
  set (s1 := afterCreateLike s o (VoxelGridGpu.type o)).
  set (t := fresh (dom (objects s))) in *.
  set (h' := fresh (dom (buffers s))) in *.
  assert (Hg1 : objects s1 !! g = Some o).
  { unfold s1, afterCreateLike. cbn [objects]. fold t. now rewrite lookup_insert_ne. }
  assert (Ht1 : objects s1 !! t =
                Some (VoxelGridGpu.mk (VoxelGridGpu.res o) (VoxelGridGpu.numX o)
                        (VoxelGridGpu.numY o) (VoxelGridGpu.numZ o) (VoxelGridGpu.ofs o)
                        (VoxelGridGpu.type o) (Some h'))).
  { unfold s1, afterCreateLike. cbn [objects]. fold t h'. now rewrite lookup_insert_eq. }
  assert (Hh1 : buffers s1 !! h = Some b).
  { unfold s1, afterCreateLike. cbn [buffers]. fold h'. now rewrite lookup_insert_ne. }
  eexists. split; [|].
  - unfold map.
    rewrite (bind_ok _ _ s s (paramsOf o)).
    2:{ rewrite (checkGridCompat_1 _ _ _ _ _ Hg Hg), checkGrids_same. reflexivity. }
    rewrite (bind_ok _ _ _ _ _ (lookupPipeline_ok _ _ _ _ _ Hpl)).
    destruct (decide (g = g)) as [_|]; [|congruence].
    rewrite (bind_ok _ _ s s1 (Some t, t)).
    2:{ rewrite (bind_ok _ _ _ _ _ (createLike_ok _ _ _ None Hg)). reflexivity. }
    rewrite (bind_ok _ _ _ _ _ (bufferOf_ok _ _ _ _ Hg1 Hb)).
    rewrite (bind_ok _ _ _ _ _ (bufferOf_ok _ _ _ h' Ht1 eq_refl)).
    rewrite (bind_ok _ _ _ _ _ (readBuffer_ok _ _ _ Hh1)).
    assert (Hh'1 : buffers s1 !! h' =
              Some (mkBuffer
                (VoxelGridGpu.numX o * VoxelGridGpu.numY o * VoxelGridGpu.numZ o
                 * sizeOfType (VoxelGridGpu.type o))
                (replicate
                   (Z.to_nat (VoxelGridGpu.numX o * VoxelGridGpu.numY o * VoxelGridGpu.numZ o))
                   (zeroOf (VoxelGridGpu.type o))))).
    { unfold s1, afterCreateLike. cbn [buffers]. fold h'. now rewrite lookup_insert_eq. }
    rewrite (bind_ok _ _ _ _ _ (readBuffer_ok _ _ _ Hh'1)).
    rewrite (bind_ok _ _ _ _ _ (writeCells_ok _ _ _ _ Hh'1)).
    destruct (decide (g = t)) as [Heq|_]; [congruence|].
    reflexivity.
  - cbn [objects buffers]. split; [exact Hg1|].
    split; [rewrite lookup_insert_ne by exact Hh'; exact Hh1|].
    eexists t, _, h', _. split; [exact Ht|]. split; [exact Ht1|].
    split; [reflexivity|]. split; [apply lookup_insert_eq|]. reflexivity.
Qed.


(** Out-of-place [map]: the output buffer receives the result of the kernel
    and nothing else changes. *)
Lemma map_out_of_place (s : State) (fnName : string) (gi go : nat)
    (oi oo : VoxelGridGpu.t) (hi ho : nat) (bi bo : Buffer) (pl : MapPipeline) :
  gi <> go ->
  objects s !! gi = Some oi -> objects s !! go = Some oo ->
  checkGrids oi [oo] = Ok tt ->
  VoxelGridGpu.buffer oi = Some hi -> VoxelGridGpu.buffer oo = Some ho ->
  buffers s !! hi = Some bi -> buffers s !! ho = Some bo ->
  mapPipelines s !! fnName = Some pl ->
  map fnName gi go s =
    (Ok tt,
     mkState (mapPipelines s) (map2Pipelines s) (reducePipelines s)
       (<[ho := mkBuffer (size bo)
                  (map_kernel (map_snippet pl) (uniformsOf (paramsOf oi) 0)
                     (VoxelGridGpu.numX oi * VoxelGridGpu.numY oi * VoxelGridGpu.numZ oi)
                     (cells bi) (cells bo))]> (buffers s))
       (objects s)).
Proof.
  intros Hne Hgi Hgo Hck Hbi Hbo Hhi Hho Hpl. unfold map.
  rewrite (bind_ok _ _ s s (paramsOf oi)).
  2:{ rewrite (checkGridCompat_1 _ _ _ _ _ Hgi Hgo), Hck. reflexivity. }
  rewrite (bind_ok _ _ _ _ _ (lookupPipeline_ok _ _ _ _ _ Hpl)).
  destruct (decide (go = gi)) as [Heq|_]; [congruence|].
  rewrite (bind_ok _ _ s s (None, go)) by reflexivity.
  rewrite (bind_ok _ _ _ _ _ (bufferOf_ok _ _ _ _ Hgi Hbi)).
  rewrite (bind_ok _ _ _ _ _ (bufferOf_ok _ _ _ _ Hgo Hbo)).
  rewrite (bind_ok _ _ _ _ _ (readBuffer_ok _ _ _ Hhi)).
  rewrite (bind_ok _ _ _ _ _ (readBuffer_ok _ _ _ Hho)).
  rewrite (bind_ok _ _ _ _ _ (writeCells_ok _ _ _ _ Hho)).
  destruct (decide (gi = go)) as [Heq|_]; [congruence|]. reflexivity.
Qed.

(** *** What the map kernel computes *)

Lemma map_invocation_length f u vs_in vs_out index :
  List.length (map_invocation f u vs_in vs_out index) = List.length vs_out.
Proof.
  unfold map_invocation. destruct (vs_in !! Z.to_nat index); [|reflexivity].
  apply length_insert.
Qed.

Lemma fold_map_invocation_length f u vs_in l : forall vs_out,
  List.length (fold_left (map_invocation f u vs_in) l vs_out) = List.length vs_out.
Proof.
  induction l as [|k l IH]; intros vs_out; simpl; [reflexivity|].
  now rewrite IH, map_invocation_length.
Qed.

Lemma fold_map_invocation_keep f u vs_in l (i : nat) (v : value) : forall vs_out,
  (forall vi, vs_in !! i = Some vi ->
     v = f (cell_center u (decompose_ix u (Z.of_nat i))) vi) ->
  Forall (fun k => (0 <= k)%Z) l ->
  vs_out !! i = Some v ->
  fold_left (map_invocation f u vs_in) l vs_out !! i = Some v.
Proof.
  intros vs_out Hv Hl. revert vs_out.
  induction Hl as [|k l Hk Hl IH]; intros vs_out Hi; simpl; [exact Hi|].
  apply IH. unfold map_invocation.
  destruct (vs_in !! Z.to_nat k) as [vi|] eqn:Hin; [|exact Hi].
  destruct (decide (Z.to_nat k = i)) as [<-|Hne].
  - rewrite list_lookup_insert_eq by (eapply lookup_lt_Some; eauto).
    rewrite (Hv vi Hin). now rewrite Z2Nat.id.
  - now rewrite list_lookup_insert_ne.
Qed.

Lemma fold_map_invocation_hit f u vs_in l (i : nat) (vi : value) : forall vs_out,
  Forall (fun k => (0 <= k)%Z) l ->
  In (Z.of_nat i) l ->
  vs_in !! i = Some vi ->
  (i < List.length vs_out)%nat ->
  fold_left (map_invocation f u vs_in) l vs_out !! i
  = Some (f (cell_center u (decompose_ix u (Z.of_nat i))) vi).
Proof.
  intros vs_out Hl. revert vs_out.
  induction Hl as [|k l Hk Hl IH]; intros vs_out Hin Hvi Hlen; [destruct Hin|].
  simpl. destruct (Z.eq_dec k (Z.of_nat i)) as [->|Hne].
  - apply fold_map_invocation_keep; [|exact Hl|].
    + intros vi' Hvi'. rewrite Hvi in Hvi'. now inversion Hvi'.
    + unfold map_invocation. rewrite Nat2Z.id, Hvi.
      now rewrite list_lookup_insert_eq.
  - apply IH.
    + destruct Hin as [Heq|Hin]; [congruence|exact Hin].
    + exact Hvi.
    + now rewrite map_invocation_length.
Qed.

Lemma range_nonneg (n : Z) : Forall (fun k => (0 <= k)%Z) (range n).
Proof. apply List.Forall_forall. intros k Hk. apply in_range in Hk. lia. Qed.

(** On buffers of [numThreads] cells the map kernel stores, at each cell, the
    snippet's [vo] for the point [cell_center (decompose_ix index)] and the
    input cell. *)
Lemma map_kernel_full f u (numThreads : Z) (vs_in vs_out : list value) :
  List.length vs_in = Z.to_nat numThreads ->
  List.length vs_out = Z.to_nat numThreads ->
  map_kernel f u numThreads vs_in vs_out
  = imap (fun i vi => f (cell_center u (decompose_ix u (Z.of_nat i))) vi) vs_in.
Proof.
  intros Hin Hout. apply list_eq. intros i. unfold map_kernel.
  rewrite list_lookup_imap.
  destruct (vs_in !! i) as [vi|] eqn:Hvi; simpl.
  - assert (i < Z.to_nat numThreads)%nat by (rewrite <- Hin; eapply lookup_lt_Some; eauto).
    apply fold_map_invocation_hit; [apply range_nonneg| |exact Hvi|lia].
    apply in_range. unfold invocations, wgSize.
    pose proof (Z.div_mod (numThreads + 127) 128).
    pose proof (Z.mod_pos_bound (numThreads + 127) 128). lia.
  - apply lookup_ge_None. rewrite fold_map_invocation_length.
    apply lookup_ge_None in Hvi. lia.
Qed.

(** *** Compatibility check *)

Lemma checkGrids_head (o1 o2 : VoxelGridGpu.t) (rest : list VoxelGridGpu.t) :
  (sameGeometry o1 o2 /\ checkGrids o1 (o2 :: rest) = checkGrids o1 rest) \/
  (~ sameGeometry o1 o2 /\ exists e, checkGrids o1 (o2 :: rest) = Throw e /\ structural e).
Proof.
  unfold sameGeometry, structural. cbn [checkGrids].
  destruct (Z.eqb_spec (VoxelGridGpu.numX o1) (VoxelGridGpu.numX o2)) as [Hx|Hx];
    [|right; split; [tauto|eexists; split; [reflexivity|auto]]].
  destruct (Z.eqb_spec (VoxelGridGpu.numY o1) (VoxelGridGpu.numY o2)) as [Hy|Hy];
    [|right; split; [tauto|eexists; split; [reflexivity|auto]]].
  destruct (Z.eqb_spec (VoxelGridGpu.numZ o1) (VoxelGridGpu.numZ o2)) as [Hz|Hz];
    [|right; split; [tauto|eexists; split; [reflexivity|auto]]].
  cbn [negb orb].
  destruct (Req_dec_T (Vector3.x (VoxelGridGpu.ofs o1)) (Vector3.x (VoxelGridGpu.ofs o2)))
    as [Hox|Hox];
    [|right; split; [intros (_ & _ & _ & _ & Ho); now rewrite Ho in Hox
                    |eexists; split; [reflexivity|auto]]].
  destruct (Req_dec_T (Vector3.y (VoxelGridGpu.ofs o1)) (Vector3.y (VoxelGridGpu.ofs o2)))
    as [Hoy|Hoy];
    [|right; split; [intros (_ & _ & _ & _ & Ho); now rewrite Ho in Hoy
                    |eexists; split; [reflexivity|auto]]].
  destruct (Req_dec_T (Vector3.z (VoxelGridGpu.ofs o1)) (Vector3.z (VoxelGridGpu.ofs o2)))
    as [Hoz|Hoz];
    [|right; split; [intros (_ & _ & _ & _ & Ho); now rewrite Ho in Hoz
                    |eexists; split; [reflexivity|auto]]].
  cbn [orb].
  destruct (Req_dec_T (VoxelGridGpu.res o1) (VoxelGridGpu.res o2)) as [Hr|Hr];
    [|right; split; [tauto|eexists; split; [reflexivity|auto]]].
  left. split; [|reflexivity]. repeat split; try assumption.
  destruct (VoxelGridGpu.ofs o1), (VoxelGridGpu.ofs o2). simpl in *. congruence.
Qed.

Lemma sameGeometry_trans_l (o1 o2 o3 : VoxelGridGpu.t) :
  sameGeometry o1 o2 -> sameGeometry o1 o3 -> sameGeometry o2 o3.
Proof. unfold sameGeometry. intuition congruence. Qed.

Lemma checkGrids_reject_1 (o1 o2 : VoxelGridGpu.t) :
  ~ sameGeometry o1 o2 -> exists e, checkGrids o1 [o2] = Throw e /\ structural e.
Proof.
  intros H. destruct (checkGrids_head o1 o2 []) as [[Hs _]|[_ He]]; [tauto|exact He].
Qed.

Lemma checkGrids_reject_2 (o1 o2 o3 : VoxelGridGpu.t) :
  ~ sameGeometry o1 o2 \/ ~ sameGeometry o1 o3 \/ ~ sameGeometry o2 o3 ->
  exists e, checkGrids o1 [o2; o3] = Throw e /\ structural e.
Proof.
  intros H.
  destruct (checkGrids_head o1 o2 [o3]) as [[Hs12 Heq]|[_ He]]; [|exact He].
  rewrite Heq.
  destruct (checkGrids_head o1 o3 []) as [[Hs13 _]|[_ He]]; [|exact He].
  exfalso. destruct H as [H|[H|H]]; [tauto|tauto|].
  apply H. eapply sameGeometry_trans_l; eauto.
Qed.

Lemma map_reject (s : State) (fnName : string) (g1 g2 : nat) (o1 o2 : VoxelGridGpu.t) :
  objects s !! g1 = Some o1 -> objects s !! g2 = Some o2 ->
  ~ sameGeometry o1 o2 ->
  exists e, map fnName g1 g2 s = (Throw e, s) /\ structural e.
Proof.
  intros H1 H2 Hd. destruct (checkGrids_reject_1 o1 o2 Hd) as (e & He & Hs).
  exists e. split; [|exact Hs]. unfold map.
  apply bind_throw. now rewrite (checkGridCompat_1 _ _ _ _ _ H1 H2), He.
Qed.

Lemma map2_reject (s : State) (fnName : string) (g1 g2 g3 : nat)
    (o1 o2 o3 : VoxelGridGpu.t) :
  objects s !! g1 = Some o1 -> objects s !! g2 = Some o2 -> objects s !! g3 = Some o3 ->
  ~ sameGeometry o1 o2 \/ ~ sameGeometry o1 o3 \/ ~ sameGeometry o2 o3 ->
  exists e, map2 fnName g1 g2 g3 s = (Throw e, s) /\ structural e.
Proof.
  intros H1 H2 H3 Hd. destruct (checkGrids_reject_2 o1 o2 o3 Hd) as (e & He & Hs).
  exists e. split; [|exact Hs]. unfold map2.
  apply bind_throw. now rewrite (checkGridCompat_2 _ _ _ _ _ _ _ H1 H2 H3), He.
Qed.

Lemma checkGrids_accept_1 (o1 o2 : VoxelGridGpu.t) :
  sameGeometry o1 o2 -> checkGrids o1 [o2] = Ok tt.
Proof.
  intros H. destruct (checkGrids_head o1 o2 []) as [[_ Heq]|[Hn _]]; [exact Heq|tauto].
Qed.

Lemma sameGeometry_sym (a b : VoxelGridGpu.t) : sameGeometry a b -> sameGeometry b a.
Proof. unfold sameGeometry. intuition congruence. Qed.

(** C9.  When two grids differ in [res], [numX], [numY], [numZ] or [ofs],
    [map] on them, and [map2] on them and any third grid, in whatever
    argument positions, throws one of the errors of the compatibility check;
    the state of the dispatcher and of the device, so the cells of every
    grid, is the one before the call: no kernel has run. *)
Theorem map_rejects_incompatible_grids (s : State) (fnName : string) (ga gb : nat)
    (oa ob : VoxelGridGpu.t) :
  objects s !! ga = Some oa ->
  objects s !! gb = Some ob ->
  ~ sameGeometry oa ob ->
  (exists e, map fnName ga gb s = (Throw e, s) /\ structural e) /\
  (forall gc oc, objects s !! gc = Some oc ->
     (exists e, map2 fnName ga gb gc s = (Throw e, s) /\ structural e) /\
     (exists e, map2 fnName ga gc gb s = (Throw e, s) /\ structural e) /\
     (exists e, map2 fnName gc ga gb s = (Throw e, s) /\ structural e)).
Proof.
  intros Ha Hb Hd. split; [now apply (map_reject s fnName ga gb oa ob)|].
  intros gc oc Hc. repeat split.
  - apply (map2_reject s fnName ga gb gc oa ob oc); auto.
  - apply (map2_reject s fnName ga gc gb oa oc ob); auto.
  - apply (map2_reject s fnName gc ga gb oc oa ob); auto.
Qed.

Lemma map_rejects_incompatible_grids_witness :
  let s := deviceWith [(unitGrid 1 1 1 F32, [VF32 0]);
                       (unitGrid 2 1 1 F32, [VF32 0; VF32 0])] in
  let oa := VoxelGridGpu.mk 1 1 1 1 Vector3.zero F32 (Some 0%nat) in
  let ob := VoxelGridGpu.mk 1 2 1 1 Vector3.zero F32 (Some 1%nat) in
  objects s !! 0%nat = Some oa /\
  objects s !! 1%nat = Some ob /\
  ~ sameGeometry oa ob /\
  (exists e, map "negate" 0 1 s = (Throw e, s) /\ structural e) /\
  (forall gc oc, objects s !! gc = Some oc ->
     (exists e, map2 "negate" 0 1 gc s = (Throw e, s) /\ structural e) /\
     (exists e, map2 "negate" 0 gc 1 s = (Throw e, s) /\ structural e) /\
     (exists e, map2 "negate" gc 0 1 s = (Throw e, s) /\ structural e)).
Proof.
  intros s oa ob.
  assert (Hd : ~ sameGeometry oa ob).
  { unfold sameGeometry, oa, ob. simpl. intros (_ & H & _). discriminate H. }
  split; [reflexivity|]. split; [reflexivity|]. split; [exact Hd|].
  apply (map_rejects_incompatible_grids s "negate" 0 1 oa ob);
    [reflexivity|reflexivity|exact Hd].
Defined.

Lemma fillShape_round_modes_nested_witness :
  let vg : Grid Z := VoxelGridCpu.mk 1 1 1 1 Vector3.zero [0%Z] in
  let shape := createBoxShape Vector3.zero (vec3 1 0 0) (vec3 0 1 0) (vec3 0 0 1) in
  0 <= VoxelGridCpu.res vg /\
  incl (cellsSet vg shape 1%Z "inside") (cellsSet vg shape 1%Z "nearest") /\
  incl (cellsSet vg shape 1%Z "nearest") (cellsSet vg shape 1%Z "outside").
Proof.
  intros vg shape.
  assert (H : 0 <= VoxelGridCpu.res vg) by (simpl; lra).
  split; [exact H|]. exact (fillShape_round_modes_nested vg shape 1%Z H).
Defined.

(** C4.  The scenario of the specification: "negate" on a grid whose first
    cell is 2.  Run in place, [map] returns normally and the grid still holds
    2 and 0; run into a second grid, that grid holds -2 and -0.  The guard of
    the copy back, [inBuf === outBuf], is evaluated after [outBuf] has been
    reassigned to the temporary grid. *)
Theorem map_in_place_leaves_grid_unchanged :
  let g := (unitGrid 2 1 1 F32, [VF32 2; VF32 0]) in
  (exists s', map "negate" 0 0 (deviceWith [g]) = (Ok tt, s') /\
              cellsOf s' 0 = Some [VF32 2; VF32 0]) /\
  (exists s', map "negate" 0 1 (deviceWith [g; (unitGrid 2 1 1 F32, [VF32 0; VF32 0])])
              = (Ok tt, s') /\
              cellsOf s' 1 = Some [VF32 (- 2); VF32 (- 0)]) /\
  [VF32 2; VF32 0] <> [VF32 (- 2); VF32 (- 0)].
Proof.
  intros g. split; [|split].
  - destruct (map_in_place_keeps_cells (deviceWith [g]) "negate" 0
                (VoxelGridGpu.mk 1 2 1 1 Vector3.zero F32 (Some 0%nat)) 0
                (mkBuffer 8 [VF32 2; VF32 0]) negate)
      as (s' & Hrun & Hobj & Hbuf & _); try reflexivity.
    exists s'. split; [exact Hrun|]. unfold cellsOf. rewrite Hobj. simpl.
    now rewrite Hbuf.
  - eexists. split.
    + apply (map_out_of_place _ "negate" 0 1
               (VoxelGridGpu.mk 1 2 1 1 Vector3.zero F32 (Some 0%nat))
               (VoxelGridGpu.mk 1 2 1 1 Vector3.zero F32 (Some 1%nat))
               0 1 (mkBuffer 8 [VF32 2; VF32 0]) (mkBuffer 8 [VF32 0; VF32 0]) negate);
        try reflexivity; try lia.
      apply checkGrids_accept_1. repeat split.
    + unfold cellsOf. cbn [objects buffers].
      replace (objects (deviceWith _) !! 1%nat)
        with (Some (VoxelGridGpu.mk 1 2 1 1 Vector3.zero F32 (Some 1%nat))) by reflexivity.
      cbn [VoxelGridGpu.buffer]. rewrite lookup_insert_eq. cbn [option_map cells].
      rewrite map_kernel_full by reflexivity. reflexivity.
  - intros H. inversion H. lra.
Qed.

(** C5.  On a grid of one cell of side 1 at the origin, the point [p] that
    the map kernel binds for cell 0 is the corner (0, 0, 0) of the cell (a
    snippet that stores [p] shows it), while [centerOf] of the host grid
    gives (0.5, 0.5, 0.5): [cell_center] of the grid snippet does not add the
    half cell. *)
Theorem map_kernel_point_is_cell_corner :
  let u := uniformsOf (paramsOf (unitGrid 1 1 1 U32)) 0 in
  let vg : Grid Z := VoxelGridCpu.mk 1 1 1 1 Vector3.zero [0%Z] in
  map_kernel (fun p vi => VVec4 p 0) u 1 [VU32 0] [VVec4 Vector3.zero 0]
    = [VVec4 (cell_center u (decompose_ix u 0)) 0] /\
  cell_center u (decompose_ix u 0) = vec3 0 0 0 /\
  (let '(ix, iy, iz) := decompose_ix u 0 in VoxelGridCpu.centerOf vg ix iy iz)
    = vec3 0.5 0.5 0.5 /\
  vec3 0 0 0 <> vec3 0.5 0.5 0.5.
Proof.
  intros u vg.
  assert (Hd : decompose_ix u 0 = (0, 0, 0)%Z) by reflexivity.
  rewrite Hd. split; [|split; [|split]].
  - rewrite map_kernel_full by reflexivity. cbn [imap]. change (Z.of_nat 0) with 0%Z. now rewrite Hd.
  - unfold cell_center, u, Vector3.add, Vector3.multiplyScalar, Vector3.zero. simpl.
    f_equal; lra.
  - unfold VoxelGridCpu.centerOf, Vector3.add, Vector3.multiplyScalar, Vector3.addScalar,
      Vector3.zero. simpl. f_equal; lra.
  - intros H. inversion H. lra.
Qed.

(** *** Reduce *)

(** [reduce] on a registered function and a live grid object stops at the
    identifier [grid]. *)
Lemma reduce_throws (s : State) (fnName : string) (g : nat) (o : VoxelGridGpu.t)
    (pl : ReducePipeline) :
  reducePipelines s !! fnName = Some pl ->
  objects s !! g = Some o ->
  fst (reduce fnName g s) = Throw (ReferenceError "grid").
Proof.
  intros Hpl Hg. unfold reduce.
  rewrite (bind_ok _ _ _ _ _ (lookupPipeline_ok _ _ _ _ _ Hpl)).
  rewrite (bind_ok _ _ _ _ _ (createLike_ok _ _ _ None Hg)).
  set (s1 := afterCreateLike s o _).
  assert (Hg1 : objects s1 !! g = Some o).
  { unfold s1, afterCreateLike. cbn [objects].
    rewrite lookup_insert_ne; [exact Hg|]. eapply fresh_object_ne; eauto. }
  rewrite (bind_ok _ _ _ _ _ (createLike_ok _ _ _ None Hg1)).
  unfold bind at 1. unfold detached at 1. cbn iota beta.
  unfold bind at 1. unfold lookupIdentifier. simpl. reflexivity.
Qed.

(** C6.  On a grid of one [f32] cell holding 3, [reduce] with the registered
    minimum does not return the fold of the cells, 3: it throws the
    [ReferenceError] of the identifier [grid], which [reduce] does not
    declare. *)
Theorem reduce_raises_reference_error :
  fst (reduce "min_ignore_invalid" 0 (deviceWith [(unitGrid 1 1 1 F32, [VF32 3])]))
  = Throw (ReferenceError "grid").
Proof.
  apply (reduce_throws _ _ _ (VoxelGridGpu.mk 1 1 1 1 Vector3.zero F32 (Some 0%nat))
           min_ignore_invalid); reflexivity.
Qed.

(** C3.  The scenario of the specification: a grid of side 1 at the origin
    where only cell (3, 5, 2) is non-zero, direction (1, 0, 0), boundary
    "nearest".  [boundOfAxis] does not return the bounds 3.5 and 3.5: its
    first [reduce] throws the [ReferenceError] of the identifier [grid]. *)
Theorem boundOfAxis_raises_reference_error :
  fst (boundOfAxis (vec3 1 0 0) 0 "nearest"
         (deviceWith [(unitGrid 4 6 3 U32, replicate 71 (VU32 0) ++ [VU32 1])]))
  = Throw (ReferenceError "grid").
Proof.
  unfold boundOfAxis, bind.
  pose proof (reduce_throws
                (deviceWith [(unitGrid 4 6 3 U32, replicate 71 (VU32 0) ++ [VU32 1])])
                "min_ignore_invalid" 0
                (VoxelGridGpu.mk 1 4 6 3 Vector3.zero U32 (Some 0%nat))
                min_ignore_invalid eq_refl eq_refl) as H.
  destruct (reduce "min_ignore_invalid" 0 _) as [r s']. simpl in H. now rewrite H.
Qed.

(** ** Signed distance functions *)

(** *** Real arithmetic *)

Ltac sq e := let H := fresh "Hsq" in pose proof (Rle_0_sqr e) as H; unfold Rsqr in H.

Lemma le_of_sq (x y : R) : 0 <= y -> x * x <= y * y -> x <= y.
Proof. intros Hy H. destruct (Rle_dec x y) as [|Hn]; [assumption|]. nra. Qed.

Lemma hypot_nonneg (a b : R) : 0 <= hypot a b.
Proof. apply sqrt_pos. Qed.

Lemma hypot_sq (a b : R) : hypot a b * hypot a b = a * a + b * b.
Proof. unfold hypot. apply sqrt_sqrt. nra. Qed.

Lemma hypot_0 : hypot 0 0 = 0.
Proof. unfold hypot. replace (0 * 0 + 0 * 0) with 0 by ring. apply sqrt_0. Qed.

Lemma Rmax_0_cases (a : R) : (a <= 0 /\ Rmax a 0 = 0) \/ (0 < a /\ Rmax a 0 = a).
Proof.
  destruct (Rle_dec a 0); [left|right]; split; try lra.
  - now apply Rmax_right.
  - apply Rmax_left. lra.
Qed.

(** The value of [combine] by the position of the point. *)
Lemma combine_inside (a b : R) : a <= 0 -> b <= 0 -> combine a b = Rmax a b.
Proof.
  intros Ha Hb. unfold combine.
  rewrite (Rmax_right a 0), (Rmax_right b 0); try lra.
  rewrite hypot_0. rewrite Rmin_left; [lra|]. apply Rmax_lub; lra.
Qed.

Lemma combine_outside (a b : R) :
  0 < a \/ 0 < b -> combine a b = hypot (Rmax a 0) (Rmax b 0).
Proof.
  intros H. unfold combine. rewrite Rmin_right; [lra|].
  destruct H; [pose proof (Rmax_l a b)|pose proof (Rmax_r a b)]; lra.
Qed.

Lemma cauchy_schwarz_2 (x1 x2 y1 y2 : R) :
  (x1 * y1 + x2 * y2) * (x1 * y1 + x2 * y2)
  <= (x1 * x1 + x2 * x2) * (y1 * y1 + y2 * y2).
Proof.
  pose proof (Rle_0_sqr (x1 * y2 - x2 * y1)) as H. unfold Rsqr in H. nra.
Qed.

(** Triangle inequality of the plane, with the step bounded by [D]. *)
Lemma hypot_triangle (p q p' q' D : R) :
  0 <= D -> (p - p') * (p - p') + (q - q') * (q - q') <= D * D ->
  hypot p q <= hypot p' q' + D.
Proof.
  intros HD Hsq.
  pose proof (hypot_nonneg p q) as Hh. pose proof (hypot_sq p q) as Hh2.
  pose proof (hypot_nonneg p' q') as Hh'. pose proof (hypot_sq p' q') as Hh2'.
  set (H := hypot p q) in *. set (H' := hypot p' q') in *.
  assert (Hcs : p' * (p - p') + q' * (q - q') <= H' * D).
  { apply le_of_sq; [nra|].
    pose proof (cauchy_schwarz_2 p' q' (p - p') (q - q')). nra. }
  apply le_of_sq; nra.
Qed.

Lemma Rmax_0_lip (a a' : R) :
  (Rmax a 0 - Rmax a' 0) * (Rmax a 0 - Rmax a' 0) <= (a - a') * (a - a').
Proof.
  destruct (Rmax_0_cases a) as [[? ->]|[? ->]], (Rmax_0_cases a') as [[? ->]|[? ->]].
  - sq (a - a'). nra.
  - assert (0 <= - a * a') by nra. nra.
  - assert (0 <= - a' * a) by nra. nra.
  - lra.
Qed.

(** [combine] is 1-Lipschitz for the Euclidean norm of the plane. *)
Lemma combine_le (a b a' b' D : R) :
  0 <= D -> (a - a') * (a - a') + (b - b') * (b - b') <= D * D ->
  combine a b <= combine a' b' + D.
Proof.
  intros HD Hsq. sq (a - a'). sq (b - b').
  assert (Ha : a - a' <= D) by (apply le_of_sq; nra).
  assert (Hb : b - b' <= D) by (apply le_of_sq; nra).
  destruct (Rle_dec a 0) as [Ha0|Ha0], (Rle_dec b 0) as [Hb0|Hb0].
  1: { (* inside *)
    rewrite (combine_inside a b) by assumption.
    destruct (Rle_dec a' 0) as [Ha0'|Ha0'], (Rle_dec b' 0) as [Hb0'|Hb0'].
    - rewrite (combine_inside a' b') by assumption.
      pose proof (Rmax_l a' b'). pose proof (Rmax_r a' b'). apply Rmax_lub; lra.
    - rewrite (combine_outside a' b') by lra.
      pose proof (hypot_nonneg (Rmax a' 0) (Rmax b' 0)). apply Rmax_lub; lra.
    - rewrite (combine_outside a' b') by lra.
      pose proof (hypot_nonneg (Rmax a' 0) (Rmax b' 0)). apply Rmax_lub; lra.
    - rewrite (combine_outside a' b') by lra.
      pose proof (hypot_nonneg (Rmax a' 0) (Rmax b' 0)). apply Rmax_lub; lra. }
  all: rewrite (combine_outside a b) by lra.
  all: destruct (Rle_dec a' 0) as [Ha0'|Ha0'], (Rle_dec b' 0) as [Hb0'|Hb0'].
  all: try (rewrite (combine_outside a' b') by lra;
            apply hypot_triangle; [assumption|];
            pose proof (Rmax_0_lip a a'); pose proof (Rmax_0_lip b b'); lra).
  all: rewrite (combine_inside a' b') by assumption.
  all: pose proof (hypot_nonneg (Rmax a 0) (Rmax b 0)) as Hh;
       pose proof (hypot_sq (Rmax a 0) (Rmax b 0)) as Hh2;
       set (H := hypot (Rmax a 0) (Rmax b 0)) in *;
       pose proof (Rmax_l a' b'); pose proof (Rmax_r a' b');
       assert (Rmax a' b' <= 0) by (apply Rmax_lub; lra);
       set (M := Rmax a' b') in *;
       destruct (Rmax_0_cases a) as [[? Ea]|[? Ea]], (Rmax_0_cases b) as [[? Eb]|[? Eb]];
       try lra; rewrite Ea, Eb in Hh2.
  - (* only b positive *)
    assert (H = b) by nra. lra.
  - assert (H = a) by nra. lra.
  - assert (H <= a + b) by (apply le_of_sq; nra).
    assert (E1 : (a - M) * (a - M) <= (a - a') * (a - a')) by nra.
    assert (E2 : (b - M) * (b - M) <= (b - b') * (b - b')) by nra.
    assert (E3 : H * (- M) <= (a + b) * (- M)) by nra.
    assert (E4 : 0 <= M * M) by nra.
    assert (H - M <= D); [|lra].
    apply le_of_sq; [lra|]. nra.
Qed.

Lemma combine_lipschitz (a b a' b' D : R) :
  0 <= D -> (a - a') * (a - a') + (b - b') * (b - b') <= D * D ->
  Rabs (combine a b - combine a' b') <= D.
Proof.
  intros HD Hsq. apply Rabs_le. split.
  - assert (combine a' b' <= combine a b + D); [|lra].
    apply combine_le; [assumption|]. nra.
  - assert (combine a b <= combine a' b' + D); [|lra].
    now apply combine_le.
Qed.

(** *** Vectors *)
Module VectorFacts.
Import Vector3.

Lemma lengthSq_nonneg (a : Vec3) : 0 <= lengthSq a.
Proof. unfold lengthSq, dot. sq (x a). sq (y a). sq (z a). nra. Qed.

Lemma length_nonneg (a : Vec3) : 0 <= length a.
Proof. apply sqrt_pos. Qed.

Lemma length_sq (a : Vec3) : length a * length a = lengthSq a.
Proof. unfold length. apply sqrt_sqrt, lengthSq_nonneg. Qed.

Lemma length_1 (n : Vec3) : length n = 1 -> lengthSq n = 1.
Proof. intros H. rewrite <- length_sq, H. ring. Qed.

Lemma lengthSq_0 (a : Vec3) : lengthSq a = 0 -> a = zero.
Proof.
  destruct a as [ax ay az]. unfold lengthSq, dot, zero. simpl. intros H.
  sq ax. sq ay. sq az.
  assert (ax * ax = 0) by nra. assert (ay * ay = 0) by nra. assert (az * az = 0) by nra.
  f_equal; apply Rsqr_0_uniq; assumption.
Qed.

Lemma dot_comm (a b : Vec3) : dot a b = dot b a.
Proof. unfold dot. ring. Qed.

Lemma cauchy_schwarz (a b : Vec3) : dot a b * dot a b <= lengthSq a * lengthSq b.
Proof.
  unfold lengthSq, dot.
  sq (x a * y b - y a * x b). sq (x a * z b - z a * x b). sq (y a * z b - z a * y b).
  nra.
Qed.

Lemma lengthSq_sub (a b : Vec3) :
  lengthSq (sub a b) = lengthSq a - 2 * dot a b + lengthSq b.
Proof. unfold lengthSq, dot, sub. simpl. ring. Qed.

(** Triangle inequality. *)
Lemma length_triangle (a b : Vec3) : length a <= length b + length (sub a b).
Proof.
  pose proof (length_nonneg a). pose proof (length_nonneg b).
  pose proof (length_nonneg (sub a b)).
  pose proof (length_sq a) as Ha. pose proof (length_sq b) as Hb.
  pose proof (length_sq (sub a b)) as Hab.
  assert (Hd : lengthSq a = lengthSq b + 2 * dot b (sub a b) + lengthSq (sub a b)).
  { unfold lengthSq, dot, sub. simpl. ring. }
  assert (Hcs : dot b (sub a b) <= length b * length (sub a b)).
  { apply le_of_sq; [nra|]. pose proof (cauchy_schwarz b (sub a b)). nra. }
  apply le_of_sq; nra.
Qed.

Lemma length_sub_sym (a b : Vec3) : length (sub a b) = length (sub b a).
Proof. unfold length. f_equal. unfold lengthSq, dot, sub. simpl. ring. Qed.

Lemma length_diff_sq (a b : Vec3) :
  (length a - length b) * (length a - length b) <= lengthSq (sub a b).
Proof.
  pose proof (length_triangle a b). pose proof (length_triangle b a).
  rewrite (length_sub_sym b a) in *.
  pose proof (length_nonneg (sub a b)). rewrite <- (length_sq (sub a b)).
  destruct (Rle_dec (length b) (length a)); nra.
Qed.

(** With a unit normal, [projectOnPlane] removes the component along it. *)
Lemma projectOnPlane_unit (a n : Vec3) :
  lengthSq n = 1 -> projectOnPlane a n = sub a (multiplyScalar n (dot n a)).
Proof.
  intros Hn. unfold projectOnPlane, projectOnVector. rewrite Hn.
  destruct (Req_dec_T 1 0); [lra|]. do 2 f_equal. field.
Qed.

Lemma projectOnPlane_sub (a b n : Vec3) :
  lengthSq n = 1 ->
  sub (projectOnPlane a n) (projectOnPlane b n) = projectOnPlane (sub a b) n.
Proof.
  intros Hn. rewrite !projectOnPlane_unit by assumption.
  unfold sub, multiplyScalar, dot. simpl. f_equal; ring.
Qed.

Lemma pythagoras (v n : Vec3) :
  lengthSq n = 1 ->
  dot v n * dot v n + lengthSq (projectOnPlane v n) = lengthSq v.
Proof.
  intros Hn. rewrite projectOnPlane_unit by assumption.
  rewrite lengthSq_sub.
  replace (dot v (multiplyScalar n (dot n v))) with (dot v n * dot v n)
    by (unfold dot, multiplyScalar; simpl; ring).
  replace (lengthSq (multiplyScalar n (dot n v))) with (dot v n * dot v n * lengthSq n)
    by (unfold lengthSq, dot, multiplyScalar; simpl; ring).
  rewrite Hn. ring.
Qed.

Lemma dot_sub_l (a b n : Vec3) : dot (sub a b) n = dot a n - dot b n.
Proof. unfold dot, sub. simpl. ring. Qed.

Lemma sub_sub_cancel (a b p : Vec3) : sub (sub a p) (sub b p) = sub a b.
Proof. unfold sub. simpl. f_equal; ring. Qed.

End VectorFacts.

Section SdfFacts.
Import Vector3 VectorFacts.

Lemma Rabs_diff_sq (u v : R) : (Rabs u - Rabs v) * (Rabs u - Rabs v) <= (u - v) * (u - v).
Proof.
  unfold Rabs. destruct (Rcase_abs u), (Rcase_abs v); nra.
Qed.

(** An axial distance and a radial distance, each 1-Lipschitz in its
    component of the point, combine into a 1-Lipschitz function. *)
Lemma axial_radial_lipschitz (n : Vec3) (d1 d2 : Vec3 -> R) :
  lengthSq n = 1 ->
  (forall x y, (d1 x - d1 y) * (d1 x - d1 y) <= dot (sub x y) n * dot (sub x y) n) ->
  (forall x y, (d2 x - d2 y) * (d2 x - d2 y) <= lengthSq (projectOnPlane (sub x y) n)) ->
  lipschitz1 (fun x => combine (d1 x) (d2 x)).
Proof.
  intros Hn H1 H2 x y. apply combine_lipschitz.
  - apply length_nonneg.
  - unfold distanceTo. rewrite length_sq, <- (pythagoras (sub x y) n Hn).
    specialize (H1 x y). specialize (H2 x y). lra.
Qed.

Lemma axial_distance (p n : Vec3) (h : R) (x y : Vec3) :
  let d1 := fun x => Rabs (dot (sub x p) n - h * 0.5) - h * 0.5 in
  (d1 x - d1 y) * (d1 x - d1 y) <= dot (sub x y) n * dot (sub x y) n.
Proof.
  intros d1. unfold d1.
  pose proof (Rabs_diff_sq (dot (sub x p) n - h * 0.5) (dot (sub y p) n - h * 0.5)) as H.
  replace (dot (sub x y) n) with (dot (sub x p) n - h * 0.5 - (dot (sub y p) n - h * 0.5))
    by (unfold dot, sub; simpl; ring).
  nra.
Qed.

Lemma projectOnPlane_diff (x y p n : Vec3) :
  lengthSq n = 1 ->
  projectOnPlane (sub x y) n
  = sub (projectOnPlane (sub x p) n) (projectOnPlane (sub y p) n).
Proof. intros Hn. now rewrite projectOnPlane_sub, sub_sub_cancel. Qed.

Lemma createSdfCylinder_lipschitz (p n : Vec3) (r h : R) (sdf : Sdf) :
  createSdfCylinder p n r h = Ok sdf ->
  exists f, (forall x, sdf x = Some (f x)) /\ lipschitz1 f.
Proof.
  unfold createSdfCylinder. destruct (Req_dec_T (length n) 1) as [Hn|]; [|discriminate].
  intros H. inversion H; subst sdf; clear H. apply length_1 in Hn.
  eexists. split; [intros x; reflexivity|]. cbv beta.
  apply (axial_radial_lipschitz n
           (fun x => Rabs (dot (sub x p) n - h * 0.5) - h * 0.5)
           (fun x => length (projectOnPlane (sub x p) n) - r) Hn).
  - intros x y. apply axial_distance.
  - intros x y. cbv beta. rewrite (projectOnPlane_diff x y p n Hn).
    eapply Rle_trans; [|apply length_diff_sq]. right. ring.
Qed.


Lemma clamp01_cases (x : R) :
  (x <= 0 /\ clamp01 x = 0) \/ (1 <= x /\ clamp01 x = 1) \/ (0 <= x <= 1 /\ clamp01 x = x).
Proof.
  unfold clamp01. destruct (Rle_dec x 0); [left|right; destruct (Rle_dec 1 x); [left|right]].
  - split; [assumption|]. rewrite Rmin_right by lra. now apply Rmax_left.
  - split; [assumption|]. rewrite Rmin_left by lra. apply Rmax_right. lra.
  - split; [lra|]. rewrite Rmin_right by lra. apply Rmax_right. lra.
Qed.

Lemma clamp01_range (x : R) : 0 <= clamp01 x <= 1.
Proof. destruct (clamp01_cases x) as [[? ->]|[[? ->]|[? ->]]]; lra. Qed.

Lemma lengthSq_sub_scaled (u dq : Vec3) (s : R) :
  lengthSq (sub u (multiplyScalar dq s))
  = lengthSq u - 2 * s * dot u dq + s * s * lengthSq dq.
Proof. unfold lengthSq, dot, sub, multiplyScalar. simpl. ring. Qed.

(** [clamp01 (u . dq / |dq|^2)] is the parameter of the point of the segment
    from 0 to [dq] nearest to [u]. *)
Lemma segment_nearest (u dq : Vec3) (s : R) :
  lengthSq dq <> 0 -> 0 <= s <= 1 ->
  lengthSq (sub u (multiplyScalar dq (clamp01 (dot u dq / lengthSq dq))))
  <= lengthSq (sub u (multiplyScalar dq s)).
Proof.
  intros HL Hs. pose proof (lengthSq_nonneg dq) as HL0.
  set (L := lengthSq dq) in *. set (t' := dot u dq / L).
  assert (Hc : dot u dq = t' * L) by (unfold t'; field; assumption).
  rewrite !lengthSq_sub_scaled. fold L. rewrite Hc.
  assert (0 < L) by lra.
  destruct (clamp01_cases t') as [[Ht ->]|[[Ht ->]|[Ht ->]]].
  - assert (0 <= s * s * L) by (apply Rmult_le_pos; nra).
    assert (0 <= s * (- t') * L) by (repeat apply Rmult_le_pos; lra). nra.
  - assert (0 <= (1 - s) * (2 * t' - 1 - s) * L) by (repeat apply Rmult_le_pos; lra). nra.
  - sq (s - t'). assert (0 <= (s - t') * (s - t') * L) by (apply Rmult_le_pos; lra). nra.
Qed.

Lemma segmentDistance_le (dq u v : Vec3) :
  lengthSq dq <> 0 ->
  segmentDistance dq u <= segmentDistance dq v + length (sub u v).
Proof.
  intros HL. unfold segmentDistance, distanceTo.
  set (w := multiplyScalar dq (clamp01 (dot v dq / lengthSq dq))).
  apply Rle_trans with (length (sub u w)).
  - unfold length. apply sqrt_le_1; try apply lengthSq_nonneg.
    apply segment_nearest; [assumption|apply clamp01_range].
  - pose proof (length_triangle (sub u w) (sub v w)) as H.
    now rewrite sub_sub_cancel in H.
Qed.

Lemma segmentDistance_diff_sq (dq u v : Vec3) :
  lengthSq dq <> 0 ->
  (segmentDistance dq u - segmentDistance dq v) * (segmentDistance dq u - segmentDistance dq v)
  <= lengthSq (sub u v).
Proof.
  intros HL. pose proof (segmentDistance_le dq u v HL).
  pose proof (segmentDistance_le dq v u HL) as H'. rewrite (length_sub_sym v u) in H'.
  pose proof (length_nonneg (sub u v)). rewrite <- (length_sq (sub u v)).
  destruct (Rle_dec (segmentDistance dq v) (segmentDistance dq u)); nra.
Qed.

(** The long-hole SDF: [NaN] everywhere when [p = q], 1-Lipschitz
    otherwise. *)
Lemma createSdfElh_cases (p q n : Vec3) (r h : R) (sdf : Sdf) :
  createSdfElh p q n r h = Ok sdf ->
  (q = p /\ forall x, sdf x = None) \/
  (q <> p /\ exists f, (forall x, sdf x = Some (f x)) /\ lipschitz1 f).
Proof.
  unfold createSdfElh. destruct (Req_dec_T (length n) 1) as [Hn|]; [|discriminate].
  destruct (Req_dec_T (dot (sub q p) n) 0) as [Hperp|]; [|discriminate].
  destruct (Rlt_dec (distanceTo q p) 0); [discriminate|].
  intros H. inversion H; subst sdf; clear H. apply length_1 in Hn.
  fold (lengthSq (sub q p)).
  destruct (Req_dec_T (lengthSq (sub q p)) 0) as [HL|HL].
  - left. pose proof (lengthSq_0 _ HL) as Hz. split.
    + destruct p, q. unfold sub, zero in Hz. simpl in Hz. inversion Hz. f_equal; lra.
    + intros x. rewrite Hz. unfold clamp01_div.
      replace (lengthSq zero) with 0 by (unfold lengthSq, dot, zero; simpl; ring).
      replace (dot _ zero) with 0 by (unfold dot, zero; simpl; ring).
      destruct (Req_dec_T 0 0); [|lra]. reflexivity.
  - right. split.
    + intros ->. apply HL. unfold lengthSq, dot, sub. simpl. ring.
    + exists (fun x =>
                combine (Rabs (dot n (sub x p) - h * 0.5) - h * 0.5)
                        (segmentDistance (sub q p) (projectOnPlane (sub x p) n) - r)).
      split.
      * intros x. unfold clamp01_div.
        destruct (Req_dec_T (lengthSq (sub q p)) 0); [contradiction|]. reflexivity.
      * apply (axial_radial_lipschitz n
                 (fun x => Rabs (dot n (sub x p) - h * 0.5) - h * 0.5)
                 (fun x => segmentDistance (sub q p) (projectOnPlane (sub x p) n) - r) Hn).
        -- intros x y. rewrite !(dot_comm n). apply axial_distance.
        -- intros x y. cbv beta. rewrite (projectOnPlane_diff x y p n Hn).
           eapply Rle_trans; [|apply (segmentDistance_diff_sq _ _ _ HL)]. right. ring.
Qed.


(** *** The box *)

Lemma combine_pos_part (a b : R) : Rmax (combine a b) 0 = hypot (Rmax a 0) (Rmax b 0).
Proof.
  pose proof (hypot_nonneg (Rmax a 0) (Rmax b 0)).
  destruct (Rle_dec a 0), (Rle_dec b 0).
  1: { rewrite combine_inside by assumption.
       rewrite (Rmax_right a 0), (Rmax_right b 0) by lra. rewrite hypot_0.
       apply Rmax_right. apply Rmax_lub; lra. }
  all: rewrite combine_outside by lra; apply Rmax_left; lra.
Qed.

Lemma combine_neg_part (a b c : R) :
  Rmin (Rmax (combine a b) c) 0 = Rmin (Rmax (Rmax a b) c) 0.
Proof.
  pose proof (hypot_nonneg (Rmax a 0) (Rmax b 0)).
  destruct (Rle_dec a 0), (Rle_dec b 0).
  1: { now rewrite combine_inside by assumption. }
  all: rewrite combine_outside by lra.
  all: rewrite !Rmin_right; [reflexivity| |].
  all: try (pose proof (Rmax_l (hypot (Rmax a 0) (Rmax b 0)) c); lra).
  all: pose proof (Rmax_l (Rmax a b) c); pose proof (Rmax_l a b); pose proof (Rmax_r a b); lra.
Qed.

Lemma hypot_hypot (a b c : R) :
  hypot (hypot a b) c = length (vec3 a b c).
Proof.
  unfold hypot at 1, length, lengthSq, dot. simpl. f_equal.
  rewrite hypot_sq. ring.
Qed.

(** The box SDF is [combine] applied twice. *)
Lemma box_combine (a b c : R) :
  Rmin 0 (Rmax (Rmax a b) c) + length (vec3 (Rmax 0 a) (Rmax 0 b) (Rmax 0 c))
  = combine (combine a b) c.
Proof.
  unfold combine at 1. rewrite combine_neg_part, combine_pos_part, hypot_hypot.
  rewrite (Rmin_comm 0), (Rmax_comm 0 a), (Rmax_comm 0 b), (Rmax_comm 0 c). reflexivity.
Qed.

Lemma combine3_lipschitz (a b c a' b' c' D : R) :
  0 <= D ->
  (a - a') * (a - a') + (b - b') * (b - b') + (c - c') * (c - c') <= D * D ->
  Rabs (combine (combine a b) c - combine (combine a' b') c') <= D.
Proof.
  intros HD Hsq. apply combine_lipschitz; [assumption|].
  sq (a - a'). sq (b - b').
  set (S := (a - a') * (a - a') + (b - b') * (b - b')) in *.
  assert (HS : 0 <= S) by (unfold S; lra).
  pose proof (combine_lipschitz a b a' b' (sqrt S) (sqrt_pos S)) as H.
  rewrite (sqrt_sqrt S HS) in H. specialize (H (Rle_refl _)).
  pose proof (sqrt_pos S). pose proof (sqrt_sqrt S HS).
  unfold Rabs in H. destruct (Rcase_abs (combine a b - combine a' b')).
  all: assert ((combine a b - combine a' b') * (combine a b - combine a' b') <= S) by nra.
  all: lra.
Qed.

(** Bessel's inequality for three pairwise orthogonal vectors, each of
    length 1 or zero. *)
Lemma bessel (v u0 u1 u2 : Vec3) :
  dot u0 u1 = 0 -> dot u0 u2 = 0 -> dot u1 u2 = 0 ->
  (lengthSq u0 = 1 \/ u0 = zero) -> (lengthSq u1 = 1 \/ u1 = zero) ->
  (lengthSq u2 = 1 \/ u2 = zero) ->
  dot v u0 * dot v u0 + dot v u1 * dot v u1 + dot v u2 * dot v u2 <= lengthSq v.
Proof.
  intros H01 H02 H12 H0 H1 H2.
  set (c0 := dot v u0). set (c1 := dot v u1). set (c2 := dot v u2).
  pose proof (lengthSq_nonneg
    (sub v (add (add (multiplyScalar u0 c0) (multiplyScalar u1 c1)) (multiplyScalar u2 c2))))
    as Hr.
  assert (E : lengthSq
    (sub v (add (add (multiplyScalar u0 c0) (multiplyScalar u1 c1)) (multiplyScalar u2 c2)))
    = lengthSq v - 2 * (c0 * dot v u0 + c1 * dot v u1 + c2 * dot v u2)
      + c0 * c0 * lengthSq u0 + c1 * c1 * lengthSq u1 + c2 * c2 * lengthSq u2
      + 2 * c0 * c1 * dot u0 u1 + 2 * c0 * c2 * dot u0 u2 + 2 * c1 * c2 * dot u1 u2).
  { unfold lengthSq, dot, sub, add, multiplyScalar. simpl. ring. }
  rewrite E, H01, H02, H12 in Hr. fold c0 c1 c2 in Hr.
  assert (E0 : c0 * c0 * lengthSq u0 = c0 * c0).
  { destruct H0 as [->| ->]; [ring|]. unfold c0, dot, lengthSq, zero. simpl. ring. }
  assert (E1 : c1 * c1 * lengthSq u1 = c1 * c1).
  { destruct H1 as [->| ->]; [ring|]. unfold c1, dot, lengthSq, zero. simpl. ring. }
  assert (E2 : c2 * c2 * lengthSq u2 = c2 * c2).
  { destruct H2 as [->| ->]; [ring|]. unfold c2, dot, lengthSq, zero. simpl. ring. }
  rewrite E0, E1, E2 in Hr. lra.
Qed.

Lemma normalize_cases (a : Vec3) : lengthSq (normalize a) = 1 \/ normalize a = zero.
Proof.
  unfold normalize, divideScalar. destruct (Req_dec_T (length a) 0) as [H0|H0].
  - right. assert (Hz : a = zero).
    { apply lengthSq_0. rewrite <- length_sq, H0. ring. }
    rewrite Hz. unfold multiplyScalar, zero. simpl. f_equal; field.
  - left. replace (lengthSq (multiplyScalar a (1 / length a)))
      with (lengthSq a * (1 / length a) * (1 / length a))
      by (unfold lengthSq, dot, multiplyScalar; simpl; ring).
    rewrite <- length_sq. field. assumption.
Qed.

Lemma normalize_orthogonal (a b : Vec3) :
  dot a b = 0 -> dot (normalize a) (normalize b) = 0.
Proof.
  intros H. unfold normalize, divideScalar.
  set (la := if Req_dec_T (length a) 0 then 1 else length a).
  set (lb := if Req_dec_T (length b) 0 then 1 else length b).
  replace (dot (multiplyScalar a (1 / la)) (multiplyScalar b (1 / lb)))
    with (dot a b * (1 / la) * (1 / lb))
    by (unfold dot, multiplyScalar; simpl; ring).
  rewrite H. ring.
Qed.

Lemma createSdfBox_lipschitz (center halfVec0 halfVec1 halfVec2 : Vec3) (sdf : Sdf) :
  createSdfBox center halfVec0 halfVec1 halfVec2 = Ok sdf ->
  exists f, (forall x, sdf x = Some (f x)) /\ lipschitz1 f.
Proof.
  unfold createSdfBox.
  destruct (Req_dec_T (dot halfVec0 halfVec1) 0) as [H01|]; [|discriminate].
  destruct (Req_dec_T (dot halfVec0 halfVec2) 0) as [H02|]; [|discriminate].
  destruct (Req_dec_T (dot halfVec1 halfVec2) 0) as [H12|]; [|discriminate].
  intros H. inversion H; subst sdf; clear H.
  set (u0 := normalize halfVec0). set (u1 := normalize halfVec1).
  set (u2 := normalize halfVec2).
  exists (fun x =>
    combine (combine (Rabs (dot (sub x center) u0) - length halfVec0)
                     (Rabs (dot (sub x center) u1) - length halfVec1))
            (Rabs (dot (sub x center) u2) - length halfVec2)).
  split.
  - intros x. cbn [Vector3.x Vector3.y Vector3.z sub]. f_equal. apply box_combine.
  - intros x y. apply combine3_lipschitz; [apply length_nonneg|].
    unfold distanceTo. rewrite length_sq.
    pose proof (bessel (sub x y) u0 u1 u2
                  (normalize_orthogonal _ _ H01) (normalize_orthogonal _ _ H02)
                  (normalize_orthogonal _ _ H12)
                  (normalize_cases _) (normalize_cases _) (normalize_cases _)) as HB.
    pose proof (Rabs_diff_sq (dot (sub x center) u0) (dot (sub y center) u0)) as A0.
    pose proof (Rabs_diff_sq (dot (sub x center) u1) (dot (sub y center) u1)) as A1.
    pose proof (Rabs_diff_sq (dot (sub x center) u2) (dot (sub y center) u2)) as A2.
    rewrite <- !dot_sub_l, !sub_sub_cancel in A0, A1, A2.
    eapply Rle_trans; [|exact HB].
    eapply Rle_trans; [|apply Rplus_le_compat; [apply Rplus_le_compat|]; eassumption].
    right. ring.
Qed.

End SdfFacts.

(** Every SDF that [createSdf] returns is either [NaN] at every point or a
    1-Lipschitz real function. *)
Lemma createSdf_cases (shape : Shape) (sdf : Sdf) :
  createSdf shape = Ok sdf ->
  (forall x, sdf x = None) \/
  (exists f, (forall x, sdf x = Some (f x)) /\ lipschitz1 f).
Proof.
  destruct shape; simpl; intros H.
  - right. eapply createSdfCylinder_lipschitz; eauto.
  - apply createSdfElh_cases in H as [[_ H]|[_ H]]; auto.
  - right. eapply createSdfBox_lipschitz; eauto.
Qed.

(** C7.  The long hole from p to q = p = (0, 0, 0), extruded along
    n = (0, 0, 1), with r = h = 1, passes the checks of the constructor (unit
    direction, q - p perpendicular to n, distance not negative), and the SDF
    that [createSdf] returns for it is [NaN] at every point, the quotient
    [dx2.dot (dq) / dqLenSq] being 0 / 0: it is not a 1-Lipschitz function. *)
Theorem createSdfElh_degenerate_is_nan :
  let p := vec3 0 0 0 in
  let n := vec3 0 0 1 in
  exists sdf, createSdf (createELHShape p p n 1 1) = Ok sdf /\
              (forall x, sdf x = None) /\
              ~ (exists f, (forall x, sdf x = Some (f x)) /\ lipschitz1 f).
Proof.
  intros p n.
  assert (Hn : Vector3.length n = 1).
  { unfold Vector3.length, Vector3.lengthSq, Vector3.dot, n. simpl.
    replace (0 * 0 + 0 * 0 + 1 * 1) with 1 by ring. apply sqrt_1. }
  destruct (createSdfElh p p n 1 1) as [sdf|e] eqn:Hc.
  - exists sdf. split; [exact Hc|].
    apply createSdfElh_cases in Hc as [[_ H]|[Hne _]]; [|congruence].
    split; [exact H|]. intros (f & Hf & _). specialize (H p). specialize (Hf p). congruence.
  - exfalso. unfold createSdfElh in Hc.
    destruct (Req_dec_T (Vector3.length n) 1); [|contradiction].
    destruct (Req_dec_T _ 0) as [|Hd].
    + destruct (Rlt_dec _ 0) as [Hlt|]; [|discriminate].
      pose proof (VectorFacts.length_nonneg (Vector3.sub p p)). unfold Vector3.distanceTo in Hlt. lra.
    + apply Hd. unfold Vector3.dot, Vector3.sub, p, n. simpl. ring.
Qed.

(** ** [fillShape] *)

Section FillFacts.
Context {E : Type}.
Implicit Types (vg g : Grid E).

(** A visitor that never stops folds over the whole list. *)
Lemma visit_never_stops {S} (F : Z -> Z -> Z -> S -> S) (cells : list (Z * Z * Z)) :
  forall s,
    fst (visit (fun ix iy iz s => (F ix iy iz s, false)) cells s)
    = fold_left (fun s c => let '(ix, iy, iz) := c in F ix iy iz s) cells s.
Proof.
  induction cells as [|[[ix iy] iz] rest IH]; intros s; simpl; [reflexivity|]. apply IH.
Qed.

Lemma set_sameShape vg ix iy iz val : sameShape vg (VoxelGridCpu.set vg ix iy iz val).
Proof.
  unfold VoxelGridCpu.set, sameShape. destruct (0 <=? _)%Z; simpl; repeat split; auto.
  apply length_insert.
Qed.

Lemma index_range vg ix iy iz :
  inBounds vg (ix, iy, iz) ->
  (0 <= VoxelGridCpu.index vg ix iy iz
     < VoxelGridCpu.numX vg * VoxelGridCpu.numY vg * VoxelGridCpu.numZ vg)%Z.
Proof.
  unfold inBounds, VoxelGridCpu.index. intros (Hx & Hy & Hz).
  set (nx := VoxelGridCpu.numX vg) in *. set (ny := VoxelGridCpu.numY vg) in *.
  set (nz := VoxelGridCpu.numZ vg) in *.
  assert (0 <= nx * ny)%Z by nia.
  assert (0 <= iy * nx <= (ny - 1) * nx)%Z by nia.
  assert (0 <= iz * (nx * ny) <= (nz - 1) * (nx * ny))%Z by nia.
  nia.
Qed.

Lemma index_inj vg ix iy iz ix' iy' iz' :
  inBounds vg (ix, iy, iz) -> inBounds vg (ix', iy', iz') ->
  VoxelGridCpu.index vg ix iy iz = VoxelGridCpu.index vg ix' iy' iz' ->
  (ix, iy, iz) = (ix', iy', iz').
Proof.
  unfold inBounds, VoxelGridCpu.index. intros (Hx & Hy & Hz) (Hx' & Hy' & Hz').
  set (nx := VoxelGridCpu.numX vg) in *. set (ny := VoxelGridCpu.numY vg) in *.
  intros H.
  assert (0 <= ix + iy * nx < nx * ny)%Z by nia.
  assert (0 <= ix' + iy' * nx < nx * ny)%Z by nia.
  assert (iz = iz').
  { destruct (Z.lt_trichotomy iz iz') as [Hlt|[Heq|Hgt]]; [|assumption|].
    - assert ((iz + 1) * (nx * ny) <= iz' * (nx * ny))%Z by nia. nia.
    - assert ((iz' + 1) * (nx * ny) <= iz * (nx * ny))%Z by nia. nia. }
  subst iz'.
  assert (iy = iy').
  { destruct (Z.lt_trichotomy iy iy') as [Hlt|[Heq|Hgt]]; [|assumption|].
    - assert ((iy + 1) * nx <= iy' * nx)%Z by nia. nia.
    - assert ((iy' + 1) * nx <= iy * nx)%Z by nia. nia. }
  subst iy'.
  assert (ix = ix') by lia. now subst.
Qed.

Lemma inBounds_sameShape vg g c : sameShape vg g -> inBounds vg c -> inBounds g c.
Proof.
  destruct c as [[ix iy] iz]. unfold sameShape, inBounds.
  intros (_ & -> & -> & -> & _). auto.
Qed.

Lemma index_sameShape vg g ix iy iz :
  sameShape vg g -> VoxelGridCpu.index g ix iy iz = VoxelGridCpu.index vg ix iy iz.
Proof. unfold sameShape, VoxelGridCpu.index. intros (_ & -> & -> & _). reflexivity. Qed.

Lemma get_set_eq vg ix iy iz val :
  wellSized vg -> inBounds vg (ix, iy, iz) ->
  VoxelGridCpu.get (VoxelGridCpu.set vg ix iy iz val) ix iy iz = Some val.
Proof.
  intros Hw Hb. pose proof (index_range vg ix iy iz Hb) as Hr.
  pose proof (index_sameShape vg _ ix iy iz (set_sameShape vg ix iy iz val)) as Hi.
  unfold VoxelGridCpu.get. rewrite Hi. unfold VoxelGridCpu.set.
  destruct (Z.leb_spec 0 (VoxelGridCpu.index vg ix iy iz)); [|lia]. simpl.
  apply list_lookup_insert_eq. unfold wellSized in Hw. lia.
Qed.

Lemma get_set_ne vg ix iy iz ix' iy' iz' val :
  inBounds vg (ix, iy, iz) -> inBounds vg (ix', iy', iz') ->
  (ix, iy, iz) <> (ix', iy', iz') ->
  VoxelGridCpu.get (VoxelGridCpu.set vg ix iy iz val) ix' iy' iz'
  = VoxelGridCpu.get vg ix' iy' iz'.
Proof.
  intros Hb Hb' Hne. pose proof (index_range vg ix iy iz Hb) as Hr.
  pose proof (index_range vg ix' iy' iz' Hb') as Hr'.
  pose proof (index_sameShape vg _ ix' iy' iz' (set_sameShape vg ix iy iz val)) as Hi.
  unfold VoxelGridCpu.get. rewrite Hi. unfold VoxelGridCpu.set.
  destruct (Z.leb_spec 0 (VoxelGridCpu.index vg ix iy iz)); [|lia].
  destruct (Z.leb_spec 0 (VoxelGridCpu.index vg ix' iy' iz')); [|lia]. simpl.
  apply list_lookup_insert_ne. intros Heq. apply Hne.
  apply (index_inj vg); auto. lia.
Qed.

Lemma cell_eq_dec (c c' : Z * Z * Z) : {c = c'} + {c <> c'}.
Proof. repeat decide equality. Qed.

Lemma fill_cells vg val (l : list (Z * Z * Z)) :
  wellSized vg ->
  Forall (inBounds vg) l ->
  forall g, sameShape vg g ->
    let g' := fold_left (fun g c => let '(ix, iy, iz) := c in VoxelGridCpu.set g ix iy iz val)
                l g in
    sameShape vg g' /\
    forall ix iy iz, inBounds vg (ix, iy, iz) ->
      (In (ix, iy, iz) l -> VoxelGridCpu.get g' ix iy iz = Some val) /\
      (~ In (ix, iy, iz) l -> VoxelGridCpu.get g' ix iy iz = VoxelGridCpu.get g ix iy iz).
Proof.
  intros Hw Hl. induction Hl as [|[[cx cy] cz] rest Hc Hrest IH]; intros g Hg; simpl.
  - split; [exact Hg|]. intros ix iy iz _. split; [intros []|reflexivity].
  - assert (Hg1 : sameShape vg (VoxelGridCpu.set g cx cy cz val)).
    { pose proof (set_sameShape g cx cy cz val). unfold sameShape in *. intuition congruence. }
    assert (Hwg : wellSized g).
    { unfold wellSized, sameShape in *. destruct Hg as (_ & -> & -> & -> & _ & ->). exact Hw. }
    destruct (IH _ Hg1) as (Hs & Hget). split; [exact Hs|].
    intros ix iy iz Hb. destruct (Hget ix iy iz Hb) as (Hin & Hout). split.
    + intros [Heq|Hin']; [|now apply Hin].
      inversion Heq; subst. destruct (in_dec cell_eq_dec (ix, iy, iz) rest) as [|Hn].
      * now apply Hin.
      * rewrite (Hout Hn). apply get_set_eq; [exact Hwg|].
        now apply (inBounds_sameShape vg).
    + intros Hn. rewrite Hout by (intros H; apply Hn; now right).
      apply get_set_ne.
      * now apply (inBounds_sameShape vg).
      * now apply (inBounds_sameShape vg).
      * intros Heq. apply Hn. now left.
Qed.


Lemma IZR_div_mod_8 (i : Z) :
  IZR i = 8 * IZR (i / 8) + IZR (i mod 8) /\ 0 <= IZR (i mod 8) <= 7.
Proof.
  pose proof (Z.div_mod i 8 ltac:(lia)) as H. pose proof (Z.mod_pos_bound i 8 ltac:(lia)) as Hm.
  split.
  - rewrite H at 1. rewrite plus_IZR, mult_IZR. reflexivity.
  - split; [apply (IZR_le 0); lia|apply (IZR_le _ 7); lia].
Qed.

(** A cell centre is no farther from the centre of its block than the
    culling margin. *)
Lemma center_near_blockCenter vg ix iy iz :
  0 <= VoxelGridCpu.res vg ->
  Vector3.distanceTo
    (blockCenter vg (ix / blockSize) (iy / blockSize) (iz / blockSize))
    (VoxelGridCpu.centerOf vg ix iy iz)
  <= blockOffset vg.
Proof.
  intros Hres. unfold blockOffset, blockSize, Q2R. cbn [QArith_base.Qnum QArith_base.Qden].
  pose proof (sqrt_pos 3) as Hs. pose proof (sqrt_sqrt 3 ltac:(lra)) as Hs2.
  set (r := VoxelGridCpu.res vg) in *.
  apply le_of_sq.
  - apply Rmult_le_pos; [|assumption]. lra.
  - unfold Vector3.distanceTo. rewrite VectorFacts.length_sq.
    unfold blockCenter, VoxelGridCpu.centerOf, blockSize. fold r.
    unfold Vector3.lengthSq, Vector3.dot, Vector3.sub, Vector3.add, Vector3.multiplyScalar,
      Vector3.addScalar. simpl.
    destruct (IZR_div_mod_8 ix) as (Ex & Hx). destruct (IZR_div_mod_8 iy) as (Ey & Hy).
    destruct (IZR_div_mod_8 iz) as (Ez & Hz).
    rewrite Ex, Ey, Ez.
    set (mx := IZR (ix mod 8)) in *. set (my := IZR (iy mod 8)) in *.
    set (mz := IZR (iz mod 8)) in *.
    set (qx := IZR (ix / 8)). set (qy := IZR (iy / 8)). set (qz := IZR (iz / 8)).
    unfold Q2R. cbn [QArith_base.Qnum QArith_base.Qden].
    replace ((qx + 5 * / 10) * (8 * r) + Vector3.x (VoxelGridCpu.ofs vg)
             - ((8 * qx + mx + 5 * / 10) * r + Vector3.x (VoxelGridCpu.ofs vg)))
      with ((7 / 2 - mx) * r) by field.
    replace ((qy + 5 * / 10) * (8 * r) + Vector3.y (VoxelGridCpu.ofs vg)
             - ((8 * qy + my + 5 * / 10) * r + Vector3.y (VoxelGridCpu.ofs vg)))
      with ((7 / 2 - my) * r) by field.
    replace ((qz + 5 * / 10) * (8 * r) + Vector3.z (VoxelGridCpu.ofs vg)
             - ((8 * qz + mz + 5 * / 10) * r + Vector3.z (VoxelGridCpu.ofs vg)))
      with ((7 / 2 - mz) * r) by field.
    assert (Hr2 : 0 <= r * r) by nra.
    assert (Bx : (7 / 2 - mx) * (7 / 2 - mx) <= (49 / 4)) by nra.
    assert (By : (7 / 2 - my) * (7 / 2 - my) <= (49 / 4)) by nra.
    assert (Bz : (7 / 2 - mz) * (7 / 2 - mz) <= (49 / 4)) by nra.
    assert (Cx : (7 / 2 - mx) * r * ((7 / 2 - mx) * r) <= (49 / 4) * (r * r)) by nra.
    assert (Cy : (7 / 2 - my) * r * ((7 / 2 - my) * r) <= (49 / 4) * (r * r)) by nra.
    assert (Cz : (7 / 2 - mz) * r * ((7 / 2 - mz) * r) <= (49 / 4) * (r * r)) by nra.
    replace (r * 8 * (5 * / 10) * sqrt 3 * (r * 8 * (5 * / 10) * sqrt 3))
      with (16 * (r * r) * (sqrt 3 * sqrt 3)) by field.
    rewrite Hs2. lra.
Qed.

(** Block culling drops no cell that passes the test at its centre. *)
Lemma block_kept vg (sdf : Sdf) (offset : R) ix iy iz :
  0 <= VoxelGridCpu.res vg ->
  ((forall x, sdf x = None) \/
   (exists f, (forall x, sdf x = Some (f x)) /\ lipschitz1 f)) ->
  leb_num (sdf (VoxelGridCpu.centerOf vg ix iy iz)) offset = true ->
  leb_num (sdf (blockCenter vg (ix / blockSize) (iy / blockSize) (iz / blockSize)))
          (blockOffset vg + offset) = true.
Proof.
  intros Hres [Hnan|(f & Hf & Hlip)] Hc.
  - rewrite Hnan in Hc. discriminate.
  - rewrite Hf in *. simpl in *.
    destruct (Rle_dec (f (VoxelGridCpu.centerOf vg ix iy iz)) offset) as [Hle|]; [|discriminate].
    destruct (Rle_dec _ _) as [|Hn]; [reflexivity|]. exfalso. apply Hn.
    pose proof (Hlip (blockCenter vg (ix / blockSize) (iy / blockSize) (iz / blockSize))
                  (VoxelGridCpu.centerOf vg ix iy iz)) as HL.
    pose proof (center_near_blockCenter vg ix iy iz Hres).
    unfold Rabs in HL. destruct (Rcase_abs _); lra.
Qed.


Lemma roundOffset_modes vg :
  roundOffset vg "outside" = Ok (VoxelGridCpu.res vg * sqrt 3 / 2) /\
  roundOffset vg "inside" = Ok (- (VoxelGridCpu.res vg * sqrt 3 / 2)) /\
  roundOffset vg "nearest" = Ok 0.
Proof.
  assert (H : halfDiag vg = VoxelGridCpu.res vg * sqrt 3 / 2).
  { unfold halfDiag, Q2R. cbn [QArith_base.Qnum QArith_base.Qden]. field. }
  unfold roundOffset. simpl. rewrite H. auto.
Qed.

Lemma roundOffset_other vg (roundMode : string) :
  roundMode <> "outside" -> roundMode <> "inside" -> roundMode <> "nearest" ->
  roundOffset vg roundMode = Throw (UnknownRoundMode roundMode).
Proof.
  intros H1 H2 H3. unfold roundOffset.
  apply String.eqb_neq in H1, H2, H3. now rewrite H1, H2, H3.
Qed.

(** C1.  On a grid of positive resolution whose typed array has
    [numX * numY * numZ] cells, and for a shape that [createSdf] accepts:
    the offset is [res * sqrt 3 / 2] for "outside", its opposite for "inside"
    and 0 for "nearest"; any other round mode makes [fillShape] throw; and
    with one of the three, [fillShape] returns the grid in which the cells
    whose SDF at the centre is at most the offset hold [val] (the culling of
    blocks drops none of them) and every other cell holds what it held, the
    geometry being the same. *)
Theorem fillShape_sets_selected_cells vg (shape : Shape) (val : E) (roundMode : string)
    (sdf : Sdf) :
  0 < VoxelGridCpu.res vg ->
  wellSized vg ->
  createSdf shape = Ok sdf ->
  (roundOffset vg "outside" = Ok (VoxelGridCpu.res vg * sqrt 3 / 2) /\
   roundOffset vg "inside" = Ok (- (VoxelGridCpu.res vg * sqrt 3 / 2)) /\
   roundOffset vg "nearest" = Ok 0) /\
  (roundMode <> "outside" -> roundMode <> "inside" -> roundMode <> "nearest" ->
   fillShape vg shape val roundMode = Throw (UnknownRoundMode roundMode)) /\
  (forall offset, roundOffset vg roundMode = Ok offset ->
   exists vg',
     fillShape vg shape val roundMode = Ok vg' /\
     sameShape vg vg' /\
     forall ix iy iz, inBounds vg (ix, iy, iz) ->
       VoxelGridCpu.get vg' ix iy iz =
         if leb_num (sdf (VoxelGridCpu.centerOf vg ix iy iz)) offset
         then Some val else VoxelGridCpu.get vg ix iy iz).
Proof.
  intros Hres Hw Hsdf. split; [apply roundOffset_modes|]. split.
  - intros H1 H2 H3. unfold fillShape.
    now rewrite Hsdf, (roundOffset_other vg roundMode H1 H2 H3).
  - intros offset Hoff. unfold fillShape. rewrite Hsdf, Hoff.
    eexists. split; [reflexivity|].
    unfold traverseAllPointsInside.
    rewrite (visit_never_stops (fun ix iy iz g => VoxelGridCpu.set g ix iy iz val)).
    assert (Hshape : sameShape vg vg) by (unfold sameShape; tauto).
    destruct (fill_cells vg val (candidates vg sdf offset) Hw
                (candidates_inBounds vg sdf offset) vg Hshape) as (Hs & Hget).
    split; [exact Hs|]. intros ix iy iz Hb. destruct (Hget ix iy iz Hb) as (Hin & Hout).
    destruct (leb_num (sdf (VoxelGridCpu.centerOf vg ix iy iz)) offset) eqn:Hc.
    + apply Hin, in_candidates. split; [exact Hb|]. split; [exact Hc|].
      apply block_kept; [lra|now apply createSdf_cases with shape|exact Hc].
    + apply Hout. intros H. apply in_candidates in H. destruct H as (_ & H & _). congruence.
Qed.

End FillFacts.

Lemma fillShape_sets_selected_cells_witness :
  let vg : Grid Z := VoxelGridCpu.mk 1 1 1 1 Vector3.zero [0%Z] in
  let shape := createCylinderShape (vec3 0 0 0) (vec3 0 0 1) 1 1 in
  exists sdf,
    0 < VoxelGridCpu.res vg /\
    wellSized vg /\
    createSdf shape = Ok sdf /\
    (roundOffset vg "outside" = Ok (VoxelGridCpu.res vg * sqrt 3 / 2) /\
     roundOffset vg "inside" = Ok (- (VoxelGridCpu.res vg * sqrt 3 / 2)) /\
     roundOffset vg "nearest" = Ok 0) /\
    ("nearest" <> "outside" -> "nearest" <> "inside" -> "nearest" <> "nearest" ->
     fillShape vg shape 1%Z "nearest" = Throw (UnknownRoundMode "nearest")) /\
    (forall offset, roundOffset vg "nearest" = Ok offset ->
     exists vg',
       fillShape vg shape 1%Z "nearest" = Ok vg' /\
       sameShape vg vg' /\
       forall ix iy iz, inBounds vg (ix, iy, iz) ->
         VoxelGridCpu.get vg' ix iy iz =
           if leb_num (sdf (VoxelGridCpu.centerOf vg ix iy iz)) offset
           then Some 1%Z else VoxelGridCpu.get vg ix iy iz).
Proof.
  intros vg shape.
  assert (Hn : Vector3.length (vec3 0 0 1) = 1).
  { unfold Vector3.length, Vector3.lengthSq, Vector3.dot. simpl.
    replace (0 * 0 + 0 * 0 + 1 * 1) with 1 by ring. apply sqrt_1. }
  assert (Hres : 0 < VoxelGridCpu.res vg) by (simpl; lra).
  assert (Hw : wellSized vg) by reflexivity.
  destruct (createSdf shape) as [sdf|e] eqn:Hc.
  - exists sdf. split; [exact Hres|]. split; [exact Hw|]. split; [reflexivity|].
    exact (fillShape_sets_selected_cells vg shape 1%Z "nearest" sdf Hres Hw Hc).
  - exfalso. unfold shape, createCylinderShape, createSdf, createSdfCylinder in Hc.
    destruct (Req_dec_T (Vector3.length (vec3 0 0 1)) 1); [discriminate|contradiction].
Defined.

(** ** [distField] *)

Lemma jumpFloodPasses_run (scheds : nat -> Schedule) (grid : GridParams) (h : nat)
    (numPass count : nat) :
  forall (pass : nat) (s : State) (b : Buffer),
    buffers s !! h = Some b ->
    jumpFloodPasses scheds grid h numPass count pass s =
      (Ok tt,
       mkState (mapPipelines s) (map2Pipelines s) (reducePipelines s)
         (<[h := mkBuffer (size b)
                   (jumpFloodCells scheds grid numPass count pass (cells b))]> (buffers s))
         (objects s)).
Proof.
  induction count as [|count IH]; intros pass s b Hb; simpl.
  - unfold ret. f_equal. destruct s as [m1 m2 m3 bs os]. simpl in *. f_equal.
    rewrite insert_id; [reflexivity|]. now destruct b.
  - rewrite (bind_ok _ _ _ _ _ (readBuffer_ok _ _ _ Hb)).
    rewrite (bind_ok _ _ _ _ _ (writeCells_ok _ _ _ _ Hb)).
    erewrite IH by (cbn [buffers]; apply lookup_insert_eq).
    cbn [mapPipelines map2Pipelines reducePipelines buffers objects size cells].
    now rewrite insert_insert_eq.
Qed.

Lemma destroy_ok (s : State) (g : nat) (o : VoxelGridGpu.t) (h : nat) :
  objects s !! g = Some o -> VoxelGridGpu.buffer o = Some h ->
  destroy g s =
    (Ok tt,
     mkState (mapPipelines s) (map2Pipelines s) (reducePipelines s)
       (delete h (buffers s))
       (<[g := VoxelGridGpu.mk (VoxelGridGpu.res o) (VoxelGridGpu.numX o)
                 (VoxelGridGpu.numY o) (VoxelGridGpu.numZ o) (VoxelGridGpu.ofs o)
                 (VoxelGridGpu.type o) None]> (objects s))).
Proof.
  intros Hg Hb. unfold destroy.
  rewrite (bind_ok _ _ _ _ _ (deref_ok _ _ _ Hg)). now rewrite Hb.
Qed.

(** [distField] on two compatible grids with live buffers returns normally
    and leaves in the output grid the cells that the three kernels compute. *)
Lemma distField_run (scheds : nat -> Schedule) (s : State) (gi go : nat)
    (oi oo : VoxelGridGpu.t) (hi ho : nat) (bi bo : Buffer) :
  gi <> go ->
  objects s !! gi = Some oi -> objects s !! go = Some oo ->
  sameGeometry oi oo ->
  VoxelGridGpu.buffer oi = Some hi -> VoxelGridGpu.buffer oo = Some ho ->
  buffers s !! hi = Some bi -> buffers s !! ho = Some bo ->
  mapPipelines s !! "df_init" = Some df_init ->
  mapPipelines s !! "df_to_dist" = Some df_to_dist ->
  exists s',
    distField scheds gi go s = (Ok tt, s') /\
    cellsOf s' go = Some (distFieldCells scheds (paramsOf oi) (cells bi) (cells bo)).
Proof.
  intros Hne Hgi Hgo Hsame Hbi Hbo Hhi Hho Hinit Hdist.
  set (df := fresh (dom (objects s))).
  set (hdf := fresh (dom (buffers s))).
  set (n := (VoxelGridGpu.numX oi * VoxelGridGpu.numY oi * VoxelGridGpu.numZ oi)%Z).
  set (odf := VoxelGridGpu.mk (VoxelGridGpu.res oi) (VoxelGridGpu.numX oi)
                (VoxelGridGpu.numY oi) (VoxelGridGpu.numZ oi) (VoxelGridGpu.ofs oi)
                Vec4F (Some hdf)).
  assert (Hdf_gi : df <> gi) by (eapply fresh_object_ne; eauto).
  assert (Hdf_go : df <> go) by (eapply fresh_object_ne; eauto).
  assert (Hhdf_hi : hdf <> hi) by (eapply fresh_buffer_ne; eauto).
  assert (Hhdf_ho : hdf <> ho) by (eapply fresh_buffer_ne; eauto).
  set (s1 := afterCreateLike s oi Vec4F).
  assert (Hs1_gi : objects s1 !! gi = Some oi).
  { unfold s1, afterCreateLike. cbn [objects]. now rewrite lookup_insert_ne. }
  assert (Hs1_go : objects s1 !! go = Some oo).
  { unfold s1, afterCreateLike. cbn [objects]. now rewrite lookup_insert_ne. }
  assert (Hs1_df : objects s1 !! df = Some odf).
  { unfold s1, afterCreateLike. cbn [objects]. apply lookup_insert_eq. }
  assert (Hs1_hi : buffers s1 !! hi = Some bi).
  { unfold s1, afterCreateLike. cbn [buffers]. now rewrite lookup_insert_ne. }
  assert (Hs1_ho : buffers s1 !! ho = Some bo).
  { unfold s1, afterCreateLike. cbn [buffers]. now rewrite lookup_insert_ne. }
  assert (Hs1_hdf : buffers s1 !! hdf =
            Some (mkBuffer (n * sizeOfType Vec4F) (replicate (Z.to_nat n) (zeroOf Vec4F)))).
  { unfold s1, afterCreateLike. cbn [buffers]. apply lookup_insert_eq. }
  assert (Hs1_init : mapPipelines s1 !! "df_init" = Some df_init) by exact Hinit.
  assert (Hck1 : checkGrids oi [odf] = Ok tt).
  { apply checkGrids_accept_1. unfold sameGeometry, odf. simpl. tauto. }
  assert (Hck2 : checkGrids odf [oo] = Ok tt).
  { apply checkGrids_accept_1. unfold sameGeometry, odf in *. simpl. tauto. }
  eexists. split.
  - unfold distField.
    rewrite (bind_ok _ _ s s (paramsOf oi)).
    2:{ rewrite (checkGridCompat_1 _ _ _ _ _ Hgi Hgo), (checkGrids_accept_1 _ _ Hsame).
        reflexivity. }
    rewrite (bind_ok _ _ _ _ _ (createLike_ok _ _ _ (Some Vec4F) Hgi)).
    fold df. cbn [default]. fold s1.
    rewrite (bind_ok _ _ _ _ _
               (map_out_of_place s1 "df_init" gi df oi odf hi hdf bi _ df_init
                  (not_eq_sym Hdf_gi) Hs1_gi Hs1_df Hck1 Hbi eq_refl Hs1_hi Hs1_hdf Hs1_init)).
    cbn [size cells mapPipelines map2Pipelines reducePipelines buffers objects].
    match goal with |- bind (bufferOf df) _ ?st = _ => set (s2 := st) end.
    rewrite (bind_ok _ _ _ _ _ (bufferOf_ok s2 df odf hdf Hs1_df eq_refl)).
    assert (Hs2_hdf : buffers s2 !! hdf = Some (mkBuffer (n * sizeOfType Vec4F)
              (map_kernel (map_snippet df_init) (uniformsOf (paramsOf oi) 0) n (cells bi)
                 (replicate (Z.to_nat n) (zeroOf Vec4F))))).
    { unfold s2. cbn [buffers]. apply lookup_insert_eq. }
    rewrite (bind_ok _ _ _ _ _ (jumpFloodPasses_run scheds _ hdf _ _ 0%nat s2 _ Hs2_hdf)).
    cbn [size cells]. unfold s2 at 1 2 3 4 5.
    cbn [mapPipelines map2Pipelines reducePipelines buffers objects].
    rewrite insert_insert_eq.
    match goal with |- bind (map "df_to_dist" df go) _ ?st = _ => set (s3 := st) end.
    assert (Hs3_ho : buffers s3 !! ho = Some bo).
    { unfold s3. cbn [buffers]. now rewrite lookup_insert_ne. }
    set (c := jumpFloodCells scheds (paramsOf oi)
                (Z.to_nat (Z.log2_up (Z.max (Z.max (p_numX (paramsOf oi))
                                               (p_numY (paramsOf oi)))
                                        (p_numZ (paramsOf oi)))))
                (Z.to_nat (Z.log2_up (Z.max (Z.max (p_numX (paramsOf oi))
                                               (p_numY (paramsOf oi)))
                                        (p_numZ (paramsOf oi)))))
                0
                (map_kernel (map_snippet df_init) (uniformsOf (paramsOf oi) 0) n
                   (cells bi) (replicate (Z.to_nat n) (zeroOf Vec4F)))) in *.
    assert (Hs3_hdf : buffers s3 !! hdf = Some (mkBuffer (n * sizeOfType Vec4F) c)).
    { unfold s3. cbn [buffers]. apply lookup_insert_eq. }
    rewrite (bind_ok _ _ _ _ _
               (map_out_of_place s3 "df_to_dist" df go odf oo hdf ho _ bo df_to_dist
                  Hdf_go Hs1_df Hs1_go Hck2 eq_refl Hbo Hs3_hdf Hs3_ho Hdist)).
    cbn [size cells mapPipelines map2Pipelines reducePipelines buffers objects].
    match goal with |- destroy df ?st = _ => set (s4 := st) end.
    rewrite (destroy_ok s4 df odf hdf Hs1_df eq_refl).
    subst s4 s3 s2 c. reflexivity.
  - unfold cellsOf. cbn [objects buffers].
    rewrite lookup_insert_ne by exact Hdf_go. rewrite Hs1_go, Hbo.
    rewrite lookup_delete_ne by exact Hhdf_ho. rewrite lookup_insert_eq.
    cbn [option_map cells]. reflexivity.
Qed.

(** *** The loop of a jump-flood invocation *)

Section LoopFacts.
Variables (u : Uniforms) (ix3 : Z * Z * Z) (p : Vec3).

Lemma neighbor_out (read : Z -> option value) sd off :
  ~ inGrid u (neighborCoords u ix3 off) ->
  jump_flood_neighbor u read ix3 p sd off = sd.
Proof.
  unfold jump_flood_neighbor, inGrid, neighborCoords.
  destruct ix3 as [[x y] z], off as [[ox oy] oz]. intros H.
  destruct (_ || _)%bool eqn:Hb; [reflexivity|].
  exfalso. apply H. rewrite !orb_false_iff in Hb.
  destruct Hb as (((((H1 & H2) & H3) & H4) & H5) & H6).
  apply Z.ltb_ge in H1, H2, H3. rewrite Z.geb_leb in H4, H5, H6.
  apply Z.leb_gt in H4, H5, H6. lia.
Qed.

Lemma neighbor_in (read : Z -> option value) sd off :
  inGrid u (neighborCoords u ix3 off) ->
  jump_flood_neighbor u read ix3 p sd off =
    match read (compose_ix u (neighborCoords u ix3 off)) with
    | None => sd
    | Some nsd =>
        if Rlt_dec (vec4_w nsd) 0 then sd
        else
          let nd := Vector3.distanceTo (vec4_xyz nsd) p in
          if Rlt_dec (vec4_w sd) 0 then VVec4 (vec4_xyz nsd) nd
          else if Rlt_dec nd (vec4_w sd) then VVec4 (vec4_xyz nsd) nd
          else sd
    end.
Proof.
  unfold jump_flood_neighbor, inGrid, neighborCoords.
  destruct ix3 as [[x y] z], off as [[ox oy] oz]. intros (H1 & H2 & H3).
  destruct (_ || _)%bool eqn:Hb; [|reflexivity].
  exfalso. rewrite !orb_true_iff in Hb. rewrite !Z.ltb_lt, !Z.geb_leb, !Z.leb_le in Hb. lia.
Qed.

Lemma inGrid_dec n3 : {inGrid u n3} + {~ inGrid u n3}.
Proof.
  destruct n3 as [[nx ny] nz]. unfold inGrid.
  destruct (Z_le_dec 0 nx), (Z_lt_dec nx (nums_x u)), (Z_le_dec 0 ny),
    (Z_lt_dec ny (nums_y u)), (Z_le_dec 0 nz), (Z_lt_dec nz (nums_z u));
    try (left; lia); right; lia.
Qed.

Lemma distance_holdsSeed (a : Vec3) : holdsSeed (VVec4 a (Vector3.distanceTo a p)).
Proof.
  unfold holdsSeed. simpl. pose proof (VectorFacts.length_nonneg (Vector3.sub a p)).
  unfold Vector3.distanceTo. lra.
Qed.

(** The value after one neighbour is the value before, or the seed of the
    neighbour with its distance. *)
Lemma neighbor_cases (read : Z -> option value) sd off :
  jump_flood_neighbor u read ix3 p sd off = sd \/
  exists nsd,
    inGrid u (neighborCoords u ix3 off) /\
    read (compose_ix u (neighborCoords u ix3 off)) = Some nsd /\
    holdsSeed nsd /\
    jump_flood_neighbor u read ix3 p sd off
    = VVec4 (vec4_xyz nsd) (Vector3.distanceTo (vec4_xyz nsd) p).
Proof.
  destruct (inGrid_dec (neighborCoords u ix3 off)) as [Hin|Hout].
  - rewrite (neighbor_in _ _ _ Hin).
    destruct (read _) as [nsd|] eqn:Hr; [|now left].
    destruct (Rlt_dec (vec4_w nsd) 0) as [|Hv]; [now left|]. cbv zeta.
    destruct (Rlt_dec (vec4_w sd) 0); [right; exists nsd; auto|].
    destruct (Rlt_dec _ (vec4_w sd)); [right; exists nsd; auto|now left].
  - left. now apply neighbor_out.
Qed.

Lemma neighbor_mono (read : Z -> option value) sd off :
  holdsSeed sd ->
  holdsSeed (jump_flood_neighbor u read ix3 p sd off) /\
  vec4_w (jump_flood_neighbor u read ix3 p sd off) <= vec4_w sd.
Proof.
  intros Hsd. destruct (inGrid_dec (neighborCoords u ix3 off)) as [Hin|Hout].
  - rewrite (neighbor_in _ _ _ Hin).
    destruct (read _) as [nsd|]; [|split; [assumption|lra]].
    destruct (Rlt_dec (vec4_w nsd) 0); [split; [assumption|lra]|]. cbv zeta.
    destruct (Rlt_dec (vec4_w sd) 0); [contradiction|].
    destruct (Rlt_dec _ (vec4_w sd)).
    + split; [apply distance_holdsSeed|simpl; lra].
    + split; [assumption|lra].
  - rewrite (neighbor_out _ _ _ Hout). split; [assumption|lra].
Qed.

Lemma neighbor_improves (read : Z -> option value) sd off nsd :
  inGrid u (neighborCoords u ix3 off) ->
  read (compose_ix u (neighborCoords u ix3 off)) = Some nsd ->
  holdsSeed nsd ->
  holdsSeed (jump_flood_neighbor u read ix3 p sd off) /\
  vec4_w (jump_flood_neighbor u read ix3 p sd off)
  <= Vector3.distanceTo (vec4_xyz nsd) p.
Proof.
  intros Hin Hr Hv. rewrite (neighbor_in _ _ _ Hin), Hr.
  destruct (Rlt_dec (vec4_w nsd) 0); [contradiction|]. cbv zeta.
  destruct (Rlt_dec (vec4_w sd) 0) as [|Hsd].
  - split; [apply distance_holdsSeed|simpl; lra].
  - destruct (Rlt_dec _ (vec4_w sd)).
    + split; [apply distance_holdsSeed|simpl; lra].
    + split; [exact Hsd|lra].
Qed.

Lemma loop_ind (read : nat -> Z -> option value) (Q : value -> Prop) offs :
  forall sd,
    Q sd ->
    (forall i off nsd,
       In (i, off) offs ->
       inGrid u (neighborCoords u ix3 off) ->
       read i (compose_ix u (neighborCoords u ix3 off)) = Some nsd ->
       holdsSeed nsd ->
       Q (VVec4 (vec4_xyz nsd) (Vector3.distanceTo (vec4_xyz nsd) p))) ->
    Q (jump_flood_loop u read ix3 p sd offs).
Proof.
  unfold jump_flood_loop.
  induction offs as [|[i off] offs IH]; intros sd Hsd Hstep; simpl; [exact Hsd|].
  apply IH.
  - destruct (neighbor_cases (read i) sd off) as [->|(nsd & Hin & Hr & Hv & ->)];
      [exact Hsd|].
    apply (Hstep i off nsd); auto. now left.
  - intros j off' nsd Hj. apply Hstep. now right.
Qed.

Lemma loop_mono (read : nat -> Z -> option value) offs :
  forall sd,
    holdsSeed sd ->
    holdsSeed (jump_flood_loop u read ix3 p sd offs) /\
    vec4_w (jump_flood_loop u read ix3 p sd offs) <= vec4_w sd.
Proof.
  unfold jump_flood_loop.
  induction offs as [|[i off] offs IH]; intros sd Hsd; simpl; [split; [assumption|lra]|].
  destruct (neighbor_mono (read i) sd off Hsd) as (Hv & Hle).
  destruct (IH _ Hv) as (Hv' & Hle'). split; [assumption|lra].
Qed.

Lemma loop_improves (read : nat -> Z -> option value) offs i off nsd :
  forall sd,
    In (i, off) offs ->
    inGrid u (neighborCoords u ix3 off) ->
    read i (compose_ix u (neighborCoords u ix3 off)) = Some nsd ->
    holdsSeed nsd ->
    holdsSeed (jump_flood_loop u read ix3 p sd offs) /\
    vec4_w (jump_flood_loop u read ix3 p sd offs)
    <= Vector3.distanceTo (vec4_xyz nsd) p.
Proof.
  unfold jump_flood_loop.
  induction offs as [|[j off'] offs IH]; intros sd Hin Hg Hr Hv; [destruct Hin|].
  simpl. destruct Hin as [Heq|Hin].
  - inversion Heq; subst j off'.
    destruct (neighbor_improves (read i) sd off nsd Hg Hr Hv) as (Hv1 & Hle1).
    destruct (loop_mono read offs _ Hv1) as (Hv2 & Hle2).
    unfold jump_flood_loop in *. split; [assumption|lra].
  - now apply IH.
Qed.

End LoopFacts.

Lemma kernel_invariant (u : Uniforms) (sched : Schedule) (df0 : list value)
    (P : list value -> Prop) :
  P df0 ->
  (forall df inv, P df -> P (jump_flood_invocation u df0 df inv)) ->
  P (jump_flood_kernel u sched df0).
Proof.
  intros H0 Hstep. unfold jump_flood_kernel.
  assert (forall df, P df -> P (fold_left (jump_flood_invocation u df0) sched df)) as H.
  { induction sched as [|inv sched IH]; intros df Hdf; simpl; [exact Hdf|].
    apply IH, Hstep, Hdf. }
  now apply H.
Qed.

(** *** The seed grid *)

Lemma jfPos_step (s : Z) (i : nat) :
  cell_center (uniformsOf jfGrid s) (decompose_ix (uniformsOf jfGrid s) (Z.of_nat i))
  = jfPos i.
Proof. reflexivity. Qed.

Lemma jfCoords_step (s : Z) (i : nat) :
  decompose_ix (uniformsOf jfGrid s) (Z.of_nat i) = jfCoords i.
Proof. reflexivity. Qed.

Lemma jfPos_dist (i j : nat) :
  Vector3.distanceTo (jfPos i) (jfPos j) = sqrt (IZR (sqDist (jfCoords i) (jfCoords j))).
Proof.
  unfold Vector3.distanceTo, Vector3.length, jfPos. f_equal.
  destruct (jfCoords i) as [[x y] z], (jfCoords j) as [[x' y'] z'].
  unfold sqDist, cell_center, Vector3.lengthSq, Vector3.dot, Vector3.sub, Vector3.add,
    Vector3.multiplyScalar. simpl.
  rewrite !plus_IZR, !mult_IZR, !minus_IZR. ring.
Qed.

Lemma jfCenter_dist (i j : nat) :
  Vector3.distanceTo (jfCenter i) (jfCenter j) = sqrt (IZR (sqDist (jfCoords i) (jfCoords j))).
Proof.
  unfold Vector3.distanceTo, Vector3.length, jfCenter. f_equal.
  destruct (jfCoords i) as [[x y] z], (jfCoords j) as [[x' y'] z'].
  unfold sqDist, VoxelGridCpu.centerOf, Vector3.lengthSq, Vector3.dot, Vector3.sub,
    Vector3.add, Vector3.multiplyScalar, Vector3.addScalar. simpl.
  rewrite !plus_IZR, !mult_IZR, !minus_IZR. unfold Q2R. simpl. field.
Qed.

Lemma sqDist_nonneg (a b : Z * Z * Z) : (0 <= sqDist a b)%Z.
Proof.
  destruct a as [[x y] z], b as [[x' y'] z']. unfold sqDist.
  pose proof (Z.square_nonneg (x - x')). pose proof (Z.square_nonneg (y - y')).
  pose proof (Z.square_nonneg (z - z')). lia.
Qed.

Lemma sqrt_IZR_1 : sqrt (IZR 1) = 1.
Proof. apply sqrt_1. Qed.

Lemma sqrt_IZR_4 : sqrt (IZR 4) = 2.
Proof. replace (IZR 4) with (2 * 2) by lra. apply sqrt_square. lra. Qed.

Lemma sqrt_IZR_0 : sqrt (IZR 0) = 0.
Proof. apply sqrt_0. Qed.

Lemma sqrt_IZR_gt_1 (n : Z) : (1 < n)%Z -> 1 < sqrt (IZR n).
Proof.
  intros H. rewrite <- sqrt_1 at 1. apply sqrt_lt_1_alt. split; [lra|].
  apply (IZR_lt 1). exact H.
Qed.

Lemma sqrt_3_lt_2 : sqrt 3 < 2.
Proof.
  rewrite <- sqrt_IZR_4. apply sqrt_lt_1_alt. lra.
Qed.

(** Positions of distinct cells differ. *)
Lemma jfPos_eq (i j : nat) : jfPos i = jfPos j -> sqDist (jfCoords i) (jfCoords j) = 0%Z.
Proof.
  intros H. pose proof (jfPos_dist i j) as Hd. rewrite H in Hd.
  rewrite (jfPos_dist j j) in Hd.
  assert (Hjj : sqDist (jfCoords j) (jfCoords j) = 0%Z).
  { destruct (jfCoords j) as [[x y] z]. unfold sqDist. ring. }
  rewrite Hjj, sqrt_IZR_0 in Hd. symmetry in Hd.
  apply sqrt_eq_0 in Hd; [apply eq_IZR; exact Hd|].
  apply (IZR_le 0), sqDist_nonneg.
Qed.

Lemma jfPos_dist_self (i : nat) : Vector3.distanceTo (jfPos i) (jfPos i) = 0.
Proof.
  rewrite jfPos_dist. replace (sqDist (jfCoords i) (jfCoords i)) with 0%Z.
  - apply sqrt_0.
  - destruct (jfCoords i) as [[x y] z]. unfold sqDist. ring.
Qed.

Lemma noSeed_not_holdsSeed : ~ holdsSeed noSeed.
Proof. unfold holdsSeed, noSeed. simpl. lra. Qed.

(** [compose_ix] and [decompose_ix] agree on the cells of the grid. *)
Lemma jf_compose_table (s : Z) :
  forallb (fun x => forallb (fun y => forallb (fun z =>
    let k := compose_ix (uniformsOf jfGrid s) (x, y, z) in
    (0 <=? k)%Z && (k <? 125)%Z &&
    (let '(x', y', z') := decompose_ix (uniformsOf jfGrid s) k in
     (x' =? x)%Z && (y' =? y)%Z && (z' =? z)%Z))
    (range 5)) (range 5)) (range 5) = true.
Proof. vm_compute. reflexivity. Qed.

Lemma jf_compose (s : Z) (n3 : Z * Z * Z) :
  inGrid (uniformsOf jfGrid s) n3 ->
  (Z.to_nat (compose_ix (uniformsOf jfGrid s) n3) < 125)%nat /\
  jfCoords (Z.to_nat (compose_ix (uniformsOf jfGrid s) n3)) = n3.
Proof.
  destruct n3 as [[x y] z]. intros (Hx & Hy & Hz). simpl in Hx, Hy, Hz.
  pose proof (jf_compose_table s) as H.
  rewrite forallb_forall in H. specialize (H x (proj2 (in_range 5 x) Hx)).
  rewrite forallb_forall in H. specialize (H y (proj2 (in_range 5 y) Hy)).
  rewrite forallb_forall in H. specialize (H z (proj2 (in_range 5 z) Hz)).
  cbv zeta in H. apply andb_prop in H as (H1 & H2). apply andb_prop in H1 as (H0 & H1).
  apply Z.leb_le in H0. apply Z.ltb_lt in H1.
  split; [lia|]. unfold jfCoords. rewrite Z2Nat.id by lia.
  change (decompose_ix (uniformsOf jfGrid 0)) with (decompose_ix (uniformsOf jfGrid s)).
  destruct (decompose_ix _ _) as [[x' y'] z'].
  apply andb_prop in H2 as (H2 & H4). apply andb_prop in H2 as (H2 & H3).
  apply Z.eqb_eq in H2, H3, H4. now subst.
Qed.

(** *** One invocation *)

Lemma invocation_length u df0 df inv :
  List.length (jump_flood_invocation u df0 df inv) = List.length df.
Proof.
  destruct inv as [id late]. unfold jump_flood_invocation.
  destruct (df0 !! id); [|reflexivity].
  destruct (Req_dec_T _ 0); [reflexivity|]. apply length_insert.
Qed.

(** A cell after an invocation holds what it held, or it is the cell of
    the invocation and holds the result of its loop. *)
Lemma invocation_lookup u df0 df id late j v :
  jump_flood_invocation u df0 df (id, late) !! j = Some v ->
  df !! j = Some v \/
  (j = id /\ exists sd,
     df0 !! id = Some sd /\ vec4_w sd <> 0 /\
     v = jump_flood_loop u (fun i nix => (if late i then df else df0) !! Z.to_nat nix)
           (decompose_ix u (Z.of_nat id)) (cell_center u (decompose_ix u (Z.of_nat id)))
           sd (imap (fun i o => (i, o)) offsets)).
Proof.
  unfold jump_flood_invocation. destruct (df0 !! id) as [sd|] eqn:Hsd; [|now left].
  destruct (Req_dec_T (vec4_w sd) 0) as [|Hw]; [now left|].
  destruct (decide (id = j)) as [->|Hne].
  - intros H. right. split; [reflexivity|]. exists sd. split; [reflexivity|]. split; [exact Hw|].
    apply list_lookup_insert_Some in H as [(_ & H & _)|(Hc & _)]; [now symmetry|congruence].
  - rewrite list_lookup_insert_ne by exact Hne. now left.
Qed.

Lemma read_good (late : bool) df0 df k nsd :
  jfWellFormed df0 -> jfWellFormed df ->
  (if late then df else df0) !! k = Some nsd -> jfGood k nsd.
Proof. intros (_ & H0 & _) (_ & H & _). destruct late; eauto. Qed.

Lemma read_seed (late : bool) df0 df t :
  jfWellFormed df0 -> jfWellFormed df -> In t jfSeeds ->
  (if late then df else df0) !! t = Some (VVec4 (jfPos t) 0).
Proof. intros (_ & _ & H0) (_ & _ & H). destruct late; eauto. Qed.

Lemma good_holdsSeed k nsd :
  jfGood k nsd -> holdsSeed nsd -> exists t, In t jfSeeds /\ vec4_xyz nsd = jfPos t.
Proof.
  intros [->|(t & Ht & ->)] Hv; [destruct (noSeed_not_holdsSeed Hv)|].
  exists t. split; [exact Ht|reflexivity].
Qed.

Lemma wf_invocation (s : Z) df0 df inv :
  jfWellFormed df0 -> jfWellFormed df ->
  jfWellFormed (jump_flood_invocation (uniformsOf jfGrid s) df0 df inv).
Proof.
  intros H0 H. destruct inv as [id late].
  pose proof H0 as (L0 & G0 & S0). pose proof H as (L & G & S).
  split; [now rewrite invocation_length|]. split.
  - intros j v Hj. apply invocation_lookup in Hj as [Hj|(-> & sd & Hsd & _ & ->)]; [eauto|].
    rewrite jfPos_step, jfCoords_step. apply loop_ind; [eauto|].
    intros i off nsd _ _ Hr Hv.
    destruct (good_holdsSeed _ _ (read_good _ _ _ _ _ H0 H Hr) Hv) as (t & Ht & ->).
    right. exists t. split; [exact Ht|reflexivity].
  - intros t Ht. unfold jump_flood_invocation.
    destruct (df0 !! id) as [sd|] eqn:Hsd; [|auto].
    destruct (Req_dec_T (vec4_w sd) 0) as [|Hw]; [auto|].
    destruct (decide (id = t)) as [->|Hne].
    + rewrite (S0 t Ht) in Hsd. inversion Hsd; subst sd. simpl in Hw. lra.
    + rewrite list_lookup_insert_ne by exact Hne. auto.
Qed.

Lemma odd_add_mul_even (x o s : Z) : Z.even s = true -> Z.odd (x + o * s) = Z.odd x.
Proof.
  intros H. apply Z.even_spec in H as (m & ->).
  replace (x + o * (2 * m))%Z with (x + 2 * (o * m))%Z by ring. apply Z.odd_add_mul_2.
Qed.

Lemma odd3_neighbor (s : Z) (c off : Z * Z * Z) :
  Z.even s = true ->
  odd3 (neighborCoords (uniformsOf jfGrid s) c off) -> odd3 c.
Proof.
  intros Hs. destruct c as [[x y] z], off as [[ox oy] oz]. unfold odd3, neighborCoords.
  simpl. now rewrite !odd_add_mul_even by exact Hs.
Qed.

Lemma read_parity (late : bool) df0 df k nsd :
  jfParity df0 -> jfParity df ->
  (if late then df else df0) !! k = Some nsd ->
  holdsSeed nsd -> vec4_xyz nsd = jfPos 93 -> odd3 (jfCoords k).
Proof. intros H0 H. destruct late; eauto. Qed.

(** In a pass of even step, a cell that takes the seed 93 has three odd
    coordinates, as the cell it takes it from. *)
Lemma parity_invocation (s : Z) df0 df inv :
  Z.even s = true ->
  jfParity df0 -> jfParity df ->
  jfParity (jump_flood_invocation (uniformsOf jfGrid s) df0 df inv).
Proof.
  intros Hs P0 P. destruct inv as [id late]. intros j v Hj.
  apply invocation_lookup in Hj as [Hj|(-> & sd & Hsd & _ & ->)]; [eauto|].
  rewrite jfPos_step, jfCoords_step.
  apply (loop_ind _ _ _ _ (fun v => holdsSeed v -> vec4_xyz v = jfPos 93 -> odd3 (jfCoords id))).
  - eauto.
  - intros i off nsd _ Hg Hr Hv _ Hx. simpl in Hx.
    destruct (jf_compose s _ Hg) as (_ & Hc).
    pose proof (read_parity _ _ _ _ _ P0 P Hr Hv Hx) as Hodd.
    rewrite Hc in Hodd. now apply (odd3_neighbor s _ off).
Qed.

Lemma axis_dist (t : nat) :
  In t jfAxisSeeds -> Vector3.distanceTo (jfPos t) (jfPos 62) = 2.
Proof.
  intros H. rewrite jfPos_dist. rewrite <- sqrt_IZR_4. do 2 f_equal.
  simpl in H. repeat (destruct H as [<-|H]; [reflexivity|]). destruct H.
Qed.

Lemma read_faces (late : bool) df0 df k nsd :
  jfFaces df0 -> jfFaces df -> In k jfFaceCells ->
  (if late then df else df0) !! k = Some nsd ->
  holdsSeed nsd -> vec4_xyz nsd <> jfPos 93.
Proof. intros H0 H. destruct late; eauto. Qed.

(** The step of the centre invariant: every seed that the invocation of cell
    62 can load is one of the six at distance 2. *)
Lemma centre_invocation (s : Z) df0 df inv :
  jfWellFormed df0 -> jfWellFormed df ->
  jfCentre df0 -> jfCentre df ->
  (forall i off nsd (late : bool),
     In (i, off) (imap (fun i o => (i, o)) offsets) ->
     inGrid (uniformsOf jfGrid s) (neighborCoords (uniformsOf jfGrid s) (jfCoords 62) off) ->
     (if late then df else df0)
       !! Z.to_nat (compose_ix (uniformsOf jfGrid s)
                      (neighborCoords (uniformsOf jfGrid s) (jfCoords 62) off)) = Some nsd ->
     holdsSeed nsd -> vec4_xyz nsd <> jfPos 93) ->
  jfCentre (jump_flood_invocation (uniformsOf jfGrid s) df0 df inv).
Proof.
  intros W0 W (sd0 & Hsd0 & J0) (v1 & Hv1 & J1) Hnot. destruct inv as [id late].
  assert (Hlen : (62 < List.length (jump_flood_invocation (uniformsOf jfGrid s) df0 df
                                      (id, late)))%nat).
  { rewrite invocation_length. destruct W as (-> & _). lia. }
  apply lookup_lt_is_Some_2 in Hlen as (v & Hv). exists v. split; [exact Hv|].
  apply invocation_lookup in Hv as [Hv|(<- & sd & Hsd & _ & ->)].
  - rewrite Hv1 in Hv. now inversion Hv; subst.
  - rewrite Hsd0 in Hsd. inversion Hsd; subst sd.
    rewrite jfPos_step, jfCoords_step. apply loop_ind; [exact J0|].
    intros i off nsd Hin Hg Hr Hh.
    destruct (good_holdsSeed _ _ (read_good _ _ _ _ _ W0 W Hr) Hh) as (t & Ht & Hx).
    unfold jfSeeds in Ht. apply in_app_iff in Ht as [Ht|[<-|[]]].
    + right. exists t. split; [exact Ht|]. now rewrite Hx, (axis_dist t Ht).
    + exfalso. exact (Hnot i off nsd (late i) Hin Hg Hr Hh Hx).
Qed.

Lemma centre_invocation_even (s : Z) df0 df inv :
  Z.even s = true ->
  jfWellFormed df0 -> jfWellFormed df -> jfParity df0 -> jfParity df ->
  jfCentre df0 -> jfCentre df ->
  jfCentre (jump_flood_invocation (uniformsOf jfGrid s) df0 df inv).
Proof.
  intros Hs W0 W P0 P C0 C. apply centre_invocation; auto.
  intros i off nsd late _ Hg Hr Hh Hx.
  destruct (jf_compose s _ Hg) as (_ & Hc).
  pose proof (read_parity _ _ _ _ _ P0 P Hr Hh Hx) as Hodd. rewrite Hc in Hodd.
  apply (odd3_neighbor s _ off Hs) in Hodd. unfold odd3 in Hodd. vm_compute in Hodd.
  destruct Hodd as (H & _). discriminate H.
Qed.

Lemma centre_neighbors_last i off :
  In (i, off) (imap (fun i o => (i, o)) offsets) ->
  In (Z.to_nat (compose_ix (uniformsOf jfGrid 1)
                  (neighborCoords (uniformsOf jfGrid 1) (jfCoords 62) off))) jfFaceCells.
Proof.
  simpl. intros H.
  repeat (destruct H as [H|H]; [inversion H; subst; vm_compute; tauto|]). destruct H.
Qed.

Lemma centre_invocation_last df0 df inv :
  jfWellFormed df0 -> jfWellFormed df -> jfFaces df0 -> jfFaces df ->
  jfCentre df0 -> jfCentre df ->
  jfCentre (jump_flood_invocation (uniformsOf jfGrid 1) df0 df inv).
Proof.
  intros W0 W F0 F C0 C. apply centre_invocation; auto.
  intros i off nsd late Hin _ Hr Hh.
  exact (read_faces _ _ _ _ _ F0 F (centre_neighbors_last i off Hin) Hr Hh).
Qed.

(** Each cell next to cell 62 has a seed next to it, at distance 1, and is
    farther than that from the seed 93. *)
Lemma face_table (f : nat) :
  In f jfFaceCells ->
  exists i off t,
    In (i, off) (imap (fun i o => (i, o)) offsets) /\
    inGrid (uniformsOf jfGrid 1) (neighborCoords (uniformsOf jfGrid 1) (jfCoords f) off) /\
    Z.to_nat (compose_ix (uniformsOf jfGrid 1)
                (neighborCoords (uniformsOf jfGrid 1) (jfCoords f) off)) = t /\
    In t jfSeeds /\
    sqDist (jfCoords t) (jfCoords f) = 1%Z /\
    (1 < sqDist (jfCoords 93) (jfCoords f))%Z.
Proof.
  intros H. simpl in H.
  destruct H as [<-|[<-|[<-|[<-|[<-|[<-|[]]]]]]].
  - exists 0%nat, (-1, 0, 0)%Z, 60%nat. vm_compute. intuition (try discriminate; auto).
  - exists 1%nat, (1, 0, 0)%Z, 64%nat. vm_compute. intuition (try discriminate; auto).
  - exists 2%nat, (0, -1, 0)%Z, 52%nat. vm_compute. intuition (try discriminate; auto).
  - exists 3%nat, (0, 1, 0)%Z, 72%nat. vm_compute. intuition (try discriminate; auto).
  - exists 4%nat, (0, 0, -1)%Z, 12%nat. vm_compute. intuition (try discriminate; auto).
  - exists 5%nat, (0, 0, 1)%Z, 112%nat. vm_compute. intuition (try discriminate; auto).
Qed.

(** In the last pass no cell next to cell 62 takes the seed 93: the seed
    next to it is nearer. *)
Lemma faces_invocation df0 df inv :
  jfWellFormed df0 -> jfWellFormed df -> jfFaces df0 -> jfFaces df ->
  jfFaces (jump_flood_invocation (uniformsOf jfGrid 1) df0 df inv).
Proof.
  intros W0 W F0 F. destruct inv as [id late]. intros f v Hf Hlook Hh Hx.
  pose proof (wf_invocation 1 df0 df (id, late) W0 W) as (_ & G' & _).
  pose proof (G' f v Hlook) as Hgood.
  apply invocation_lookup in Hlook as [Hlook|(-> & sd & Hsd & _ & Hv)];
    [exact (F f v Hf Hlook Hh Hx)|].
  destruct Hgood as [->|(t & Ht & Hvt)]; [exact (noSeed_not_holdsSeed Hh)|].
  destruct (face_table id Hf) as (i & off & t' & Hin & Hg & Hk & Ht' & Hd1 & Hd93).
  pose proof (read_seed (late i) df0 df t' W0 W Ht') as Hr. rewrite <- Hk in Hr.
  rewrite jfPos_step, jfCoords_step in Hv.
  assert (Hs : holdsSeed (VVec4 (jfPos t') 0)) by (unfold holdsSeed; simpl; lra).
  pose proof (loop_improves (uniformsOf jfGrid 1) (jfCoords id) (jfPos id)
                (fun i nix => (if late i then df else df0) !! Z.to_nat nix)
                _ i off _ sd Hin Hg Hr Hs) as (_ & Hle).
  rewrite <- Hv in Hle. cbn [vec4_xyz vec4_w] in Hle.
  rewrite Hvt in Hx, Hle. cbn [vec4_xyz vec4_w] in Hx, Hle. rewrite Hx in Hle.
  rewrite Hk in Hle. rewrite !jfPos_dist, Hd1, sqrt_IZR_1 in Hle.
  pose proof (sqrt_IZR_gt_1 _ Hd93). lra.
Qed.

(** *** The passes *)

(** The buffer [df] after the map "df_init". *)
Lemma df_init_cells :
  map_kernel (map_snippet df_init) (uniformsOf jfGrid 0) 125 jfSeedCells
    (replicate 125 (zeroOf Vec4F))
  = imap (fun i vi => if (as_u32 vi >? 0)%Z then VVec4 (jfPos i) 0 else noSeed) jfSeedCells.
Proof. rewrite map_kernel_full by reflexivity. reflexivity. Qed.

Lemma jfSeedCells_lookup (i : nat) (vi : value) :
  jfSeedCells !! i = Some vi ->
  (i < 125)%nat /\ vi = VU32 (if bool_decide (i ∈ jfSeeds) then 1 else 0).
Proof.
  unfold jfSeedCells. intros H.
  change (List.map ?f ?l) with (f <$> l) in H.
  rewrite list_lookup_fmap in H.
  destruct (seq 0 125 !! i) as [k|] eqn:Hk; [|discriminate].
  apply lookup_seq in Hk as (-> & Hlt). simpl in H. inversion H. split; [exact Hlt|reflexivity].
Qed.

Lemma df_init_lookup (i : nat) (v : value) :
  imap (fun i vi => if (as_u32 vi >? 0)%Z then VVec4 (jfPos i) 0 else noSeed) jfSeedCells
    !! i = Some v ->
  (In i jfSeeds /\ v = VVec4 (jfPos i) 0) \/ (~ In i jfSeeds /\ v = noSeed).
Proof.
  rewrite list_lookup_imap. destruct (jfSeedCells !! i) as [vi|] eqn:Hvi; [|discriminate].
  apply jfSeedCells_lookup in Hvi as (_ & ->). cbn [option_map fmap option_fmap].
  destruct (bool_decide_reflect (i ∈ jfSeeds)) as [Hin|Hout]; intros H.
  - left. split; [now apply list_elem_of_In|]. cbn in H. now inversion H.
  - right. split; [now rewrite <- list_elem_of_In|]. cbn in H. now inversion H.
Qed.

Lemma df_init_invariants :
  let df := imap (fun i vi => if (as_u32 vi >? 0)%Z then VVec4 (jfPos i) 0 else noSeed)
              jfSeedCells in
  jfWellFormed df /\ jfParity df /\ jfCentre df.
Proof.
  intros df. split; [|split].
  - split; [reflexivity|]. split.
    + intros i v Hv. apply df_init_lookup in Hv as [(Hin & ->)|(_ & ->)].
      * right. exists i. split; [exact Hin|]. now rewrite jfPos_dist_self.
      * now left.
    + intros t Ht. simpl in Ht.
      repeat (destruct Ht as [<-|Ht]; [reflexivity|]). destruct Ht.
  - intros i v Hv Hh Hx. apply df_init_lookup in Hv as [(Hin & ->)|(_ & ->)].
    + simpl in Hx. apply jfPos_eq in Hx. simpl in Hin.
      repeat (destruct Hin as [<-|Hin]; [try (vm_compute in Hx; discriminate Hx)|]).
      * vm_compute. tauto.
      * destruct Hin.
    + destruct (noSeed_not_holdsSeed Hh).
  - exists noSeed. split; [reflexivity|now left].
Qed.

Lemma parity_faces df : jfParity df -> jfFaces df.
Proof.
  intros P f v Hf Hv Hh Hx. pose proof (P f v Hv Hh Hx) as Hodd.
  simpl in Hf. unfold odd3 in Hodd.
  repeat (destruct Hf as [<-|Hf];
          [vm_compute in Hodd; destruct Hodd as (H1 & H2 & H3); discriminate|]).
  destruct Hf.
Qed.

Lemma pass_even (s : Z) (sched : Schedule) df0 :
  Z.even s = true ->
  jfWellFormed df0 /\ jfParity df0 /\ jfCentre df0 ->
  let df := jump_flood_kernel (uniformsOf jfGrid s) sched df0 in
  jfWellFormed df /\ jfParity df /\ jfCentre df.
Proof.
  intros Hs (W0 & P0 & C0).
  apply (kernel_invariant _ _ _ (fun df => jfWellFormed df /\ jfParity df /\ jfCentre df)).
  - auto.
  - intros df inv (W & P & C). split; [|split].
    + now apply wf_invocation.
    + now apply parity_invocation.
    + now apply centre_invocation_even.
Qed.

Lemma pass_last (sched : Schedule) df0 :
  jfWellFormed df0 /\ jfFaces df0 /\ jfCentre df0 ->
  let df := jump_flood_kernel (uniformsOf jfGrid 1) sched df0 in
  jfWellFormed df /\ jfFaces df /\ jfCentre df.
Proof.
  intros (W0 & F0 & C0).
  apply (kernel_invariant _ _ _ (fun df => jfWellFormed df /\ jfFaces df /\ jfCentre df)).
  - auto.
  - intros df inv (W & F & C). split; [|split].
    + now apply wf_invocation.
    + now apply faces_invocation.
    + now apply centre_invocation_last.
Qed.

(** Whatever the schedules of the three passes, [distField] leaves 2 or the
    mark -1 at cell 62. *)
Lemma distFieldCells_centre (scheds : nat -> Schedule) :
  let out := distFieldCells scheds jfGrid jfSeedCells (replicate 125 (VF32 0)) in
  out !! 62%nat = Some (VF32 2) \/ out !! 62%nat = Some (VF32 (-1)).
Proof.
  unfold distFieldCells.
  change (p_numX jfGrid * p_numY jfGrid * p_numZ jfGrid)%Z with 125%Z.
  change (Z.to_nat (Z.log2_up (Z.max (Z.max (p_numX jfGrid) (p_numY jfGrid)) (p_numZ jfGrid))))
    with 3%nat.
  change (Z.to_nat 125) with 125%nat.
  rewrite df_init_cells. cbn [jumpFloodCells].
  change (2 ^ (Z.of_nat 3 - Z.of_nat 0 - 1))%Z with 4%Z.
  change (2 ^ (Z.of_nat 3 - Z.of_nat 1 - 1))%Z with 2%Z.
  change (2 ^ (Z.of_nat 3 - Z.of_nat 2 - 1))%Z with 1%Z.
  pose proof df_init_invariants as H0. cbv zeta in H0.
  pose proof (pass_even 4 (scheds 0%nat) _ eq_refl H0) as H1. cbv zeta in H1.
  pose proof (pass_even 2 (scheds 1%nat) _ eq_refl H1) as (W2 & P2 & C2).
  pose proof (pass_last (scheds 2%nat) _ (conj W2 (conj (parity_faces _ P2) C2)))
    as (W3 & _ & C3).
  cbv zeta in W3, C3.
  match goal with |- context [map_kernel _ _ _ ?d _] => set (df3 := d) in * end.
  rewrite map_kernel_full; [|destruct W3 as (-> & _); reflexivity|reflexivity].
  rewrite list_lookup_imap. destruct C3 as (v & -> & [->|(t & _ & ->)]); simpl; auto.
Qed.

(** C2.  On the grid of 5 x 5 x 5 cells of side 1 with the seven seeds above,
    [distField] returns normally and, whatever the schedules under which the
    device runs the three passes, the output cell 62, that is (2, 2, 2),
    holds 2 or the mark -1: never the distance from its centre to the centre
    of the nearest seed, the seed cell 93, that is (3, 3, 3), which is
    [sqrt 3] (no seed is nearer).  A cell takes a seed from its six axis neighbours only, and
    each neighbour of (2, 2, 2) keeps the seed next to it. *)
Theorem distField_misses_nearest_seed (scheds : nat -> Schedule) :
  exists s' out,
    distField scheds 0 1
      (deviceWith [(unitGrid 5 5 5 U32, jfSeedCells);
                   (unitGrid 5 5 5 F32, replicate 125 (VF32 0))]) = (Ok tt, s') /\
    cellsOf s' 1 = Some out /\
    (out !! 62%nat = Some (VF32 2) \/ out !! 62%nat = Some (VF32 (-1))) /\
    jfSeedCells !! 93%nat = Some (VU32 1) /\
    Vector3.distanceTo (jfCenter 62) (jfCenter 93) = sqrt 3 /\
    (forall t, In t jfSeeds ->
       sqrt 3 <= Vector3.distanceTo (jfCenter 62) (jfCenter t)) /\
    -1 < sqrt 3 < 2.
Proof.
  destruct (distField_run scheds
              (deviceWith [(unitGrid 5 5 5 U32, jfSeedCells);
                           (unitGrid 5 5 5 F32, replicate 125 (VF32 0))])
              0 1
              (VoxelGridGpu.mk 1 5 5 5 Vector3.zero U32 (Some 0%nat))
              (VoxelGridGpu.mk 1 5 5 5 Vector3.zero F32 (Some 1%nat))
              0 1 (mkBuffer 500 jfSeedCells) (mkBuffer 500 (replicate 125 (VF32 0))))
    as (s' & Hrun & Hout); try reflexivity; try lia.
  { unfold sameGeometry. simpl. tauto. }
  exists s', (distFieldCells scheds jfGrid jfSeedCells (replicate 125 (VF32 0))).
  split; [exact Hrun|]. split; [exact Hout|].
  split; [apply distFieldCells_centre|]. split; [reflexivity|]. split.
  - rewrite jfCenter_dist. reflexivity.
  - split.
    + intros t Ht. rewrite jfCenter_dist. apply sqrt_le_1_alt, IZR_le.
      simpl in Ht. repeat (destruct Ht as [<-|Ht]; [vm_compute; discriminate|]).
      destruct Ht.
    + pose proof (sqrt_pos 3). pose proof sqrt_3_lt_2. lra.
Qed.

(** *** Other seed grids *)

Lemma invocation_noSeed u df0 df inv (n : nat) :
  df0 = replicate n noSeed -> df = replicate n noSeed ->
  jump_flood_invocation u df0 df inv = replicate n noSeed.
Proof.
  intros -> ->. destruct inv as [id late]. unfold jump_flood_invocation.
  destruct (replicate n noSeed !! id) as [sd|] eqn:Hsd; [|reflexivity].
  destruct (Req_dec_T (vec4_w sd) 0); [reflexivity|].
  apply lookup_replicate in Hsd as (-> & Hlt).
  apply list_eq. intros j.
  destruct (decide (id = j)) as [<-|Hne].
  - rewrite list_lookup_insert_eq by now rewrite length_replicate.
    rewrite lookup_replicate_2 by exact Hlt. f_equal.
    apply loop_ind; [reflexivity|].
    intros i off nsd _ _ Hr Hv. exfalso.
    assert (nsd = noSeed) as ->.
    { destruct (late i); apply lookup_replicate in Hr; tauto. }
    now apply noSeed_not_holdsSeed.
  - now rewrite list_lookup_insert_ne.
Qed.

Lemma jumpFloodCells_noSeed scheds grid numPass count (n : nat) :
  forall pass,
    jumpFloodCells scheds grid numPass count pass (replicate n noSeed) = replicate n noSeed.
Proof.
  induction count as [|count IH]; intros pass; simpl; [reflexivity|].
  rewrite <- (IH (S pass)) at 2. f_equal.
  apply (kernel_invariant _ _ _ (fun df => df = replicate n noSeed)); [reflexivity|].
  intros df inv ->. now apply invocation_noSeed.
Qed.

(** With no positive seed cell, whatever the schedules, every output cell of
    [distField] is the mark -1. *)
Lemma distFieldCells_no_seed (scheds : nat -> Schedule) (grid : GridParams)
    (seed dist : list value) :
  let n := Z.to_nat (p_numX grid * p_numY grid * p_numZ grid) in
  List.length seed = n -> List.length dist = n ->
  Forall (fun vi => (as_u32 vi <= 0)%Z) seed ->
  distFieldCells scheds grid seed dist = replicate n (VF32 (-1)).
Proof.
  intros n Hs Hd Hz. unfold distFieldCells. fold n.
  rewrite (map_kernel_full _ _ _ seed) by (exact Hs || now rewrite length_replicate).
  assert (imap (fun i vi => map_snippet df_init
                   (cell_center (uniformsOf grid 0)
                      (decompose_ix (uniformsOf grid 0) (Z.of_nat i))) vi) seed
          = replicate n noSeed) as ->.
  { apply list_eq. intros i. rewrite list_lookup_imap.
    destruct (seed !! i) as [vi|] eqn:Hvi; simpl.
    - rewrite lookup_replicate_2 by (rewrite <- Hs; eapply lookup_lt_Some; eauto).
      f_equal. rewrite List.Forall_forall in Hz.
      assert (as_u32 vi <= 0)%Z as H by (apply Hz; eapply list_elem_of_In, list_elem_of_lookup_2; eauto).
      destruct (Z.gtb_spec (as_u32 vi) 0); [lia|reflexivity].
    - symmetry. apply lookup_ge_None. rewrite length_replicate.
      apply lookup_ge_None in Hvi. lia. }
  rewrite jumpFloodCells_noSeed.
  rewrite map_kernel_full by (exact Hd || now rewrite length_replicate).
  apply list_eq. intros i. rewrite list_lookup_imap.
  destruct (replicate n noSeed !! i) as [v|] eqn:Hv; simpl.
  - apply lookup_replicate in Hv as (-> & Hlt). now rewrite lookup_replicate_2.
  - symmetry. apply lookup_ge_None. rewrite length_replicate.
    apply lookup_ge_None in Hv. now rewrite length_replicate in Hv.
Qed.

Lemma kernel_invariant_in (u : Uniforms) (sched : Schedule) (df0 : list value)
    (P : list value -> Prop) :
  P df0 ->
  (forall df inv, In inv sched -> P df -> P (jump_flood_invocation u df0 df inv)) ->
  P (jump_flood_kernel u sched df0).
Proof.
  intros H0 Hstep. unfold jump_flood_kernel.
  assert (forall df, P df -> P (fold_left (jump_flood_invocation u df0) sched df)) as H.
  { induction sched as [|inv sched IH]; intros df Hdf; simpl; [exact Hdf|].
    apply IH.
    - intros df' inv' Hin. apply Hstep. now right.
    - apply Hstep; [now left|exact Hdf]. }
  now apply H.
Qed.

Lemma cube_compose_table :
  forallb (fun x => forallb (fun y => forallb (fun z =>
    let k := compose_ix (uniformsOf (cubeGrid 1) 0) (x, y, z) in
    (0 <=? k)%Z && (k <? 512)%Z &&
    (let '(x', y', z') := decompose_ix (uniformsOf (cubeGrid 1) 0) k in
     (x' =? x)%Z && (y' =? y)%Z && (z' =? z)%Z))
    (range 8)) (range 8)) (range 8) = true.
Proof. vm_compute. reflexivity. Qed.

Lemma cube_compose (res : R) (s : Z) (n3 : Z * Z * Z) :
  inGrid (uniformsOf (cubeGrid res) s) n3 ->
  cubeCoords (Z.to_nat (compose_ix (uniformsOf (cubeGrid res) s) n3)) = n3.
Proof.
  destruct n3 as [[x y] z]. intros (Hx & Hy & Hz). simpl in Hx, Hy, Hz.
  pose proof cube_compose_table as H.
  rewrite forallb_forall in H. specialize (H x (proj2 (in_range 8 x) Hx)).
  rewrite forallb_forall in H. specialize (H y (proj2 (in_range 8 y) Hy)).
  rewrite forallb_forall in H. specialize (H z (proj2 (in_range 8 z) Hz)).
  cbv zeta in H. apply andb_prop in H as (H1 & H2). apply andb_prop in H1 as (H0 & H1).
  apply Z.leb_le in H0. apply Z.ltb_lt in H1.
  change (compose_ix (uniformsOf (cubeGrid res) s)) with (compose_ix (uniformsOf (cubeGrid 1) 0)).
  unfold cubeCoords. rewrite Z2Nat.id by lia.
  destruct (decompose_ix _ _) as [[x' y'] z'].
  apply andb_prop in H2 as (H2 & H4). apply andb_prop in H2 as (H2 & H3).
  apply Z.eqb_eq in H2, H3, H4. now subst.
Qed.

(** A cell and the neighbour it takes a seed from differ by the step in one
    coordinate. *)
Lemma coordSum_neighbor (u : Uniforms) (c : Z * Z * Z) (i : nat) (off : Z * Z * Z) :
  (0 <= nums_w u)%Z ->
  In (i, off) (imap (fun i o => (i, o)) offsets) ->
  (coordSum c <= coordSum (neighborCoords u c off) + nums_w u)%Z.
Proof.
  intros Hs Hin. destruct c as [[x y] z]. simpl in Hin.
  repeat (destruct Hin as [Heq|Hin]; [inversion Heq; subst; simpl; lia|]). destruct Hin.
Qed.

Lemma cube_invocation (res : R) (s b : Z) df0 df inv :
  (0 <= s)%Z -> (forall i, snd inv i = false) ->
  cubeWithin b df0 -> cubeWithin (b + s) df ->
  cubeWithin (b + s) (jump_flood_invocation (uniformsOf (cubeGrid res) s) df0 df inv).
Proof.
  intros Hs Hlate (L0 & W0) (L & W). destruct inv as [id late]. simpl in Hlate.
  split; [now rewrite invocation_length|].
  intros j v Hj. apply invocation_lookup in Hj as [Hj|(-> & sd & Hsd & _ & ->)]; [eauto|].
  apply loop_ind.
  - destruct (W0 _ _ Hsd) as [->|H]; [now left|right; lia].
  - intros i off nsd Hin Hg Hr Hv. right.
    rewrite Hlate in Hr.
    destruct (W0 _ _ Hr) as [->|Hb]; [destruct (noSeed_not_holdsSeed Hv)|].
    rewrite (cube_compose res s _ Hg) in Hb.
    pose proof (coordSum_neighbor (uniformsOf (cubeGrid res) s)
                  (decompose_ix (uniformsOf (cubeGrid res) s) (Z.of_nat id)) i off Hs Hin) as Hn.
    change (decompose_ix (uniformsOf (cubeGrid res) s) (Z.of_nat id)) with (cubeCoords id) in *.
    change (nums_w (uniformsOf (cubeGrid res) s)) with s in Hn. lia.
Qed.

Lemma cube_pass (res : R) (s b : Z) (sched : Schedule) df0 :
  (0 <= s)%Z -> loadsFirst sched -> cubeWithin b df0 ->
  cubeWithin (b + s) (jump_flood_kernel (uniformsOf (cubeGrid res) s) sched df0).
Proof.
  intros Hs Hl H0. apply kernel_invariant_in.
  - destruct H0 as (L0 & W0). split; [exact L0|].
    intros i v Hi. destruct (W0 _ _ Hi); [now left|right; lia].
  - intros df inv Hin. apply cube_invocation; [exact Hs| |exact H0].
    unfold loadsFirst in Hl. rewrite List.Forall_forall in Hl. now apply Hl.
Qed.

Lemma cube_init (res : R) :
  cubeWithin 0
    (map_kernel (map_snippet df_init) (uniformsOf (cubeGrid res) 0) 512 cubeSeedCells
       (replicate 512 (zeroOf Vec4F))).
Proof.
  rewrite map_kernel_full by reflexivity.
  split; [now rewrite length_imap|].
  intros i v. rewrite list_lookup_imap. destruct i as [|i].
  - intros _. right. reflexivity.
  - unfold cubeSeedCells. rewrite lookup_cons_ne_0 by discriminate.
    destruct (replicate 511 (VU32 0) !! _) as [vi|] eqn:Hvi; [|discriminate].
    apply lookup_replicate in Hvi as (-> & _). simpl. intros H. inversion H. now left.
Qed.

(** The 8 x 8 x 8 grid with the one seed (0, 0, 0): when in each pass the
    invocations all load before any of them stores, the three passes carry
    the seed over 4 + 2 + 1 cells along the axes at most, and the output
    cell (7, 7, 7) is left at the mark -1. *)
Lemma distFieldCells_cube_loads_first (res : R) (scheds : nat -> Schedule)
    (dist : list value) :
  (forall pass, loadsFirst (scheds pass)) ->
  List.length dist = 512%nat ->
  distFieldCells scheds (cubeGrid res) cubeSeedCells dist !! 511%nat = Some (VF32 (-1)).
Proof.
  intros Hl Hd. unfold distFieldCells.
  change (p_numX (cubeGrid res) * p_numY (cubeGrid res) * p_numZ (cubeGrid res))%Z with 512%Z.
  change (Z.to_nat (Z.log2_up (Z.max (Z.max (p_numX (cubeGrid res)) (p_numY (cubeGrid res)))
                                 (p_numZ (cubeGrid res))))) with 3%nat.
  change (Z.to_nat 512) with 512%nat.
  cbn [jumpFloodCells].
  change (2 ^ (Z.of_nat 3 - Z.of_nat 0 - 1))%Z with 4%Z.
  change (2 ^ (Z.of_nat 3 - Z.of_nat 1 - 1))%Z with 2%Z.
  change (2 ^ (Z.of_nat 3 - Z.of_nat 2 - 1))%Z with 1%Z.
  pose proof (cube_init res) as H0.
  pose proof (cube_pass res 4 _ (scheds 0%nat) _ ltac:(lia) (Hl _) H0) as H1.
  pose proof (cube_pass res 2 _ (scheds 1%nat) _ ltac:(lia) (Hl _) H1) as H2.
  pose proof (cube_pass res 1 _ (scheds 2%nat) _ ltac:(lia) (Hl _) H2) as (L3 & W3).
  match goal with |- context [map_kernel _ _ _ ?d _] => set (df3 := d) in * end.
  rewrite map_kernel_full; [|exact L3|exact Hd].
  rewrite list_lookup_imap.
  destruct (df3 !! 511%nat) as [v|] eqn:Hv.
  - destruct (W3 _ _ Hv) as [->|Hb]; [reflexivity|].
    exfalso. vm_compute in Hb. now apply Hb.
  - apply lookup_ge_None in Hv. lia.
Qed.

(** * Further properties of the code *)

(** ** The host grid *)

Lemma inBounds_lookup {E} (vg : Grid E) ix iy iz :
  wellSized vg -> inBounds vg (ix, iy, iz) ->
  is_Some (VoxelGridCpu.get vg ix iy iz).
Proof.
  intros Hw Hb. pose proof (index_range vg ix iy iz Hb) as Hr.
  unfold VoxelGridCpu.get. destruct (Z.leb_spec 0 (VoxelGridCpu.index vg ix iy iz)); [|lia].
  apply lookup_lt_is_Some. unfold wellSized in Hw. lia.
Qed.

(** X1.  On a grid whose typed array has [numX * numY * numZ] cells, a cell
    inside the grid read after [set] holds the value set if it is the cell
    set, and what it held otherwise; such a read is never [undefined]. *)
Theorem set_then_get {E} (vg : Grid E) (ix iy iz ix' iy' iz' : Z) (val : E) :
  wellSized vg -> inBounds vg (ix, iy, iz) -> inBounds vg (ix', iy', iz') ->
  VoxelGridCpu.get (VoxelGridCpu.set vg ix iy iz val) ix' iy' iz'
  = (if decide ((ix, iy, iz) = (ix', iy', iz')) then Some val
     else VoxelGridCpu.get vg ix' iy' iz') /\
  is_Some (VoxelGridCpu.get vg ix' iy' iz').
Proof.
  intros Hw Hb Hb'. split; [|now apply inBounds_lookup].
  destruct (decide _) as [Heq|Hne].
  - inversion Heq; subst. now apply get_set_eq.
  - now apply get_set_ne.
Qed.

Lemma set_then_get_witness :
  let vg : Grid Z := VoxelGridCpu.mk 1 2 1 1 Vector3.zero [5; 7]%Z in
  wellSized vg /\ inBounds vg (1, 0, 0)%Z /\ inBounds vg (0, 0, 0)%Z /\
  VoxelGridCpu.get (VoxelGridCpu.set vg 1 0 0 9%Z) 0 0 0 = Some 5%Z.
Proof.
  intros vg.
  assert (Hw : wellSized vg) by reflexivity.
  assert (H1 : inBounds vg (1, 0, 0)%Z) by (simpl; lia).
  assert (H0 : inBounds vg (0, 0, 0)%Z) by (simpl; lia).
  split; [exact Hw|]. split; [exact H1|]. split; [exact H0|].
  exact (proj1 (set_then_get vg 1 0 0 0 0 0 9%Z Hw H1 H0)).
Defined.



(** *** Counting *)

Lemma count_fold (l : list Z) (acc : Z) :
  fold_left (fun cnt d => if (d =? 0)%Z then cnt else (cnt + 1)%Z) l acc
  = (acc + Z.of_nat (List.length (List.filter (fun d => negb (d =? 0)%Z) l)))%Z.
Proof.
  revert acc. induction l as [|d l IH]; intros acc; simpl; [lia|].
  rewrite IH. destruct (d =? 0)%Z; simpl; lia.
Qed.

Lemma countIf_fold (f : Z -> bool) (l : list Z) (acc : Z) :
  fold_left (fun cnt d => if f d then (cnt + 1)%Z else cnt) l acc
  = (acc + Z.of_nat (List.length (List.filter f l)))%Z.
Proof.
  revert acc. induction l as [|d l IH]; intros acc; simpl; [lia|].
  rewrite IH. destruct (f d); simpl; lia.
Qed.

Lemma filter_length_all {A} (f : A -> bool) (l : list A) :
  List.length (List.filter f l) = List.length l <-> (forall d, In d l -> f d = true).
Proof.
  induction l as [|d l IH]; simpl; [tauto|].
  pose proof (List.filter_length_le f l) as Hle.
  destruct (f d) eqn:Hd; simpl.
  - split.
    + intros H d' [<-|Hin]; [exact Hd|]. apply IH; [lia|exact Hin].
    + intros H. f_equal. apply IH. auto.
  - split; [lia|]. intros H. specialize (H d (or_introl eq_refl)). congruence.
Qed.




(** X4.  [count ()] and [countEq (0)] split the cells of the typed array,
    [countEq] and [countLessThan] are between 0 and the number of cells, and
    [countLessThan] grows with its argument. *)
Theorem count_partition (vg : Grid Z) :
  let n := Z.of_nat (List.length (VoxelGridCpu.data vg)) in
  (VoxelGridCpu.count vg + VoxelGridCpu.countEq vg 0 = n)%Z /\
  (forall val, 0 <= VoxelGridCpu.countEq vg val <= n)%Z /\
  (forall val, 0 <= VoxelGridCpu.countLessThan vg val <= n)%Z /\
  (forall val, VoxelGridCpu.countEq vg val
               = VoxelGridCpu.countLessThan vg (val + 1) - VoxelGridCpu.countLessThan vg val)%Z.
Proof.
  intros n. unfold n, VoxelGridCpu.count, VoxelGridCpu.countEq, VoxelGridCpu.countLessThan.
  generalize (VoxelGridCpu.data vg) as l. intros l.
  split; [|split; [|split]].
  - rewrite count_fold, (countIf_fold (fun d => (d =? 0)%Z)).
    induction l as [|d l IH]; simpl; [reflexivity|].
    destruct (d =? 0)%Z; simpl; lia.
  - intros val. rewrite (countIf_fold (fun d => (d =? val)%Z)).
    pose proof (List.filter_length_le (fun d => (d =? val)%Z) l). lia.
  - intros val. rewrite (countIf_fold (fun d => (d <? val)%Z)).
    pose proof (List.filter_length_le (fun d => (d <? val)%Z) l). lia.
  - intros val. rewrite (countIf_fold (fun d => (d =? val)%Z)),
      (countIf_fold (fun d => (d <? val + 1)%Z)), (countIf_fold (fun d => (d <? val)%Z)).
    induction l as [|d l IH]; simpl; [reflexivity|].
    destruct (Z.eqb_spec d val), (Z.ltb_spec d (val + 1)), (Z.ltb_spec d val); simpl; lia.
Qed.

(** *** [max] *)

Lemma max_fold (l : list Z) : forall (acc : option Z),
  let r := fold_left (fun max d =>
               match max with
               | None => Some d
               | Some m => if (d >? m)%Z then Some d else Some m
               end) l acc in
  (r = None <-> acc = None /\ l = []) /\
  (forall m, r = Some m ->
     (acc = Some m \/ In m l) /\
     (forall a, acc = Some a -> (a <= m)%Z) /\
     (forall d, In d l -> (d <= m)%Z)).
Proof.
  induction l as [|d l IH]; intros acc; simpl.
  - split; [tauto|]. intros m ->. split; [now left|]. split; [|tauto].
    intros a Ha. inversion Ha. lia.
  - destruct (IH (match acc with
                  | None => Some d
                  | Some m => if (d >? m)%Z then Some d else Some m
                  end)) as (Hn & Hs).
    split.
    + split; [|intros (_ & H); discriminate].
      intros H. apply Hn in H as (H & _). destruct acc as [a|]; [|discriminate].
      destruct (d >? a)%Z; discriminate.
    + intros m Hm. destruct (Hs m Hm) as (Hin & Hacc & Hl).
      destruct acc as [a|].
      * destruct (Z.gtb_spec d a).
        -- split; [destruct Hin as [Hin|Hin]; [inversion Hin; auto|auto]|].
           pose proof (Hacc d eq_refl).
           split; [intros a' Ha'; inversion Ha'; lia|].
           intros d' [<-|Hd]; [lia|auto].
        -- split; [destruct Hin as [Hin|Hin]; auto|].
           pose proof (Hacc a eq_refl).
           split; [intros a' Ha'; inversion Ha'; lia|].
           intros d' [<-|Hd]; [lia|auto].
      * split; [destruct Hin as [Hin|Hin]; [inversion Hin; auto|auto]|].
        pose proof (Hacc d eq_refl).
        split; [discriminate|]. intros d' [<-|Hd]; [lia|auto].
Qed.

(** X5.  [max ()] is [-Infinity] exactly on a grid without cells; otherwise
    it is the value of a cell and no cell exceeds it; and [countLessThan]
    counts every cell exactly for the arguments above it. *)
Theorem max_is_greatest (vg : Grid Z) :
  (VoxelGridCpu.max vg = None <-> VoxelGridCpu.data vg = []) /\
  (forall m, VoxelGridCpu.max vg = Some m ->
     In m (VoxelGridCpu.data vg) /\ forall d, In d (VoxelGridCpu.data vg) -> (d <= m)%Z) /\
  (forall val,
     VoxelGridCpu.countLessThan vg val = Z.of_nat (List.length (VoxelGridCpu.data vg)) <->
     forall m, VoxelGridCpu.max vg = Some m -> (m < val)%Z).
Proof.
  unfold VoxelGridCpu.max, VoxelGridCpu.countLessThan.
  generalize (VoxelGridCpu.data vg) as l. intros l.
  destruct (max_fold l None) as (Hn & Hs). cbv zeta in Hn, Hs.
  split; [|split].
  - rewrite Hn. tauto.
  - intros m Hm. destruct (Hs m Hm) as ([Hin|Hin] & _ & Hl); [discriminate|]. auto.
  - intros val. rewrite (countIf_fold (fun d => (d <? val)%Z)), Z.add_0_l.
    rewrite Nat2Z.inj_iff, filter_length_all. split.
    + intros H m Hm. destruct (Hs m Hm) as ([Hin|Hin] & _ & _); [discriminate|].
      apply H in Hin. now apply Z.ltb_lt.
    + intros H d Hd. apply Z.ltb_lt.
      destruct (fold_left _ l None) as [m|].
      * destruct (Hs m eq_refl) as (_ & _ & Hl). specialize (H m eq_refl).
        specialize (Hl d Hd). lia.
      * destruct (proj1 Hn eq_refl) as (_ & ->). destruct Hd.
Qed.

Section HostFacts.
Context {E : Type}.
Implicit Types (vg g : Grid E).

Lemma candidates_geometry vg g (sdf : Sdf) (offset : R) :
  sameShape vg g -> candidates g sdf offset = candidates vg sdf offset.
Proof.
  destruct vg, g. unfold sameShape. simpl. intros (-> & -> & -> & -> & -> & _). reflexivity.
Qed.

Lemma roundOffset_geometry vg g (roundMode : string) :
  sameShape vg g -> roundOffset g roundMode = roundOffset vg roundMode.
Proof.
  destruct vg, g. unfold sameShape. simpl. intros (-> & _). reflexivity.
Qed.

(** A cell that holds [val], or lies outside the typed array, is left as it
    is by [set]. *)
Lemma set_same g ix iy iz val :
  VoxelGridCpu.get g ix iy iz = Some val \/ VoxelGridCpu.get g ix iy iz = None ->
  VoxelGridCpu.set g ix iy iz val = g.
Proof.
  unfold VoxelGridCpu.get, VoxelGridCpu.set.
  destruct (0 <=? VoxelGridCpu.index g ix iy iz)%Z; [|reflexivity].
  intros [H|H].
  - rewrite list_insert_id by exact H. now destruct g.
  - apply lookup_ge_None in H. rewrite list_insert_ge by exact H. now destruct g.
Qed.

Lemma get_after_set g ix iy iz ix' iy' iz' val :
  VoxelGridCpu.get g ix' iy' iz' = Some val \/ VoxelGridCpu.get g ix' iy' iz' = None
  \/ (ix, iy, iz) = (ix', iy', iz') ->
  VoxelGridCpu.get (VoxelGridCpu.set g ix iy iz val) ix' iy' iz' = Some val \/
  VoxelGridCpu.get (VoxelGridCpu.set g ix iy iz val) ix' iy' iz' = None.
Proof.
  intros H.
  pose proof (index_sameShape g _ ix' iy' iz' (set_sameShape g ix iy iz val)) as Hi.
  unfold VoxelGridCpu.get in *. rewrite Hi. unfold VoxelGridCpu.set.
  destruct (Z.leb_spec 0 (VoxelGridCpu.index g ix' iy' iz')) as [H0'|]; [|now right].
  destruct (Z.leb_spec 0 (VoxelGridCpu.index g ix iy iz)) as [H0|Hneg].
  - cbn [VoxelGridCpu.data].
    destruct (decide (Z.to_nat (VoxelGridCpu.index g ix iy iz)
                      = Z.to_nat (VoxelGridCpu.index g ix' iy' iz'))) as [Heq|Hne].
    + rewrite Heq.
      destruct (decide (Z.to_nat (VoxelGridCpu.index g ix' iy' iz')
                        < List.length (VoxelGridCpu.data g))%nat) as [Hlt|Hge].
      * left. now apply list_lookup_insert_eq.
      * right. apply lookup_ge_None. rewrite length_insert. lia.
    + rewrite list_lookup_insert_ne by exact Hne.
      destruct H as [H|[H|H]]; [now left|now right|].
      inversion H; subst. congruence.
  - destruct H as [H|[H|H]]; [now left|now right|].
    inversion H; subst. lia.
Qed.

(** Filling the cells of a list twice is filling them once. *)
Lemma fold_set_twice (val : E) (l : list (Z * Z * Z)) :
  forall g,
    let F := fun g c => let '(ix, iy, iz) := c in VoxelGridCpu.set g ix iy iz val in
    fold_left F l (fold_left F l g) = fold_left F l g.
Proof.
  intros g F.
  assert (Hkeep : forall l' g' c,
            (let '(ix, iy, iz) := c in
             VoxelGridCpu.get g' ix iy iz = Some val \/ VoxelGridCpu.get g' ix iy iz = None) ->
            let '(ix, iy, iz) := c in
            VoxelGridCpu.get (fold_left F l' g') ix iy iz = Some val \/
            VoxelGridCpu.get (fold_left F l' g') ix iy iz = None).
  { induction l' as [|[[ax ay] az] l' IH]; intros g' [[ix iy] iz] H; simpl; [exact H|].
    apply (IH _ (ix, iy, iz)). apply get_after_set. tauto. }
  assert (Hall : forall l' g' c, In c l' ->
            let '(ix, iy, iz) := c in
            VoxelGridCpu.get (fold_left F l' g') ix iy iz = Some val \/
            VoxelGridCpu.get (fold_left F l' g') ix iy iz = None).
  { induction l' as [|[[ax ay] az] l' IH]; intros g' [[ix iy] iz] Hin; [destruct Hin|].
    simpl. destruct Hin as [Heq|Hin].
    - apply (Hkeep l' _ (ix, iy, iz)). apply get_after_set. right. right. exact Heq.
    - apply (IH _ (ix, iy, iz) Hin). }
  set (G := fold_left F l g).
  assert (Hid : forall l', incl l' l -> fold_left F l' G = G).
  { induction l' as [|[[ax ay] az] l' IH]; intros Hincl; simpl; [reflexivity|].
    rewrite set_same.
    - apply IH. intros c Hc. apply Hincl. now right.
    - apply (Hall l g (ax, ay, az)). apply Hincl. now left. }
  apply Hid, incl_refl.
Qed.

(** X6.  [fillShape] is idempotent: applied to its own result with the same
    shape, value and round mode, it returns that result. *)
Theorem fillShape_idempotent vg vg' (shape : Shape) (val : E) (roundMode : string) :
  fillShape vg shape val roundMode = Ok vg' ->
  fillShape vg' shape val roundMode = Ok vg'.
Proof.
  unfold fillShape. destruct (createSdf shape) as [sdf|]; [|discriminate].
  destruct (roundOffset vg roundMode) as [offset|] eqn:Ho; [|discriminate].
  intros H. injection H as H'.
  unfold traverseAllPointsInside in *.
  rewrite (visit_never_stops (fun ix iy iz g => VoxelGridCpu.set g ix iy iz val)) in *.
  assert (Hs : sameShape vg vg').
  { assert (Hshape : forall l g, sameShape vg g ->
              sameShape vg (fold_left (fun g c => let '(ix, iy, iz) := c in
                                         VoxelGridCpu.set g ix iy iz val) l g)).
    { induction l as [|[[ax ay] az] l IH]; intros g Hg; simpl; [exact Hg|].
      apply IH. pose proof (set_sameShape g ax ay az val). unfold sameShape in *.
      intuition congruence. }
    rewrite <- H'. apply Hshape. unfold sameShape. tauto. }
  rewrite (roundOffset_geometry vg vg' roundMode Hs), Ho.
  rewrite (candidates_geometry vg vg' sdf offset Hs).
  f_equal. rewrite (visit_never_stops (fun ix iy iz g => VoxelGridCpu.set g ix iy iz val)).
  rewrite <- H'. apply fold_set_twice.
Qed.

(** *** [anyPointInsideIs] and [everyPointInsideIs] *)

(** With a predicate that only reads, the traversal returns whether the
    predicate holds at a visited cell. *)
Lemma visit_pure (pred : Z -> Z -> Z -> bool) (cells : list (Z * Z * Z)) :
  snd (visit (fun ix iy iz (s : unit) => (s, pred ix iy iz)) cells tt)
  = existsb (fun c => let '(ix, iy, iz) := c in pred ix iy iz) cells.
Proof.
  induction cells as [|[[ix iy] iz] rest IH]; simpl; [reflexivity|].
  destruct (pred ix iy iz); simpl; [reflexivity|exact IH].
Qed.

Lemma selected_iff vg (shape : Shape) (sdf : Sdf) (offset : R) ix iy iz :
  0 <= VoxelGridCpu.res vg -> createSdf shape = Ok sdf ->
  In (ix, iy, iz) (candidates vg sdf offset) <->
  inBounds vg (ix, iy, iz) /\
  leb_num (sdf (VoxelGridCpu.centerOf vg ix iy iz)) offset = true.
Proof.
  intros Hres Hsdf. rewrite in_candidates. split; [tauto|].
  intros (Hb & Hc). split; [exact Hb|]. split; [exact Hc|].
  apply block_kept; [exact Hres|now apply createSdf_cases with shape|exact Hc].
Qed.

(** X7.  For the SDF of a shape and a predicate that only reads,
    [anyPointInsideIs] returns true exactly when some cell of the grid whose
    centre has SDF at most [offset] satisfies the predicate. *)
Theorem anyPointInsideIs_exists vg (shape : Shape) (sdf : Sdf) (offset : R)
    (pred : Z -> Z -> Z -> bool) :
  0 <= VoxelGridCpu.res vg -> createSdf shape = Ok sdf ->
  snd (anyPointInsideIs vg sdf offset (fun ix iy iz (s : unit) => (s, pred ix iy iz)) tt)
  = true <->
  exists ix iy iz,
    inBounds vg (ix, iy, iz) /\
    leb_num (sdf (VoxelGridCpu.centerOf vg ix iy iz)) offset = true /\
    pred ix iy iz = true.
Proof.
  intros Hres Hsdf. unfold anyPointInsideIs, traverseAllPointsInside.
  rewrite visit_pure, existsb_exists. split.
  - intros ([[ix iy] iz] & Hin & Hp). exists ix, iy, iz.
    apply (selected_iff vg shape) in Hin; [|assumption..]. tauto.
  - intros (ix & iy & iz & Hb & Hc & Hp). exists (ix, iy, iz). split; [|exact Hp].
    apply (selected_iff vg shape); auto.
Qed.

Lemma every_pure vg (sdf : Sdf) (offset : R) (pred : Z -> Z -> Z -> bool) :
  snd (everyPointInsideIs vg sdf offset (fun ix iy iz (s : unit) => (s, pred ix iy iz)) tt)
  = forallb (fun c => let '(ix, iy, iz) := c in pred ix iy iz) (candidates vg sdf offset).
Proof.
  unfold everyPointInsideIs, traverseAllPointsInside.
  generalize (candidates vg sdf offset) as cs.
  intros cs. induction cs as [|[[ix iy] iz] rest IH]; simpl; [reflexivity|].
  destruct (pred ix iy iz); simpl; [exact IH|reflexivity].
Qed.

(** X8.  For the SDF of a shape and a predicate that only reads,
    [everyPointInsideIs] returns true exactly when every cell of the grid
    whose centre has SDF at most [offset] satisfies the predicate; so it is
    true when there is no such cell. *)
Theorem everyPointInsideIs_forall vg (shape : Shape) (sdf : Sdf) (offset : R)
    (pred : Z -> Z -> Z -> bool) :
  0 <= VoxelGridCpu.res vg -> createSdf shape = Ok sdf ->
  snd (everyPointInsideIs vg sdf offset (fun ix iy iz (s : unit) => (s, pred ix iy iz)) tt)
  = true <->
  forall ix iy iz,
    inBounds vg (ix, iy, iz) ->
    leb_num (sdf (VoxelGridCpu.centerOf vg ix iy iz)) offset = true ->
    pred ix iy iz = true.
Proof.
  intros Hres Hsdf. rewrite every_pure, forallb_forall. split.
  - intros H ix iy iz Hb Hc. apply (H (ix, iy, iz)).
    apply (selected_iff vg shape); auto.
  - intros H [[ix iy] iz] Hin.
    apply (selected_iff vg shape) in Hin as (Hb & Hc); auto.
Qed.

End HostFacts.

Lemma unit_z_length : Vector3.length (vec3 0 0 1) = 1.
Proof.
  unfold Vector3.length, Vector3.lengthSq, Vector3.dot. simpl.
  replace (0 * 0 + 0 * 0 + 1 * 1) with 1 by ring. apply sqrt_1.
Qed.

Lemma fillShape_idempotent_witness :
  let vg : Grid Z := VoxelGridCpu.mk 1 1 1 1 Vector3.zero [0%Z] in
  let shape := createCylinderShape (vec3 0 0 0) (vec3 0 0 1) 1 1 in
  exists vg',
    fillShape vg shape 1%Z "nearest" = Ok vg' /\ fillShape vg' shape 1%Z "nearest" = Ok vg'.
Proof.
  intros vg shape.
  destruct (fillShape vg shape 1%Z "nearest") as [vg'|e] eqn:H.
  - exists vg'. split; [reflexivity|].
    exact (fillShape_idempotent vg vg' shape 1%Z "nearest" H).
  - exfalso. unfold fillShape, shape, createCylinderShape, createSdf, createSdfCylinder in H.
    destruct (Req_dec_T (Vector3.length (vec3 0 0 1)) 1) as [|Hn];
      [discriminate|exact (Hn unit_z_length)].
Defined.

Lemma anyPointInsideIs_exists_witness :
  let vg : Grid Z := VoxelGridCpu.mk 1 1 1 1 Vector3.zero [0%Z] in
  let shape := createCylinderShape (vec3 0 0 0) (vec3 0 0 1) 1 1 in
  exists sdf,
    0 <= VoxelGridCpu.res vg /\ createSdf shape = Ok sdf /\
    (snd (anyPointInsideIs vg sdf 0 (fun ix iy iz (s : unit) => (s, true)) tt) = true <->
     exists ix iy iz,
       inBounds vg (ix, iy, iz) /\
       leb_num (sdf (VoxelGridCpu.centerOf vg ix iy iz)) 0 = true /\ true = true).
Proof.
  intros vg shape.
  assert (Hres : 0 <= VoxelGridCpu.res vg) by (simpl; lra).
  destruct (createSdf shape) as [sdf|e] eqn:Hc.
  - exists sdf. split; [exact Hres|]. split; [reflexivity|].
    exact (anyPointInsideIs_exists vg shape sdf 0 (fun _ _ _ => true) Hres Hc).
  - exfalso. unfold shape, createCylinderShape, createSdf, createSdfCylinder in Hc.
    destruct (Req_dec_T (Vector3.length (vec3 0 0 1)) 1) as [|Hn];
      [discriminate|exact (Hn unit_z_length)].
Defined.

Lemma everyPointInsideIs_forall_witness :
  let vg : Grid Z := VoxelGridCpu.mk 1 1 1 1 Vector3.zero [0%Z] in
  let shape := createCylinderShape (vec3 0 0 0) (vec3 0 0 1) 1 1 in
  exists sdf,
    0 <= VoxelGridCpu.res vg /\ createSdf shape = Ok sdf /\
    (snd (everyPointInsideIs vg sdf 0 (fun ix iy iz (s : unit) => (s, true)) tt) = true <->
     forall ix iy iz,
       inBounds vg (ix, iy, iz) ->
       leb_num (sdf (VoxelGridCpu.centerOf vg ix iy iz)) 0 = true -> true = true).
Proof.
  intros vg shape.
  assert (Hres : 0 <= VoxelGridCpu.res vg) by (simpl; lra).
  destruct (createSdf shape) as [sdf|e] eqn:Hc.
  - exists sdf. split; [exact Hres|]. split; [reflexivity|].
    exact (everyPointInsideIs_forall vg shape sdf 0 (fun _ _ _ => true) Hres Hc).
  - exfalso. unfold shape, createCylinderShape, createSdf, createSdfCylinder in Hc.
    destruct (Req_dec_T (Vector3.length (vec3 0 0 1)) 1) as [|Hn];
      [discriminate|exact (Hn unit_z_length)].
Defined.

(** *** No cell is visited twice *)

Lemma NoDup_flat_map_key {A B} (f : A -> list B) (k : B -> A) (l : list A) :
  List.NoDup l ->
  (forall x, In x l -> List.NoDup (f x)) ->
  (forall x y, In x l -> In y (f x) -> k y = x) ->
  List.NoDup (flat_map f l).
Proof.
  intros Hl Hf Hk. induction Hl as [|a l Ha Hl IH]; simpl; [constructor|].
  apply List.NoDup_app.
  - apply Hf. now left.
  - apply IH; intros; [apply Hf|apply Hk]; auto; now right.
  - intros y Hy Hy'. apply in_flat_map in Hy' as (x & Hx & Hyx).
    assert (H1 : k y = a) by (apply Hk; [now left|exact Hy]).
    assert (H2 : k y = x) by (apply Hk; [now right|exact Hyx]).
    apply Ha. now rewrite <- H1, H2.
Qed.

Lemma NoDup_range (n : Z) : List.NoDup (range n).
Proof.
  unfold range. apply NoDup_ListNoDup.
  change (List.map Z.of_nat (seq 0 (Z.to_nat n))) with (Z.of_nat <$> seq 0 (Z.to_nat n)).
  apply NoDup_fmap_2; [apply _|apply NoDup_seq].
Qed.

Lemma NoDup_if {A} (b : bool) (x : A) : List.NoDup (if b then [x] else []).
Proof. destruct b; repeat constructor. intros []. Qed.

Section NoDupFacts.
Context {E : Type}.
Implicit Types (vg : Grid E) (sdf : Sdf) (offset : R).

Lemma NoDup_blocks vg sdf offset : List.NoDup (blocks vg sdf offset).
Proof.
  unfold blocks.
  apply (NoDup_flat_map_key _ (fun b => snd b)); [apply NoDup_range| |].
  - intros bz _.
    apply (NoDup_flat_map_key _ (fun b => snd (fst b))); [apply NoDup_range| |].
    + intros by_ _.
      apply (NoDup_flat_map_key _ (fun b => fst (fst b))); [apply NoDup_range| |].
      * intros bx _. apply NoDup_if.
      * intros bx b _ Hb. destruct (leb_num _ _); [|destruct Hb].
        destruct Hb as [<-|[]]. reflexivity.
    + intros by_ b _ Hb. apply in_flat_map in Hb as (bx & _ & Hb).
      destruct (leb_num _ _); [|destruct Hb]. destruct Hb as [<-|[]]. reflexivity.
  - intros bz b _ Hb. apply in_flat_map in Hb as (by_ & _ & Hb).
    apply in_flat_map in Hb as (bx & _ & Hb).
    destruct (leb_num _ _); [|destruct Hb]. destruct Hb as [<-|[]]. reflexivity.
Qed.

Lemma NoDup_blockCells vg sdf offset b : List.NoDup (blockCells vg sdf offset b).
Proof.
  destruct b as [[bx by_] bz]. unfold blockCells.
  apply (NoDup_flat_map_key _ (fun c => (snd c - bz * blockSize)%Z)); [apply NoDup_range| |].
  - intros dz _. destruct (_ >=? _)%Z; [constructor|].
    apply (NoDup_flat_map_key _ (fun c => (snd (fst c) - by_ * blockSize)%Z));
      [apply NoDup_range| |].
    + intros dy _. destruct (_ >=? _)%Z; [constructor|].
      apply (NoDup_flat_map_key _ (fun c => (fst (fst c) - bx * blockSize)%Z));
        [apply NoDup_range| |].
      * intros dx _. destruct (_ >=? _)%Z; [constructor|]. apply NoDup_if.
      * intros dx c _ Hc. destruct (_ >=? _)%Z; [destruct Hc|].
        destruct (leb_num _ _); [|destruct Hc]. destruct Hc as [<-|[]]. simpl. lia.
    + intros dy c _ Hc. destruct (_ >=? _)%Z; [destruct Hc|].
      apply in_flat_map in Hc as (dx & _ & Hc). destruct (_ >=? _)%Z; [destruct Hc|].
      destruct (leb_num _ _); [|destruct Hc]. destruct Hc as [<-|[]]. simpl. lia.
  - intros dz c _ Hc. destruct (_ >=? _)%Z; [destruct Hc|].
    apply in_flat_map in Hc as (dy & _ & Hc). destruct (_ >=? _)%Z; [destruct Hc|].
    apply in_flat_map in Hc as (dx & _ & Hc). destruct (_ >=? _)%Z; [destruct Hc|].
    destruct (leb_num _ _); [|destruct Hc]. destruct Hc as [<-|[]]. simpl. lia.
Qed.

Lemma NoDup_candidates vg sdf offset : List.NoDup (candidates vg sdf offset).
Proof.
  unfold candidates.
  apply (NoDup_flat_map_key _
           (fun c => (fst (fst c) / blockSize, snd (fst c) / blockSize, snd c / blockSize)%Z)).
  - apply NoDup_blocks.
  - intros b _. apply NoDup_blockCells.
  - intros [[bx by_] bz] [[ix iy] iz] _ Hc. apply in_blockCells in Hc. unfold blockSize in *.
    simpl.
    assert (ix / 8 = bx)%Z by (symmetry; apply (Z.div_unique ix 8 bx (ix - bx * 8)); lia).
    assert (iy / 8 = by_)%Z by (symmetry; apply (Z.div_unique iy 8 by_ (iy - by_ * 8)); lia).
    assert (iz / 8 = bz)%Z by (symmetry; apply (Z.div_unique iz 8 bz (iz - bz * 8)); lia).
    now subst.
Qed.

(** The calls of a logged visitor are the first cells of the list. *)
Lemma visit_logged_prefix {S} (fn : Z -> Z -> Z -> S -> S * bool) cells :
  forall s log,
    exists done rest,
      cells = done ++ rest /\
      snd (fst (visit (logged fn) cells (s, log))) = log ++ done.
Proof.
  induction cells as [|[[ix iy] iz] rest IH]; intros s log; simpl.
  - exists [], []. split; [reflexivity|]. now rewrite app_nil_r.
  - unfold logged at 1. simpl. destruct (fn ix iy iz s) as [s' stop].
    destruct stop; simpl.
    + exists [(ix, iy, iz)], rest. split; reflexivity.
    + destruct (IH s' (log ++ [(ix, iy, iz)])) as (done & rest' & -> & ->).
      exists ((ix, iy, iz) :: done), rest'. split; [reflexivity|].
      now rewrite <- app_assoc.
Qed.

(** X9.  Whatever function is passed as SDF and whatever the visitor does,
    [traverseAllPointsInside] calls the visitor at most once per cell, and
    only at cells whose centre passes the test [sdf (centre) <= offset]. *)
Theorem traverse_visits_once {S : Type} vg sdf offset
    (fn : Z -> Z -> Z -> S -> S * bool) (s : S) :
  let calls := snd (fst (traverseAllPointsInside vg sdf offset (logged fn) (s, []))) in
  List.NoDup calls /\
  Forall (fun c => let '(ix, iy, iz) := c in
                   leb_num (sdf (VoxelGridCpu.centerOf vg ix iy iz)) offset = true) calls.
Proof.
  intros calls. unfold calls, traverseAllPointsInside.
  destruct (visit_logged_prefix fn (candidates vg sdf offset) s [])
    as (done & rest & Hc & ->).
  simpl. pose proof (NoDup_candidates vg sdf offset) as Hn. rewrite Hc in Hn.
  split.
  - eapply List.NoDup_app_remove_r. exact Hn.
  - apply List.Forall_forall. intros [[ix iy] iz] Hin.
    assert (Hin' : In (ix, iy, iz) (candidates vg sdf offset)).
    { rewrite Hc. apply in_or_app. now left. }
    apply in_candidates in Hin'. tauto.
Qed.

End NoDupFacts.

(** ** Shapes and their SDFs *)

Lemma hypot_pos (a b : R) : 0 < a \/ 0 < b -> 0 < hypot (Rmax a 0) (Rmax b 0).
Proof.
  intros H. pose proof (hypot_nonneg (Rmax a 0) (Rmax b 0)) as Hn.
  pose proof (hypot_sq (Rmax a 0) (Rmax b 0)) as Hs.
  destruct (Rmax_0_cases a) as [(Ha & Ea)|(Ha & Ea)], (Rmax_0_cases b) as [(Hb & Eb)|(Hb & Eb)];
    rewrite Ea, Eb in *.
  - lra.
  - destruct Hn as [Hn|Hn]; [exact Hn|]. rewrite <- Hn in Hs. nra.
  - destruct Hn as [Hn|Hn]; [exact Hn|]. rewrite <- Hn in Hs. nra.
  - destruct Hn as [Hn|Hn]; [exact Hn|]. rewrite <- Hn in Hs. nra.
Qed.

(** The combination of two distances is negative or zero exactly when both
    are. *)
Lemma combine_nonpos (a b : R) : combine a b <= 0 <-> a <= 0 /\ b <= 0.
Proof.
  split.
  - intros H. destruct (Rle_dec a 0) as [Ha|Ha], (Rle_dec b 0) as [Hb|Hb]; [tauto| | |];
      exfalso; rewrite combine_outside in H by lra;
      pose proof (hypot_pos a b ltac:(lra)); lra.
  - intros (Ha & Hb). rewrite combine_inside by assumption.
    unfold Rmax. destruct (Rle_dec a b); lra.
Qed.

Lemma interval_distance (t h : R) : Rabs (t - h * 0.5) - h * 0.5 <= 0 <-> 0 <= t <= h.
Proof.
  unfold Q2R. cbn [QArith_base.Qnum QArith_base.Qden].
  unfold Rabs. destruct (Rcase_abs _); lra.
Qed.


(** X11.  The SDF of a cylinder is negative or zero exactly in the solid
    cylinder: at the points whose height over the base, measured along n, is
    between 0 and h and whose distance from the axis is at most r. *)
Theorem cylinder_sdf_inside (p n : Vec3) (r h : R) (sdf : Sdf) (x : Vec3) :
  createSdf (createCylinderShape p n r h) = Ok sdf ->
  exists d, sdf x = Some d /\
    (d <= 0 <->
     0 <= Vector3.dot (Vector3.sub x p) n <= h /\
     Vector3.length (Vector3.projectOnPlane (Vector3.sub x p) n) <= r).
Proof.
  simpl. unfold createSdfCylinder. destruct (Req_dec_T _ _); [|discriminate].
  intros H. injection H as <-. eexists. split; [reflexivity|].
  rewrite combine_nonpos, interval_distance. split; intros (H1 & H2); split; lra.
Qed.

Lemma distanceTo_le_sq (a b c d : Vec3) :
  Vector3.lengthSq (Vector3.sub a b) <= Vector3.lengthSq (Vector3.sub c d) ->
  Vector3.distanceTo a b <= Vector3.distanceTo c d.
Proof.
  intros H. unfold Vector3.distanceTo, Vector3.length. now apply sqrt_le_1_alt.
Qed.

(** X12.  The SDF of a long hole with q other than p is negative or zero
    exactly at the points whose height over the base, along n, is between 0
    and h and whose projection on the base plane is within r of some point of
    the segment from p to q. *)
Theorem elh_sdf_inside (p q n : Vec3) (r h : R) (sdf : Sdf) (x : Vec3) :
  createSdf (createELHShape p q n r h) = Ok sdf -> q <> p ->
  exists d, sdf x = Some d /\
    (d <= 0 <->
     0 <= Vector3.dot n (Vector3.sub x p) <= h /\
     exists s, 0 <= s <= 1 /\
       Vector3.distanceTo (Vector3.projectOnPlane (Vector3.sub x p) n)
         (Vector3.multiplyScalar (Vector3.sub q p) s) <= r).
Proof.
  simpl. unfold createSdfElh. destruct (Req_dec_T _ _); [|discriminate].
  destruct (Req_dec_T _ _); [|discriminate]. destruct (Rlt_dec _ _); [discriminate|].
  intros H Hne. injection H as <-.
  set (dq := Vector3.sub q p). set (u := Vector3.projectOnPlane (Vector3.sub x p) n).
  assert (Hdq : Vector3.lengthSq dq <> 0).
  { intros H0. apply VectorFacts.lengthSq_0 in H0. apply Hne.
    unfold dq, Vector3.sub, Vector3.zero in H0. injection H0 as Hx Hy Hz.
    destruct q, p. simpl in *. f_equal; lra. }
  unfold clamp01_div. change (Vector3.dot dq dq) with (Vector3.lengthSq dq).
  destruct (Req_dec_T (Vector3.lengthSq dq) 0); [contradiction|].
  eexists. split; [reflexivity|].
  rewrite combine_nonpos, interval_distance. split.
  - intros (H1 & H2). split; [exact H1|].
    exists (clamp01 (Vector3.dot u dq / Vector3.lengthSq dq)).
    split; [apply clamp01_range|]. lra.
  - intros (H1 & s & Hs & H2). split; [exact H1|].
    pose proof (distanceTo_le_sq _ _ _ _ (segment_nearest u dq s Hdq Hs)). lra.
Qed.

(** X13.  The SDF of a box is negative or zero exactly at the points whose
    coordinate along each half vector, measured from the centre, is at most
    the length of that half vector in absolute value. *)
Theorem box_sdf_inside (center halfVec0 halfVec1 halfVec2 : Vec3) (sdf : Sdf) (x : Vec3) :
  createSdf (createBoxShape center halfVec0 halfVec1 halfVec2) = Ok sdf ->
  exists d, sdf x = Some d /\
    (d <= 0 <->
     Rabs (Vector3.dot (Vector3.sub x center) (Vector3.normalize halfVec0))
       <= Vector3.length halfVec0 /\
     Rabs (Vector3.dot (Vector3.sub x center) (Vector3.normalize halfVec1))
       <= Vector3.length halfVec1 /\
     Rabs (Vector3.dot (Vector3.sub x center) (Vector3.normalize halfVec2))
       <= Vector3.length halfVec2).
Proof.
  simpl. unfold createSdfBox. repeat (destruct (Req_dec_T _ _); [|discriminate]).
  intros H. injection H as <-. eexists. split; [reflexivity|].
  cbn [Vector3.sub Vector3.x Vector3.y Vector3.z].
  rewrite box_combine, !combine_nonpos. split; intros H; lra.
Qed.

(** X14.  The SDF of every cylinder, every box and every long hole with q
    other than p that [createSdf] accepts gives a number at every point and
    is 1-Lipschitz. *)
Theorem createSdf_lipschitz (shape : Shape) (sdf : Sdf) :
  createSdf shape = Ok sdf ->
  (forall p n r h, shape <> createELHShape p p n r h) ->
  exists f, (forall x, sdf x = Some (f x)) /\ lipschitz1 f.
Proof.
  intros H Hne. destruct shape as [p n r h|p q n r h|c h0 h1 h2]; simpl in H.
  - eapply createSdfCylinder_lipschitz; eauto.
  - apply createSdfElh_cases in H as [(-> & _)|(_ & H)]; [|exact H].
    exfalso. now apply (Hne p n r h).
  - eapply createSdfBox_lipschitz; eauto.
Qed.

Lemma cylinder_sdf_inside_witness :
  let p := vec3 0 0 0 in
  let n := vec3 0 0 1 in
  exists sdf,
    createSdf (createCylinderShape p n 1 1) = Ok sdf /\
    exists d, sdf p = Some d /\
      (d <= 0 <->
       0 <= Vector3.dot (Vector3.sub p p) n <= 1 /\
       Vector3.length (Vector3.projectOnPlane (Vector3.sub p p) n) <= 1).
Proof.
  intros p n.
  destruct (createSdf (createCylinderShape p n 1 1)) as [sdf|e] eqn:Hc.
  - exists sdf. split; [reflexivity|]. exact (cylinder_sdf_inside p n 1 1 sdf p Hc).
  - exfalso. unfold createCylinderShape, createSdf, createSdfCylinder in Hc.
    destruct (Req_dec_T (Vector3.length n) 1) as [|Hn];
      [discriminate|exact (Hn unit_z_length)].
Defined.

Lemma elh_sdf_inside_witness :
  let p := vec3 0 0 0 in
  let q := vec3 1 0 0 in
  let n := vec3 0 0 1 in
  exists sdf,
    createSdf (createELHShape p q n 1 1) = Ok sdf /\ q <> p /\
    exists d, sdf p = Some d /\
      (d <= 0 <->
       0 <= Vector3.dot n (Vector3.sub p p) <= 1 /\
       exists s, 0 <= s <= 1 /\
         Vector3.distanceTo (Vector3.projectOnPlane (Vector3.sub p p) n)
           (Vector3.multiplyScalar (Vector3.sub q p) s) <= 1).
Proof.
  intros p q n.
  assert (Hne : q <> p).
  { intros H. injection H as H. lra. }
  destruct (createSdf (createELHShape p q n 1 1)) as [sdf|e] eqn:Hc.
  - exists sdf. split; [reflexivity|]. split; [exact Hne|].
    exact (elh_sdf_inside p q n 1 1 sdf p Hc Hne).
  - exfalso. unfold createELHShape, createSdf, createSdfElh in Hc.
    destruct (Req_dec_T (Vector3.length n) 1) as [|Hn]; [|exact (Hn unit_z_length)].
    destruct (Req_dec_T (Vector3.dot (Vector3.sub q p) n) 0) as [|Hd].
    + destruct (Rlt_dec (Vector3.distanceTo q p) 0) as [Hlt|]; [|discriminate].
      pose proof (VectorFacts.length_nonneg (Vector3.sub q p)).
      unfold Vector3.distanceTo in Hlt. lra.
    + apply Hd. unfold Vector3.dot, Vector3.sub. simpl. ring.
Defined.

Lemma unit_box_accepted :
  exists sdf,
    createSdf (createBoxShape Vector3.zero (vec3 1 0 0) (vec3 0 1 0) (vec3 0 0 1)) = Ok sdf.
Proof.
  unfold createBoxShape, createSdf, createSdfBox.
  destruct (Req_dec_T _ _) as [|H]; [|exfalso; apply H; unfold Vector3.dot; simpl; ring].
  destruct (Req_dec_T _ _) as [|H]; [|exfalso; apply H; unfold Vector3.dot; simpl; ring].
  destruct (Req_dec_T _ _) as [|H]; [|exfalso; apply H; unfold Vector3.dot; simpl; ring].
  eexists. reflexivity.
Qed.

Lemma box_sdf_inside_witness :
  let shape := createBoxShape Vector3.zero (vec3 1 0 0) (vec3 0 1 0) (vec3 0 0 1) in
  exists sdf,
    createSdf shape = Ok sdf /\
    exists d, sdf Vector3.zero = Some d /\
      (d <= 0 <->
       Rabs (Vector3.dot (Vector3.sub Vector3.zero Vector3.zero) (Vector3.normalize (vec3 1 0 0)))
         <= Vector3.length (vec3 1 0 0) /\
       Rabs (Vector3.dot (Vector3.sub Vector3.zero Vector3.zero) (Vector3.normalize (vec3 0 1 0)))
         <= Vector3.length (vec3 0 1 0) /\
       Rabs (Vector3.dot (Vector3.sub Vector3.zero Vector3.zero) (Vector3.normalize (vec3 0 0 1)))
         <= Vector3.length (vec3 0 0 1)).
Proof.
  intros shape. destruct unit_box_accepted as (sdf & Hc).
  exists sdf. split; [exact Hc|].
  exact (box_sdf_inside Vector3.zero (vec3 1 0 0) (vec3 0 1 0) (vec3 0 0 1) sdf Vector3.zero Hc).
Defined.

Lemma createSdf_lipschitz_witness :
  let shape := createBoxShape Vector3.zero (vec3 1 0 0) (vec3 0 1 0) (vec3 0 0 1) in
  exists sdf,
    createSdf shape = Ok sdf /\
    (forall p n r h, shape <> createELHShape p p n r h) /\
    exists f, (forall x, sdf x = Some (f x)) /\ lipschitz1 f.
Proof.
  intros shape. destruct unit_box_accepted as (sdf & Hc).
  assert (Hne : forall p n r h, shape <> createELHShape p p n r h) by (intros; discriminate).
  exists sdf. split; [exact Hc|]. split; [exact Hne|].
  exact (createSdf_lipschitz shape sdf Hc Hne).
Defined.

(** ** The grid snippet *)

Lemma u32_small (n : Z) : (0 <= n < 2 ^ 32)%Z -> u32 n = n.
Proof. intros H. unfold u32. now apply Z.mod_small. Qed.

(** X15.  On a grid of fewer than 2^32 cells, [compose_ix] and
    [decompose_ix] are inverse of each other: the coordinates of a cell of
    the grid give an index below the number of cells from which
    [decompose_ix] gives the coordinates back, and an index below the number
    of cells gives coordinates inside the grid from which [compose_ix] gives
    the index back. *)
Theorem compose_decompose (u : Uniforms) :
  (0 < nums_x u)%Z -> (0 < nums_y u)%Z ->
  (nums_x u * nums_y u * nums_z u < 2 ^ 32)%Z ->
  (forall ix3, inGrid u ix3 ->
     (0 <= compose_ix u ix3 < nums_x u * nums_y u * nums_z u)%Z /\
     decompose_ix u (compose_ix u ix3) = ix3) /\
  (forall ix, (0 <= ix < nums_x u * nums_y u * nums_z u)%Z ->
     inGrid u (decompose_ix u ix) /\
     compose_ix u (decompose_ix u ix) = ix).
Proof.
  intros Hx Hy Hn.
  set (nx := nums_x u) in *. set (ny := nums_y u) in *. set (nz := nums_z u) in *.
  assert (HP : (0 < nx * ny)%Z) by nia.
  split.
  - intros [[x y] z] (Bx & By & Bz). fold nx ny nz in Bx, By, Bz.
    assert (Hnz : (1 <= nz)%Z) by lia.
    assert (HPn : (nx * ny <= nx * ny * nz)%Z) by nia.
    assert (B1 : (0 <= y * nx <= (ny - 1) * nx)%Z) by nia.
    assert (B2 : (0 <= x + y * nx < nx * ny)%Z) by nia.
    assert (B3 : (0 <= z * nx <= (nz - 1) * nx)%Z) by nia.
    assert (B3' : (z * nx < nx * ny * nz)%Z) by nia.
    assert (B4 : (0 <= z * (nx * ny) <= (nz - 1) * (nx * ny))%Z) by nia.
    assert (B5 : (0 <= x + y * nx + z * (nx * ny) < nx * ny * nz)%Z) by nia.
    assert (Hc : compose_ix u (x, y, z) = (x + y * nx + z * (nx * ny))%Z).
    { unfold compose_ix. fold nx ny.
      rewrite (u32_small (y * nx)) by lia.
      rewrite (u32_small (x + y * nx)) by lia.
      rewrite (u32_small (z * nx)) by lia.
      rewrite (u32_small (z * nx * ny)) by nia.
      rewrite u32_small by nia. ring. }
    rewrite Hc. split; [exact B5|].
    unfold decompose_ix. fold nx ny. rewrite (u32_small (nx * ny)) by lia.
    assert (E1 : ((x + y * nx + z * (nx * ny)) mod nx = x)%Z).
    { symmetry. apply (Z.mod_unique _ nx (y + z * ny)); [lia|ring]. }
    assert (E2 : ((x + y * nx + z * (nx * ny)) / nx = y + z * ny)%Z).
    { symmetry. apply (Z.div_unique _ nx (y + z * ny) x); [lia|ring]. }
    assert (E3 : ((y + z * ny) mod ny = y)%Z).
    { symmetry. apply (Z.mod_unique _ ny z); [lia|ring]. }
    assert (E4 : ((x + y * nx + z * (nx * ny)) / (nx * ny) = z)%Z).
    { symmetry. apply (Z.div_unique _ (nx * ny) z (x + y * nx)); [lia|ring]. }
    now rewrite E1, E2, E3, E4.
  - intros ix Hix.
    assert (Hnz : (1 <= nz)%Z) by nia.
    assert (HPn : (nx * ny <= nx * ny * nz)%Z) by nia.
    unfold decompose_ix. fold nx ny. rewrite (u32_small (nx * ny)) by lia.
    pose proof (Z.mod_pos_bound ix nx Hx) as Mx.
    pose proof (Z.mod_pos_bound (ix / nx) ny Hy) as My.
    pose proof (Z.div_mod ix nx ltac:(lia)) as Dx.
    pose proof (Z.div_mod (ix / nx) ny ltac:(lia)) as Dy.
    assert (Dz : (ix / (nx * ny) = ix / nx / ny)%Z) by (rewrite Z.div_div; lia).
    assert (Qz : (0 <= ix / (nx * ny) < nz)%Z).
    { split; [apply Z.div_pos; lia|]. apply Z.div_lt_upper_bound; [lia|]. lia. }
    split.
    + unfold inGrid. fold nx ny nz. lia.
    + set (x := (ix mod nx)%Z) in *. set (q := (ix / nx)%Z) in *.
      set (y := (q mod ny)%Z) in *. rewrite Dz in *. set (z := (q / ny)%Z) in *.
      assert (Hq : (0 <= q)%Z) by (apply Z.div_pos; lia).
      assert (B1 : (0 <= y * nx <= (ny - 1) * nx)%Z) by nia.
      assert (B2 : (0 <= x + y * nx < nx * ny)%Z) by nia.
      assert (B3 : (0 <= z * nx <= (nz - 1) * nx)%Z) by nia.
      assert (B3' : (z * nx < nx * ny * nz)%Z) by nia.
      assert (B4 : (0 <= z * (nx * ny) <= (nz - 1) * (nx * ny))%Z) by nia.
      unfold compose_ix. fold nx ny.
      rewrite (u32_small (y * nx)) by lia.
      rewrite (u32_small (x + y * nx)) by lia.
      rewrite (u32_small (z * nx)) by lia.
      rewrite (u32_small (z * nx * ny)) by nia.
      rewrite u32_small by nia.
      assert (Hsum : (ix = nx * (ny * z + y) + x)%Z) by (rewrite <- Dy; exact Dx).
      transitivity (nx * (ny * z + y) + x)%Z; [ring|symmetry; exact Hsum].
Qed.

Lemma compose_decompose_witness :
  let u := mkUniforms 2 3 4 0 Vector3.zero 1 in
  (0 < nums_x u)%Z /\ (0 < nums_y u)%Z /\ (nums_x u * nums_y u * nums_z u < 2 ^ 32)%Z /\
  decompose_ix u (compose_ix u (1, 2, 3)%Z) = (1, 2, 3)%Z /\
  compose_ix u (decompose_ix u 23) = 23%Z.
Proof.
  intros u.
  assert (Hx : (0 < nums_x u)%Z) by (simpl; lia).
  assert (Hy : (0 < nums_y u)%Z) by (simpl; lia).
  assert (Hn : (nums_x u * nums_y u * nums_z u < 2 ^ 32)%Z) by (simpl; lia).
  destruct (compose_decompose u Hx Hy Hn) as (H1 & H2).
  split; [exact Hx|]. split; [exact Hy|]. split; [exact Hn|]. split.
  - apply H1. simpl. lia.
  - apply H2. simpl. lia.
Defined.

(** X16.  For every grid and every cell, the point that the kernels bind to
    [p] is the corner of the cell with the least coordinates: the centre that
    [centerOf] gives, moved back by half a cell along each axis.  Two such
    points are as far from each other as the two centres. *)
Theorem cell_center_is_corner {E} (res : R) (numX numY numZ aux : Z) (ofs : Vec3)
    (data : list E) (a b : Z * Z * Z) :
  let u := uniformsOf (mkParams res numX numY numZ ofs) aux in
  let vg := VoxelGridCpu.mk res numX numY numZ ofs data in
  let centre := fun c : Z * Z * Z => let '(ix, iy, iz) := c in VoxelGridCpu.centerOf vg ix iy iz in
  centre a = Vector3.addScalar (cell_center u a) (res / 2) /\
  Vector3.distanceTo (cell_center u a) (cell_center u b)
  = Vector3.distanceTo (centre a) (centre b).
Proof.
  intros u vg centre. destruct a as [[x y] z], b as [[x' y'] z'].
  unfold centre, VoxelGridCpu.centerOf, cell_center, u, uniformsOf, vg. simpl.
  unfold Vector3.addScalar, Vector3.add, Vector3.multiplyScalar, Vector3.distanceTo,
    Vector3.length, Vector3.lengthSq, Vector3.dot, Vector3.sub. simpl.
  unfold Q2R. cbn [QArith_base.Qnum QArith_base.Qden]. split.
  - f_equal; field.
  - f_equal. field.
Qed.

(** ** The compatibility check *)

Lemma checkGrids_iff (o1 : VoxelGridGpu.t) (os : list VoxelGridGpu.t) :
  checkGrids o1 os = Ok tt <-> Forall (sameGeometry o1) os.
Proof.
  induction os as [|o2 os IH].
  - simpl. split; [constructor|reflexivity].
  - destruct (checkGrids_head o1 o2 os) as [(Hs & ->)|(Hn & e & -> & _)].
    + rewrite IH. split; [now constructor|]. intros H. now inversion H.
    + split; [discriminate|]. intros H. inversion H. contradiction.
Qed.

(** X17.  [#checkGridCompat], as [map], [map2], [copy] and [distField] call
    it on grid objects, returns the parameters of the first grid exactly when
    every other grid has the same [res], [numX], [numY], [numZ] and [ofs] as
    the first; otherwise it throws a size, offset or resolution error.  The
    cell types and the buffers of the grids play no part, and the state is
    not changed. *)
Theorem checkGridCompat_accepts (s : State) (g1 : nat) (o1 : VoxelGridGpu.t)
    (gs : list nat) (os : list VoxelGridGpu.t) :
  objects s !! g1 = Some o1 ->
  Forall2 (fun g o => objects s !! g = Some o) gs os ->
  (Forall (sameGeometry o1) os ->
   checkGridCompat g1 gs s = (Ok (paramsOf o1), s)) /\
  (~ Forall (sameGeometry o1) os ->
   exists e, checkGridCompat g1 gs s = (Throw e, s) /\ structural e).
Proof.
  intros H1 Hgs. unfold checkGridCompat.
  rewrite (bind_ok _ _ _ _ _ (deref_ok _ _ _ H1)).
  match goal with |- context [bind (?F gs)] => set (derefs := F) end.
  assert (Hd : derefs gs s = (Ok os, s)).
  { induction Hgs as [|g o gs' os' Hg Hrest IH]; [reflexivity|].
    simpl. rewrite (bind_ok _ _ _ _ _ (deref_ok _ _ _ Hg)).
    fold derefs. rewrite (bind_ok _ _ _ _ _ IH). reflexivity. }
  rewrite (bind_ok _ _ _ _ _ Hd). split.
  - intros Hs. apply checkGrids_iff in Hs. unfold lift, bind. rewrite Hs. reflexivity.
  - intros Hn. unfold lift, bind.
    destruct (checkGrids o1 os) as [[]|e] eqn:Hc.
    + exfalso. apply Hn. now apply checkGrids_iff.
    + exists e. split; [reflexivity|].
      clear - Hc. induction os as [|o2 os IH]; [discriminate|].
      destruct (checkGrids_head o1 o2 os) as [(_ & Heq)|(_ & e' & He & Hst)].
      * rewrite Heq in Hc. auto.
      * rewrite He in Hc. now inversion Hc; subst.
Qed.

Lemma checkGridCompat_accepts_witness :
  let s := deviceWith [(unitGrid 2 1 1 F32, [VF32 2; VF32 0]);
                       (unitGrid 2 1 1 U32, [VU32 0; VU32 0])] in
  let o1 := VoxelGridGpu.mk 1 2 1 1 Vector3.zero F32 (Some 0%nat) in
  let o2 := VoxelGridGpu.mk 1 2 1 1 Vector3.zero U32 (Some 1%nat) in
  objects s !! 0%nat = Some o1 /\
  Forall2 (fun g o => objects s !! g = Some o) [1%nat] [o2] /\
  Forall (sameGeometry o1) [o2] /\
  checkGridCompat 0 [1%nat] s = (Ok (paramsOf o1), s).
Proof.
  intros s o1 o2.
  assert (H1 : objects s !! 0%nat = Some o1) by reflexivity.
  assert (H2 : Forall2 (fun g o => objects s !! g = Some o) [1%nat] [o2]).
  { constructor; [reflexivity|constructor]. }
  assert (Hs : Forall (sameGeometry o1) [o2]).
  { constructor; [|constructor]. unfold sameGeometry. simpl. tauto. }
  split; [exact H1|]. split; [exact H2|]. split; [exact Hs|].
  exact (proj1 (checkGridCompat_accepts s 0 o1 [1%nat] [o2] H1 H2) Hs).
Defined.

(** ** [map] and [map2] *)

(** X18.  [map] from a grid into another grid of the same geometry, both
    with live buffers of [numX * numY * numZ] cells: the call returns
    normally, each output cell holds the value the snippet gives for the
    point of the cell and the input cell, no grid object changes and no other
    buffer changes. *)
Theorem map_writes_output (s : State) (fnName : string) (gi go : nat)
    (oi oo : VoxelGridGpu.t) (hi ho : nat) (bi bo : Buffer) (pl : MapPipeline) :
  gi <> go ->
  objects s !! gi = Some oi -> objects s !! go = Some oo ->
  sameGeometry oi oo ->
  VoxelGridGpu.buffer oi = Some hi -> VoxelGridGpu.buffer oo = Some ho ->
  buffers s !! hi = Some bi -> buffers s !! ho = Some bo ->
  mapPipelines s !! fnName = Some pl ->
  List.length (cells bi)
  = Z.to_nat (VoxelGridGpu.numX oi * VoxelGridGpu.numY oi * VoxelGridGpu.numZ oi) ->
  List.length (cells bo)
  = Z.to_nat (VoxelGridGpu.numX oi * VoxelGridGpu.numY oi * VoxelGridGpu.numZ oi) ->
  let u := uniformsOf (paramsOf oi) 0 in
  exists s',
    map fnName gi go s = (Ok tt, s') /\
    cellsOf s' go
    = Some (imap (fun i vi =>
                    map_snippet pl (cell_center u (decompose_ix u (Z.of_nat i))) vi)
              (cells bi)) /\
    objects s' = objects s /\
    (forall h, h <> ho -> buffers s' !! h = buffers s !! h).
Proof.
  intros Hne Hgi Hgo Hs Hbi Hbo Hhi Hho Hpl Li Lo u.
  eexists. split.
  - apply (map_out_of_place s fnName gi go oi oo hi ho bi bo pl); auto.
    now apply checkGrids_accept_1.
  - split; [|split].
    + unfold cellsOf. cbn [objects buffers]. rewrite Hgo, Hbo, lookup_insert_eq.
      cbn [option_map cells]. f_equal. now apply map_kernel_full.
    + reflexivity.
    + intros h Hh. cbn [buffers]. now rewrite lookup_insert_ne.
Qed.

Lemma map_writes_output_witness :
  let s := deviceWith [(unitGrid 2 1 1 F32, [VF32 2; VF32 0]);
                       (unitGrid 2 1 1 F32, [VF32 0; VF32 0])] in
  exists s',
    map "negate" 0 1 s = (Ok tt, s') /\
    cellsOf s' 1 = Some [VF32 (- 2); VF32 (- 0)].
Proof.
  intros s.
  destruct (map_writes_output s "negate" 0 1
              (VoxelGridGpu.mk 1 2 1 1 Vector3.zero F32 (Some 0%nat))
              (VoxelGridGpu.mk 1 2 1 1 Vector3.zero F32 (Some 1%nat))
              0 1 (mkBuffer 8 [VF32 2; VF32 0]) (mkBuffer 8 [VF32 0; VF32 0]) negate
              ltac:(lia) eq_refl eq_refl ltac:(unfold sameGeometry; simpl; tauto)
              eq_refl eq_refl eq_refl eq_refl eq_refl eq_refl eq_refl)
    as (s' & Hrun & Hcells & _).
  exists s'. split; [exact Hrun|]. exact Hcells.
Defined.



(** X20.  A name that is not registered, and is not a property that the
    table inherits: [map] on compatible grids throws the error of the missing
    function and changes nothing, also when the output grid is the input
    grid (no temporary grid is created); [registerMapFn] enters the pipeline
    under that name, leaving the other names, the buffers and the grids as
    they are; registering the name again throws and changes nothing. *)
Theorem registerMapFn_then_map (s : State) (name : string) (pl : MapPipeline)
    (gi go : nat) (oi oo : VoxelGridGpu.t) :
  ~ In name objectPrototypeKeys ->
  mapPipelines s !! name = None ->
  objects s !! gi = Some oi -> objects s !! go = Some oo -> sameGeometry oi oo ->
  map name gi go s = (Throw (MapFnNotRegistered name), s) /\
  exists s',
    registerMapFn name pl s = (Ok tt, s') /\
    mapPipelines s' !! name = Some pl /\
    (forall other, other <> name -> mapPipelines s' !! other = mapPipelines s !! other) /\
    buffers s' = buffers s /\ objects s' = objects s /\
    registerMapFn name pl s' = (Throw (MapFnAlreadyRegistered name), s').
Proof.
  intros _ Hnone Hgi Hgo Hs. split.
  - unfold map. rewrite (bind_ok _ _ s s (paramsOf oi)).
    2:{ rewrite (checkGridCompat_1 _ _ _ _ _ Hgi Hgo), (checkGrids_accept_1 _ _ Hs).
        reflexivity. }
    apply bind_throw. unfold lookupPipeline. now rewrite Hnone.
  - unfold registerMapFn. rewrite Hnone. eexists. split; [reflexivity|].
    cbn [mapPipelines buffers objects]. rewrite lookup_insert_eq.
    split; [reflexivity|]. split; [|auto].
    intros other Ho. now rewrite lookup_insert_ne.
Qed.

Lemma registerMapFn_then_map_witness :
  let s := deviceWith [(unitGrid 2 1 1 F32, [VF32 2; VF32 0]);
                       (unitGrid 2 1 1 F32, [VF32 0; VF32 0])] in
  ~ In "square" objectPrototypeKeys /\
  mapPipelines s !! "square" = None /\
  map "square" 0 1 s = (Throw (MapFnNotRegistered "square"), s).
Proof.
  intros s.
  assert (Hk : ~ In "square" objectPrototypeKeys).
  { unfold objectPrototypeKeys. simpl. intros H.
    repeat (destruct H as [H|H]; [discriminate H|]). exact H. }
  assert (Hn : mapPipelines s !! "square" = None) by reflexivity.
  split; [exact Hk|]. split; [exact Hn|].
  exact (proj1 (registerMapFn_then_map s "square" negate 0 1
                  (VoxelGridGpu.mk 1 2 1 1 Vector3.zero F32 (Some 0%nat))
                  (VoxelGridGpu.mk 1 2 1 1 Vector3.zero F32 (Some 1%nat))
                  Hk Hn eq_refl eq_refl ltac:(unfold sameGeometry; simpl; tauto))).
Defined.

(** *** What the kernel of [map2] computes *)








(** ** Grids and buffers of the dispatcher *)

(** X22.  [createLike] returns a grid object that did not exist, with the
    geometry of the given grid, the given cell type (that of the given grid
    when none is given) and a buffer of its own holding
    [numX * numY * numZ] zero cells; the grids and buffers that existed are
    unchanged, and the new grid passes the compatibility check with the
    given one. *)
Theorem createLike_new_grid (s : State) (g : nat) (o : VoxelGridGpu.t)
    (ty : option CellType) :
  objects s !! g = Some o ->
  exists s' t ot ht,
    createLike g ty s = (Ok t, s') /\
    objects s !! t = None /\ objects s' !! t = Some ot /\
    sameGeometry o ot /\ VoxelGridGpu.type ot = default (VoxelGridGpu.type o) ty /\
    VoxelGridGpu.buffer ot = Some ht /\ buffers s !! ht = None /\
    cellsOf s' t
    = Some (replicate
              (Z.to_nat (VoxelGridGpu.numX o * VoxelGridGpu.numY o * VoxelGridGpu.numZ o))
              (zeroOf (default (VoxelGridGpu.type o) ty))) /\
    (forall g', g' <> t -> objects s' !! g' = objects s !! g') /\
    (forall h, h <> ht -> buffers s' !! h = buffers s !! h) /\
    checkGridCompat g [t] s' = (Ok (paramsOf o), s').
Proof.
  intros Hg.
  set (t := fresh (dom (objects s))). set (ht := fresh (dom (buffers s))).
  assert (Ht : objects s !! t = None) by (apply not_elem_of_dom, is_fresh).
  assert (Hht : buffers s !! ht = None) by (apply not_elem_of_dom, is_fresh).
  assert (Hne : t <> g) by (eapply fresh_object_ne; eauto).
  eexists _, t, _, ht. split; [apply createLike_ok; exact Hg|].
  unfold afterCreateLike. cbn [objects buffers]. fold t ht.
  split; [exact Ht|]. split; [apply lookup_insert_eq|].
  split; [unfold sameGeometry; simpl; tauto|]. split; [reflexivity|].
  split; [reflexivity|]. split; [exact Hht|]. split; [|split; [|split]].
  - unfold cellsOf. cbn [objects buffers]. rewrite lookup_insert_eq.
    cbn [VoxelGridGpu.buffer]. rewrite lookup_insert_eq. reflexivity.
  - intros g' Hg'. now rewrite lookup_insert_ne.
  - intros h Hh. now rewrite lookup_insert_ne.
  - match goal with |- checkGridCompat g [t] ?st = _ => set (s' := st) end.
    assert (Hg' : objects s' !! g = Some o).
    { unfold s'. cbn [objects]. rewrite lookup_insert_ne by exact Hne. exact Hg. }
    assert (Ht' : objects s' !! t = Some
              (VoxelGridGpu.mk (VoxelGridGpu.res o) (VoxelGridGpu.numX o) (VoxelGridGpu.numY o)
                 (VoxelGridGpu.numZ o) (VoxelGridGpu.ofs o) (default (VoxelGridGpu.type o) ty)
                 (Some ht))).
    { unfold s'. cbn [objects]. apply lookup_insert_eq. }
    rewrite (checkGridCompat_1 _ _ _ _ _ Hg' Ht').
    rewrite checkGrids_accept_1; [reflexivity|]. unfold sameGeometry. simpl. tauto.
Qed.

Lemma createLike_new_grid_witness :
  let s := deviceWith [(unitGrid 2 1 1 F32, [VF32 2; VF32 0])] in
  exists s' t, createLike 0 (Some Vec4F) s = (Ok t, s') /\
               cellsOf s' t = Some (replicate 2 (zeroOf Vec4F)).
Proof.
  intros s.
  destruct (createLike_new_grid s 0 (VoxelGridGpu.mk 1 2 1 1 Vector3.zero F32 (Some 0%nat))
              (Some Vec4F) eq_refl)
    as (s' & t & ot & ht & Hrun & _ & _ & _ & _ & _ & _ & Hcells & _).
  exists s', t. split; [exact Hrun|exact Hcells].
Defined.

(** X23.  [destroy] of a grid with a live buffer frees that buffer and sets
    the field [buffer] of the grid to [null], leaving the other grids and
    buffers as they are; a second [destroy] of the same grid throws a
    [TypeError] and changes nothing. *)
Theorem destroy_twice (s : State) (g : nat) (o : VoxelGridGpu.t) (h : nat) :
  objects s !! g = Some o -> VoxelGridGpu.buffer o = Some h ->
  exists s',
    destroy g s = (Ok tt, s') /\
    buffers s' !! h = None /\ cellsOf s' g = None /\
    (forall h', h' <> h -> buffers s' !! h' = buffers s !! h') /\
    (forall g', g' <> g -> objects s' !! g' = objects s !! g') /\
    destroy g s' = (Throw TypeError, s').
Proof.
  intros Hg Hb. eexists. split; [apply (destroy_ok s g o h Hg Hb)|].
  cbn [objects buffers]. split; [apply lookup_delete_eq|].
  split; [unfold cellsOf; cbn [objects]; now rewrite lookup_insert_eq|].
  split; [intros h' Hh'; now rewrite lookup_delete_ne|].
  split; [intros g' Hg'; now rewrite lookup_insert_ne|].
  unfold destroy. erewrite bind_ok; [|apply deref_ok; cbn [objects]; apply lookup_insert_eq].
  reflexivity.
Qed.

Lemma destroy_twice_witness :
  let s := deviceWith [(unitGrid 2 1 1 F32, [VF32 2; VF32 0])] in
  exists s', destroy 0 s = (Ok tt, s') /\ destroy 0 s' = (Throw TypeError, s').
Proof.
  intros s.
  destruct (destroy_twice s 0 (VoxelGridGpu.mk 1 2 1 1 Vector3.zero F32 (Some 0%nat)) 0
              eq_refl eq_refl) as (s' & H1 & _ & _ & _ & _ & H2).
  exists s'. split; [exact H1|exact H2].
Defined.

(** X24.  [copy] of a grid onto itself returns at once.  Between two
    distinct grids it first checks the geometry: grids that differ in it make
    it throw a size, offset or resolution error; grids of the same geometry
    whose buffers differ in byte size (cells of 4 and of 16 bytes) make it
    throw the size error of [copyBuffer].  In all three cases nothing
    changes. *)
Theorem copy_rejects (s : State) (gi go : nat) (oi oo : VoxelGridGpu.t) :
  objects s !! gi = Some oi -> objects s !! go = Some oo -> gi <> go ->
  copy gi gi s = (Ok tt, s) /\
  (~ sameGeometry oi oo -> exists e, copy gi go s = (Throw e, s) /\ structural e) /\
  (forall hi ho bi bo,
     sameGeometry oi oo ->
     VoxelGridGpu.buffer oi = Some hi -> VoxelGridGpu.buffer oo = Some ho ->
     buffers s !! hi = Some bi -> buffers s !! ho = Some bo ->
     hi <> ho -> size bi <> size bo ->
     copy gi go s = (Throw BufferSizeMismatch, s)).
Proof.
  intros Hgi Hgo Hne. split; [|split].
  - unfold copy. destruct (decide (gi = gi)); [reflexivity|congruence].
  - intros Hn. unfold copy. destruct (decide (gi = go)); [contradiction|].
    destruct (checkGrids_reject_1 oi oo Hn) as (e & He & Hst).
    exists e. split; [|exact Hst]. apply bind_throw.
    rewrite (checkGridCompat_1 _ _ _ _ _ Hgi Hgo), He. reflexivity.
  - intros hi ho bi bo Hs Hbi Hbo Hhi Hho Hh Hsz.
    unfold copy. destruct (decide (gi = go)); [contradiction|].
    rewrite (bind_ok _ _ s s (paramsOf oi)).
    2:{ rewrite (checkGridCompat_1 _ _ _ _ _ Hgi Hgo), (checkGrids_accept_1 _ _ Hs).
        reflexivity. }
    rewrite (bind_ok _ _ _ _ _ (bufferOf_ok _ _ _ _ Hgi Hbi)).
    rewrite (bind_ok _ _ _ _ _ (bufferOf_ok _ _ _ _ Hgo Hbo)).
    unfold copyBuffer. destruct (decide (hi = ho)); [contradiction|].
    rewrite (bind_ok _ _ _ _ _ (readBuffer_ok _ _ _ Hhi)).
    rewrite (bind_ok _ _ _ _ _ (readBuffer_ok _ _ _ Hho)).
    destruct (Z.eqb_spec (size bi) (size bo)); [contradiction|]. reflexivity.
Qed.

Lemma copy_rejects_witness :
  let s := deviceWith [(unitGrid 2 1 1 F32, [VF32 2; VF32 0]);
                       (unitGrid 2 1 1 Vec4F, replicate 2 (zeroOf Vec4F))] in
  objects s !! 0%nat = Some (VoxelGridGpu.mk 1 2 1 1 Vector3.zero F32 (Some 0%nat)) /\
  objects s !! 1%nat = Some (VoxelGridGpu.mk 1 2 1 1 Vector3.zero Vec4F (Some 1%nat)) /\
  0%nat <> 1%nat /\
  copy 0 0 s = (Ok tt, s) /\
  copy 0 1 s = (Throw BufferSizeMismatch, s).
Proof.
  intros s.
  assert (Hne : 0%nat <> 1%nat) by lia.
  destruct (copy_rejects s 0 1
              (VoxelGridGpu.mk 1 2 1 1 Vector3.zero F32 (Some 0%nat))
              (VoxelGridGpu.mk 1 2 1 1 Vector3.zero Vec4F (Some 1%nat))
              eq_refl eq_refl Hne) as (H1 & _ & H3).
  split; [reflexivity|]. split; [reflexivity|]. split; [exact Hne|]. split; [exact H1|].
  apply (H3 0%nat 1%nat (mkBuffer 8 [VF32 2; VF32 0])
           (mkBuffer 32 (replicate 2 (zeroOf Vec4F)))); try reflexivity.
  - unfold sameGeometry. simpl. tauto.
  - lia.
  - simpl. lia.
Defined.

(** ** The placeholder [fill] *)

Lemma fill_invocation_length u vs_out index :
  List.length (fill_invocation u vs_out index) = List.length vs_out.
Proof.
  unfold fill_invocation. destruct (vs_out !! Z.to_nat index); [|reflexivity].
  destruct (Rlt_dec _ _); [apply length_insert|reflexivity].
Qed.

Lemma fold_fill_invocation_length u l : forall vs_out,
  List.length (fold_left (fill_invocation u) l vs_out) = List.length vs_out.
Proof.
  induction l as [|k l IH]; intros vs_out; simpl; [reflexivity|].
  now rewrite IH, fill_invocation_length.
Qed.

(** Each invocation touches the cell of its index only, and what it stores
    does not depend on the buffer. *)
Lemma fold_fill_invocation_lookup u l (i : nat) : forall vs_out v,
  Forall (fun k => (0 <= k)%Z) l ->
  vs_out !! i = Some v ->
  fold_left (fill_invocation u) l vs_out !! i
  = Some (if existsb (Z.eqb (Z.of_nat i)) l
          then (if Rlt_dec (Vector3.x (cell_center u (decompose_ix u (Z.of_nat i)))) 10
                then VU32 1 else v)
          else v).
Proof.
  intros vs_out v Hl. revert vs_out v.
  induction Hl as [|k l Hk Hl IH]; intros vs_out v Hv; simpl; [exact Hv|].
  destruct (Z.eqb_spec (Z.of_nat i) k) as [<-|Hne]; simpl.
  - unfold fill_invocation at 2. rewrite Nat2Z.id, Hv.
    destruct (Rlt_dec _ _) as [Hlt|Hge].
    + rewrite (IH _ (VU32 1)) by (apply list_lookup_insert_eq; eapply lookup_lt_Some; eauto).
      now destruct (existsb _ l).
    + rewrite (IH _ v Hv). now destruct (existsb _ l).
  - rewrite (IH _ v); [reflexivity|].
    unfold fill_invocation. destruct (vs_out !! Z.to_nat k); [|exact Hv].
    destruct (Rlt_dec (Vector3.x (cell_center u (decompose_ix u k))) 10); [|exact Hv].
    rewrite list_lookup_insert_ne; [exact Hv|]. lia.
Qed.

Lemma fill_kernel_full u (numThreads : Z) (vs_out : list value) :
  List.length vs_out = Z.to_nat numThreads ->
  fill_kernel u numThreads vs_out
  = imap (fun i v =>
            if Rlt_dec (Vector3.x (cell_center u (decompose_ix u (Z.of_nat i)))) 10
            then VU32 1 else v) vs_out.
Proof.
  intros Hlen. apply list_eq. intros i. unfold fill_kernel.
  rewrite list_lookup_imap.
  destruct (vs_out !! i) as [v|] eqn:Hv; simpl.
  - rewrite (fold_fill_invocation_lookup u _ i vs_out v (range_nonneg _) Hv).
    assert (Hin : existsb (Z.eqb (Z.of_nat i)) (range (invocations numThreads)) = true).
    { apply existsb_exists. exists (Z.of_nat i). split; [|apply Z.eqb_refl].
      apply in_range. apply lookup_lt_Some in Hv. unfold invocations, wgSize.
      pose proof (Z.div_mod (numThreads + 127) 128).
      pose proof (Z.mod_pos_bound (numThreads + 127) 128). lia. }
    now rewrite Hin.
  - apply lookup_ge_None. rewrite fold_fill_invocation_length.
    now apply lookup_ge_None in Hv.
Qed.

(** X25.  [fill (shape, buf, boundary)] does not read [shape] or [boundary]:
    on a grid with a live buffer of [numX * numY * numZ] cells it stores 1 in
    the cells whose point (the corner [ofs + ix * res]) has x below 10,
    leaves the other cells as they are, and then throws a [TypeError], its
    [finally] block calling [destroy] on a uniform buffer. *)
Theorem fill_ignores_shape (s : State) (shape : Shape) (boundary : string) (g : nat)
    (o : VoxelGridGpu.t) (h : nat) (b : Buffer) :
  objects s !! g = Some o -> VoxelGridGpu.buffer o = Some h -> buffers s !! h = Some b ->
  List.length (cells b)
  = Z.to_nat (VoxelGridGpu.numX o * VoxelGridGpu.numY o * VoxelGridGpu.numZ o) ->
  let u := uniformsOf (paramsOf o) 0 in
  exists s',
    fill shape g boundary s = (Throw TypeError, s') /\
    cellsOf s' g
    = Some (imap (fun i v =>
                    if Rlt_dec (Vector3.x (cell_center u (decompose_ix u (Z.of_nat i)))) 10
                    then VU32 1 else v) (cells b)) /\
    objects s' = objects s /\
    (forall h', h' <> h -> buffers s' !! h' = buffers s !! h').
Proof.
  intros Hg Hb Hh Hlen u. eexists. split; [|split; [|split]].
  - unfold fill.
    rewrite (bind_ok _ _ _ _ _ (deref_ok _ _ _ Hg)).
    rewrite (bind_ok _ _ _ _ _ (bufferOf_ok _ _ _ _ Hg Hb)).
    rewrite (bind_ok _ _ _ _ _ (readBuffer_ok _ _ _ Hh)).
    rewrite (bind_ok _ _ _ _ _ (writeCells_ok _ _ _ _ Hh)).
    reflexivity.
  - unfold cellsOf. cbn [objects buffers]. rewrite Hg, Hb, lookup_insert_eq.
    cbn [option_map cells]. f_equal. now apply fill_kernel_full.
  - reflexivity.
  - intros h' Hh'. cbn [buffers]. now rewrite lookup_insert_ne.
Qed.

Lemma fill_ignores_shape_witness :
  let s := deviceWith [(unitGrid 2 1 1 U32, [VU32 0; VU32 0])] in
  let shape := createBoxShape Vector3.zero (vec3 1 0 0) (vec3 0 1 0) (vec3 0 0 1) in
  exists s', fill shape 0 "in" s = (Throw TypeError, s') /\ objects s' = objects s.
Proof.
  intros s shape.
  destruct (fill_ignores_shape s shape "in" 0
              (VoxelGridGpu.mk 1 2 1 1 Vector3.zero U32 (Some 0%nat)) 0
              (mkBuffer 8 [VU32 0; VU32 0]) eq_refl eq_refl eq_refl eq_refl)
    as (s' & Hrun & _ & Hobj & _).
  exists s'. split; [exact Hrun|exact Hobj].
Defined.

(** ** [reduce] and [boundOfAxis] *)

(** X26.  [reduce] returns no value on any grid: with a name that is not
    registered (and that the table does not inherit) it throws the error of
    the missing function and changes nothing; with a registered name it
    throws the [ReferenceError] of the identifier [grid].  So does
    [boundOfAxis], for every direction and boundary, once its first operator
    is registered, as the constructor registers it. *)
Theorem reduce_never_returns (s : State) (fnName : string) (g : nat) (o : VoxelGridGpu.t) :
  objects s !! g = Some o ->
  (~ In fnName objectPrototypeKeys -> reducePipelines s !! fnName = None ->
   reduce fnName g s = (Throw (ReduceFnNotRegistered fnName), s)) /\
  (forall pl, reducePipelines s !! fnName = Some pl ->
   fst (reduce fnName g s) = Throw (ReferenceError "grid")) /\
  (forall pl dir boundary, reducePipelines s !! "min_ignore_invalid" = Some pl ->
   fst (boundOfAxis dir g boundary s) = Throw (ReferenceError "grid")).
Proof.
  intros Hg. split; [|split].
  - intros _ Hn. unfold reduce. apply bind_throw. unfold lookupPipeline. now rewrite Hn.
  - intros pl Hpl. now apply (reduce_throws s fnName g o pl).
  - intros pl dir boundary Hpl. unfold boundOfAxis.
    pose proof (reduce_throws s "min_ignore_invalid" g o pl Hpl Hg) as Hr.
    destruct (reduce "min_ignore_invalid" g s) as [r s'] eqn:Hrun. simpl in Hr. subst r.
    unfold bind. now rewrite Hrun.
Qed.

Lemma reduce_never_returns_witness :
  let s := deviceWith [(unitGrid 2 1 1 F32, [VF32 2; VF32 0])] in
  objects s !! 0%nat = Some (VoxelGridGpu.mk 1 2 1 1 Vector3.zero F32 (Some 0%nat)) /\
  fst (reduce "max_ignore_invalid" 0 s) = Throw (ReferenceError "grid").
Proof.
  intros s.
  assert (Hg : objects s !! 0%nat
               = Some (VoxelGridGpu.mk 1 2 1 1 Vector3.zero F32 (Some 0%nat))) by reflexivity.
  split; [exact Hg|].
  exact (proj1 (proj2 (reduce_never_returns s "max_ignore_invalid" 0 _ Hg))
           max_ignore_invalid eq_refl).
Defined.

(** ** The reduce kernel *)

Section TreeReduction.
Variable f : value -> value -> value.
Hypothesis f_comm : forall a b, f a b = f b a.
Hypothesis f_assoc : forall a b c, f (f a b) c = f a (f b c).

Lemma fold_left_assoc (l : list value) : forall a b,
  fold_left f l (f a b) = f a (fold_left f l b).
Proof.
  induction l as [|x l IH]; intros a b; simpl; [reflexivity|].
  now rewrite f_assoc, IH.
Qed.

Lemma fold_left_zip (A : list value) : forall (B : list value) a b,
  List.length A = List.length B ->
  fold_left f (zip_with f A B) (f a b) = f (fold_left f A a) (fold_left f B b).
Proof.
  induction A as [|x A IH]; intros [|y B] a b Hlen; simpl in *; try discriminate;
    [reflexivity|].
  rewrite <- IH by lia. f_equal.
  rewrite !f_assoc. f_equal. rewrite <- !f_assoc. f_equal. apply f_comm.
Qed.

Lemma foldl1_zip (A B : list value) :
  List.length A = List.length B ->
  foldl1 f (zip_with f A B) = foldl1 f (A ++ B).
Proof.
  destruct A as [|a A], B as [|b B]; simpl; intros Hlen; try discriminate; [reflexivity|].
  f_equal. rewrite fold_left_zip by lia.
  rewrite fold_left_app. simpl. now rewrite fold_left_assoc.
Qed.

Lemma tree_round_length (accum : list value) (stride : nat) :
  List.length (tree_round f accum stride) = List.length accum.
Proof. unfold tree_round. apply length_imap. Qed.

Lemma tree_round_take (accum : list value) (stride : nat) :
  (2 * stride <= List.length accum)%nat ->
  take stride (tree_round f accum stride)
  = zip_with f (take stride accum) (take stride (drop stride accum)).
Proof.
  intros Hlen. apply list_eq. intros i.
  rewrite lookup_take, lookup_zip_with, !lookup_take, lookup_drop.
  destruct (decide (i < stride)%nat) as [Hi|Hi]; [|reflexivity].
  unfold tree_round. rewrite list_lookup_imap.
  destruct (lookup_lt_is_Some_2 accum i ltac:(lia)) as (v & Hv).
  destruct (lookup_lt_is_Some_2 accum (stride + i) ltac:(lia)) as (w & Hw).
  rewrite Hv, Hw. simpl.
  destruct (Nat.ltb_spec i stride); [|lia].
  now rewrite (Nat.add_comm i stride), Hw.
Qed.

(** A round of stride [s] leaves in its first [s] cells the combination of
    the first [2 * s] cells. *)
Lemma tree_round_foldl1 (accum : list value) (stride : nat) :
  (2 * stride <= List.length accum)%nat ->
  foldl1 f (take stride (tree_round f accum stride)) = foldl1 f (take (2 * stride) accum).
Proof.
  intros Hlen. rewrite tree_round_take by exact Hlen.
  rewrite foldl1_zip by (rewrite !length_take, length_drop; lia).
  rewrite take_take_drop. f_equal. f_equal. lia.
Qed.

Lemma tree_rounds_foldl1 (accum : list value) :
  List.length accum = 128%nat ->
  foldl1 f (take 1 (fold_left (tree_round f) [64; 32; 16; 8; 4; 2; 1]%nat accum))
  = foldl1 f accum.
Proof.
  intros Hlen. cbn [fold_left].
  rewrite tree_round_foldl1 by (rewrite ?tree_round_length; lia).
  change (2 * 1)%nat with 2%nat.
  rewrite tree_round_foldl1 by (rewrite ?tree_round_length; lia).
  change (2 * 2)%nat with 4%nat.
  rewrite tree_round_foldl1 by (rewrite ?tree_round_length; lia).
  change (2 * 4)%nat with 8%nat.
  rewrite tree_round_foldl1 by (rewrite ?tree_round_length; lia).
  change (2 * 8)%nat with 16%nat.
  rewrite tree_round_foldl1 by (rewrite ?tree_round_length; lia).
  change (2 * 16)%nat with 32%nat.
  rewrite tree_round_foldl1 by (rewrite ?tree_round_length; lia).
  change (2 * 32)%nat with 64%nat.
  rewrite tree_round_foldl1 by (rewrite ?tree_round_length; lia).
  rewrite take_ge by lia. reflexivity.
Qed.

Lemma reduce_loads_length (pl : ReducePipeline) (vs_in : list value) (wg : Z) :
  List.length (reduce_loads pl vs_in wg) = 128%nat.
Proof. unfold reduce_loads. rewrite length_map. reflexivity. Qed.

Lemma reduce_workgroup_lookup (pl : ReducePipeline) (vs_in vs_out : list value) (wg : Z) :
  reduce_snippet pl = f ->
  (Z.to_nat wg < List.length vs_out)%nat ->
  Some (reduce_workgroup pl vs_in vs_out wg !! Z.to_nat wg)
  = Some (foldl1 f (reduce_loads pl vs_in wg)).
Proof.
  intros Hf Hwg. f_equal. unfold reduce_workgroup. fold (reduce_loads pl vs_in wg).
  rewrite list_lookup_insert_eq by exact Hwg. rewrite Hf.
  rewrite <- (tree_rounds_foldl1 (reduce_loads pl vs_in wg)) by apply reduce_loads_length.
  set (acc := fold_left (tree_round f) _ _).
  assert (Hlen : List.length acc = 128%nat).
  { unfold acc. cbn [fold_left]. rewrite !tree_round_length. apply reduce_loads_length. }
  destruct acc as [|a rest]; [discriminate|]. reflexivity.
Qed.

Lemma reduce_workgroup_other (pl : ReducePipeline) (vs_in vs_out : list value) (wg : Z)
    (i : nat) :
  i <> Z.to_nat wg ->
  reduce_workgroup pl vs_in vs_out wg !! i = vs_out !! i.
Proof.
  intros Hne. unfold reduce_workgroup. now rewrite list_lookup_insert_ne.
Qed.

Lemma reduce_workgroup_length (pl : ReducePipeline) (vs_in vs_out : list value) (wg : Z) :
  List.length (reduce_workgroup pl vs_in vs_out wg) = List.length vs_out.
Proof. unfold reduce_workgroup. apply length_insert. Qed.

End TreeReduction.

(** X27.  One dispatch of a reduce kernel whose operator is commutative and
    associative: for every workgroup [wg] of the dispatch with a cell in the
    output buffer, the cell [wg] of the output receives the combination,
    under the operator, of the 128 values the workgroup loads: the input
    cells [wg * 128] to [wg * 128 + 127], with the initial value in place of
    the cells past the end of the input. *)
Theorem reduce_kernel_folds (pl : ReducePipeline) (numThreads : Z)
    (vs_in vs_out : list value) (wg : Z) :
  (forall a b, reduce_snippet pl a b = reduce_snippet pl b a) ->
  (forall a b c, reduce_snippet pl (reduce_snippet pl a b) c
                 = reduce_snippet pl a (reduce_snippet pl b c)) ->
  (0 <= wg < (numThreads + 127) / 128)%Z ->
  (Z.to_nat wg < List.length vs_out)%nat ->
  reduce_kernel pl numThreads vs_in vs_out !! Z.to_nat wg
  = foldl1 (reduce_snippet pl) (reduce_loads pl vs_in wg).
Proof.
  intros Hc Ha Hwg Hlen. unfold reduce_kernel.
  assert (Hin : In wg (range ((numThreads + 127) / 128))) by now apply in_range.
  assert (Hnd : List.NoDup (range ((numThreads + 127) / 128))) by apply NoDup_range.
  assert (Hpos : Forall (fun k => (0 <= k)%Z) (range ((numThreads + 127) / 128)))
    by apply range_nonneg.
  revert vs_out Hlen Hin Hnd Hpos.
  generalize (range ((numThreads + 127) / 128)) as wgs.
  induction wgs as [|k wgs IH]; intros vs_out Hlen Hin Hnd Hpos; [destruct Hin|].
  simpl. inversion Hnd as [|? ? Hk Hnd']; subst. inversion Hpos as [|? ? Hk0 Hpos']; subst.
  destruct (Z.eq_dec k wg) as [->|Hne].
  - assert (Hkeep : forall l out v,
              ~ In wg l -> Forall (fun k => (0 <= k)%Z) l -> out !! Z.to_nat wg = v ->
              fold_left (reduce_workgroup pl vs_in) l out !! Z.to_nat wg = v).
    { induction l as [|k' l IHl]; intros out v Hn Hp Hv; simpl; [exact Hv|].
      apply List.Forall_cons_iff in Hp as (Hk' & Hp').
      apply IHl; [intros H; apply Hn; now right|exact Hp'|].
      rewrite reduce_workgroup_other; [exact Hv|].
      intros Heq. apply Hn. left. lia. }
    apply Hkeep; [exact Hk|exact Hpos'|].
    pose proof (reduce_workgroup_lookup (reduce_snippet pl) Hc Ha pl vs_in vs_out wg eq_refl Hlen)
      as H. now inversion H.
  - apply IH; [now rewrite reduce_workgroup_length| |exact Hnd'|exact Hpos'].
    destruct Hin as [Heq|Hin]; [congruence|exact Hin].
Qed.

(** *** The operators that the constructor registers *)

Lemma ignore_invalid_never_invalid (x r : R) :
  r <> invalidValue -> select x r (eqb_num x invalidValue) <> invalidValue.
Proof.
  intros Hr. unfold select, eqb_num. destruct (Req_dec_T x invalidValue); auto.
Qed.

Lemma ignore_invalid_valid (x r : R) :
  x <> invalidValue -> select x r (eqb_num x invalidValue) = x.
Proof.
  intros Hx. unfold select, eqb_num. destruct (Req_dec_T x invalidValue); [contradiction|].
  reflexivity.
Qed.

Lemma min_ignore_invalid_comm (a b : value) :
  reduce_snippet min_ignore_invalid a b = reduce_snippet min_ignore_invalid b a.
Proof. simpl. f_equal. apply Rmin_comm. Qed.

Lemma min_ignore_invalid_assoc (a b c : value) :
  reduce_snippet min_ignore_invalid (reduce_snippet min_ignore_invalid a b) c
  = reduce_snippet min_ignore_invalid a (reduce_snippet min_ignore_invalid b c).
Proof.
  cbn [reduce_snippet min_ignore_invalid as_f32]. f_equal.
  assert (H : forall x y,
            let m := Rmin (select x 100000 (eqb_num x invalidValue))
                          (select y 100000 (eqb_num y invalidValue)) in
            select m 100000 (eqb_num m invalidValue) = m).
  { intros x y m. apply ignore_invalid_valid. unfold m, Rmin.
    destruct (Rle_dec _ _); apply ignore_invalid_never_invalid; unfold invalidValue; lra. }
  rewrite !H. symmetry. apply Rmin_assoc.
Qed.

Lemma max_ignore_invalid_comm (a b : value) :
  reduce_snippet max_ignore_invalid a b = reduce_snippet max_ignore_invalid b a.
Proof. simpl. f_equal. apply Rmax_comm. Qed.

Lemma max_ignore_invalid_assoc (a b c : value) :
  reduce_snippet max_ignore_invalid (reduce_snippet max_ignore_invalid a b) c
  = reduce_snippet max_ignore_invalid a (reduce_snippet max_ignore_invalid b c).
Proof.
  cbn [reduce_snippet max_ignore_invalid as_f32]. f_equal.
  assert (H : forall x y,
            let m := Rmax (select x (-100000) (eqb_num x invalidValue))
                          (select y (-100000) (eqb_num y invalidValue)) in
            select m (-100000) (eqb_num m invalidValue) = m).
  { intros x y m. apply ignore_invalid_valid. unfold m, Rmax.
    destruct (Rle_dec _ _); apply ignore_invalid_never_invalid; unfold invalidValue; lra. }
  rewrite !H. symmetry. apply Rmax_assoc.
Qed.

(** X28.  The two operators that the constructor registers for
    [boundOfAxis] are commutative and associative.  The initial value 1e5 of
    "min_ignore_invalid" is neutral on the numbers up to 1e5 other than the
    mark 65536, and the mark combines as 1e5.  The initial value of
    "max_ignore_invalid" is 1e5 as well: combined with any number up to 1e5
    it gives 1e5, not that number. *)
Theorem ignore_invalid_operators :
  let fmin := reduce_snippet min_ignore_invalid in
  let fmax := reduce_snippet max_ignore_invalid in
  (forall a b, fmin a b = fmin b a) /\
  (forall a b c, fmin (fmin a b) c = fmin a (fmin b c)) /\
  (forall a b, fmax a b = fmax b a) /\
  (forall a b c, fmax (fmax a b) c = fmax a (fmax b c)) /\
  (forall x, x <> invalidValue -> x <= 100000 ->
     fmin (VF32 x) (reduce_initVal min_ignore_invalid) = VF32 x) /\
  (forall x, x <> invalidValue ->
     fmin (VF32 invalidValue) (VF32 x) = VF32 (Rmin 100000 x)) /\
  (forall x, x <= 100000 ->
     fmax (VF32 x) (reduce_initVal max_ignore_invalid) = VF32 100000).
Proof.
  intros fmin fmax.
  split; [exact min_ignore_invalid_comm|]. split; [exact min_ignore_invalid_assoc|].
  split; [exact max_ignore_invalid_comm|]. split; [exact max_ignore_invalid_assoc|].
  assert (Hinit : select 100000 100000 (eqb_num 100000 invalidValue) = 100000).
  { unfold select. now destruct (eqb_num _ _). }
  split; [|split].
  - intros x Hx Hle. unfold fmin. cbn [reduce_snippet reduce_initVal min_ignore_invalid as_f32].
    rewrite Hinit, (ignore_invalid_valid x) by exact Hx.
    f_equal. now apply Rmin_left.
  - intros x Hx. unfold fmin. cbn [reduce_snippet min_ignore_invalid as_f32].
    rewrite (ignore_invalid_valid x) by exact Hx. f_equal. f_equal.
    unfold select, eqb_num. destruct (Req_dec_T invalidValue invalidValue); [reflexivity|].
    contradiction.
  - intros x Hle. unfold fmax. cbn [reduce_snippet reduce_initVal max_ignore_invalid as_f32].
    assert (Hi : select 100000 (-100000) (eqb_num 100000 invalidValue) = 100000).
    { apply ignore_invalid_valid. unfold invalidValue. lra. }
    rewrite Hi. apply (f_equal VF32). apply Rmax_right.
    unfold select. destruct (eqb_num x invalidValue); lra.
Qed.

Lemma reduce_kernel_folds_witness :
  (forall a b, reduce_snippet min_ignore_invalid a b = reduce_snippet min_ignore_invalid b a) /\
  (forall a b c,
     reduce_snippet min_ignore_invalid (reduce_snippet min_ignore_invalid a b) c
     = reduce_snippet min_ignore_invalid a (reduce_snippet min_ignore_invalid b c)) /\
  (0 <= 0 < (1 + 127) / 128)%Z /\
  (Z.to_nat 0 < List.length [VF32 0])%nat /\
  reduce_kernel min_ignore_invalid 1 [VF32 3] [VF32 0] !! Z.to_nat 0
  = foldl1 (reduce_snippet min_ignore_invalid) (reduce_loads min_ignore_invalid [VF32 3] 0).
Proof.
  assert (Hwg : (0 <= 0 < (1 + 127) / 128)%Z) by (vm_compute; split; [discriminate|reflexivity]).
  assert (Hlen : (Z.to_nat 0 < List.length [VF32 0])%nat) by (simpl; lia).
  split; [exact min_ignore_invalid_comm|]. split; [exact min_ignore_invalid_assoc|].
  split; [exact Hwg|]. split; [exact Hlen|].
  exact (reduce_kernel_folds min_ignore_invalid 1 [VF32 3] [VF32 0] 0
           min_ignore_invalid_comm min_ignore_invalid_assoc Hwg Hlen).
Defined.

(** ** [distField] on any grid *)

Lemma distanceTo_self (a : Vec3) : Vector3.distanceTo a a = 0.
Proof.
  unfold Vector3.distanceTo, Vector3.length, Vector3.lengthSq, Vector3.dot, Vector3.sub.
  simpl. replace (_ + _ + _) with 0 by ring. apply sqrt_0.
Qed.

Section DistFieldFacts.
Variables (grid : GridParams) (seed : list value).

Lemma df_init_wf (n : Z) :
  List.length seed = Z.to_nat n ->
  dfWellFormed grid seed (map_kernel (map_snippet df_init) (uniformsOf grid 0) n seed
        (replicate (Z.to_nat n) (zeroOf Vec4F))).
Proof.
  intros Hlen. rewrite map_kernel_full by (exact Hlen || apply length_replicate).
  split; [apply length_imap|]. split.
  - intros i v. rewrite list_lookup_imap.
    destruct (seed !! i) as [vi|] eqn:Hvi; [|discriminate]. simpl.
    intros H. injection H as <-. destruct (Z.gtb_spec (as_u32 vi) 0).
    + right. exists i. split; [exists vi; split; [exact Hvi|lia]|].
      fold (kernelPoint grid i). now rewrite distanceTo_self.
    + now left.
  - intros t (vt & Hvt & Hpos). rewrite list_lookup_imap, Hvt. simpl.
    destruct (Z.gtb_spec (as_u32 vt) 0); [reflexivity|lia].
Qed.

Lemma invocation_wf (step : Z) (df0 df : list value) (inv : nat * (nat -> bool)) :
  dfWellFormed grid seed df0 -> dfWellFormed grid seed df -> dfWellFormed grid seed (jump_flood_invocation (uniformsOf grid step) df0 df inv).
Proof.
  intros (L0 & G0 & S0) (L & G & S). destruct inv as [id late].
  split; [now rewrite invocation_length|]. split.
  - intros j v Hj. apply invocation_lookup in Hj as [Hj|(-> & sd & Hsd & _ & ->)]; [eauto|].
    change (cell_center (uniformsOf grid step)
              (decompose_ix (uniformsOf grid step) (Z.of_nat id))) with (kernelPoint grid id).
    apply loop_ind; [eauto|].
    intros i off nsd _ _ Hr Hv.
    assert (Hg : dfGood grid seed (Z.to_nat (compose_ix (uniformsOf grid step)
                         (neighborCoords (uniformsOf grid step)
                            (decompose_ix (uniformsOf grid step) (Z.of_nat id)) off))) nsd).
    { destruct (late i); eauto. }
    destruct Hg as [->|(t & Ht & ->)]; [destruct (noSeed_not_holdsSeed Hv)|].
    right. exists t. split; [exact Ht|reflexivity].
  - intros t Ht. unfold jump_flood_invocation.
    destruct (df0 !! id) as [sd|] eqn:Hsd; [|auto].
    destruct (Req_dec_T (vec4_w sd) 0) as [|Hw]; [auto|].
    destruct (decide (id = t)) as [->|Hne].
    + rewrite (S0 t Ht) in Hsd. injection Hsd as <-. simpl in Hw. lra.
    + rewrite list_lookup_insert_ne by exact Hne. auto.
Qed.

Lemma jumpFloodCells_wf (scheds : nat -> Schedule) (numPass count : nat) :
  forall pass df, dfWellFormed grid seed df -> dfWellFormed grid seed (jumpFloodCells scheds grid numPass count pass df).
Proof.
  induction count as [|count IH]; intros pass df Hdf; simpl; [exact Hdf|].
  apply IH. apply (kernel_invariant _ _ _ (dfWellFormed grid seed)); [exact Hdf|].
  intros df' inv Hdf'. now apply invocation_wf.
Qed.

(** What [distField] computes, whatever the schedules: the mark -1, or the
    distance from the point of the cell to the point of a seed cell; 0 at the
    seed cells. *)
Lemma distFieldCells_sound (scheds : nat -> Schedule) (dist : list value) :
  let n := (p_numX grid * p_numY grid * p_numZ grid)%Z in
  List.length seed = Z.to_nat n -> List.length dist = Z.to_nat n ->
  let out := distFieldCells scheds grid seed dist in
  List.length out = Z.to_nat n /\
  forall i vi, seed !! i = Some vi ->
    ((as_u32 vi > 0)%Z -> out !! i = Some (VF32 0)) /\
    exists d, out !! i = Some (VF32 d) /\
      (d = -1 \/
       exists t vt, seed !! t = Some vt /\ (as_u32 vt > 0)%Z /\
                    d = Vector3.distanceTo (kernelPoint grid t) (kernelPoint grid i)).
Proof.
  intros n Hs Hd out. unfold out, distFieldCells. fold n.
  pose proof (jumpFloodCells_wf scheds
                (Z.to_nat (Z.log2_up (Z.max (Z.max (p_numX grid) (p_numY grid)) (p_numZ grid))))
                (Z.to_nat (Z.log2_up (Z.max (Z.max (p_numX grid) (p_numY grid)) (p_numZ grid))))
                0 _ (df_init_wf n Hs)) as (L & G & S).
  match goal with |- context [map_kernel (map_snippet df_to_dist) _ _ ?d _] =>
    set (df := d) in * end.
  rewrite map_kernel_full by (lia || exact Hd).
  split; [rewrite length_imap; lia|].
  intros i vi Hvi. rewrite list_lookup_imap.
  destruct (lookup_lt_is_Some_2 df i) as (v & Hv);
    [rewrite L; eapply lookup_lt_Some; eauto|].
  rewrite Hv. simpl. split.
  - intros Hpos. rewrite (S i) in Hv by (exists vi; auto). now injection Hv as <-.
  - eexists. split; [reflexivity|].
    destruct (G i v Hv) as [->|(t & (vt & Hvt & Hpos) & ->)].
    + left. reflexivity.
    + right. exists t, vt. auto.
Qed.

End DistFieldFacts.

(** X29.  [distField] on a seed grid and an output grid of the same
    geometry, with live buffers of [numX * numY * numZ] cells: whatever the
    order in which the device runs the invocations of the passes, the call
    returns normally and every output cell holds 0 if its seed cell is
    positive, and otherwise the mark -1 or the distance from the point of the
    cell to the point of some cell with a positive seed: a value below the
    distance to the nearest seed is never written, and a grid without seeds
    gives the mark everywhere. *)
Theorem distField_sound (scheds : nat -> Schedule) (s : State) (gi go : nat)
    (oi oo : VoxelGridGpu.t) (hi ho : nat) (bi bo : Buffer) :
  gi <> go ->
  objects s !! gi = Some oi -> objects s !! go = Some oo ->
  sameGeometry oi oo ->
  VoxelGridGpu.buffer oi = Some hi -> VoxelGridGpu.buffer oo = Some ho ->
  buffers s !! hi = Some bi -> buffers s !! ho = Some bo ->
  mapPipelines s !! "df_init" = Some df_init ->
  mapPipelines s !! "df_to_dist" = Some df_to_dist ->
  let n := Z.to_nat (VoxelGridGpu.numX oi * VoxelGridGpu.numY oi * VoxelGridGpu.numZ oi) in
  List.length (cells bi) = n -> List.length (cells bo) = n ->
  let pos := kernelPoint (paramsOf oi) in
  exists s' out,
    distField scheds gi go s = (Ok tt, s') /\
    cellsOf s' go = Some out /\
    List.length out = n /\
    (forall i vi, cells bi !! i = Some vi ->
       ((as_u32 vi > 0)%Z -> out !! i = Some (VF32 0)) /\
       exists d, out !! i = Some (VF32 d) /\
         (d = -1 \/
          exists t vt, cells bi !! t = Some vt /\ (as_u32 vt > 0)%Z /\
                       d = Vector3.distanceTo (pos t) (pos i))) /\
    ((forall vi, In vi (cells bi) -> (as_u32 vi <= 0)%Z) -> out = replicate n (VF32 (-1))).
Proof.
  intros Hne Hgi Hgo Hs Hbi Hbo Hhi Hho Hinit Hdist n Li Lo pos.
  destruct (distField_run scheds s gi go oi oo hi ho bi bo
              Hne Hgi Hgo Hs Hbi Hbo Hhi Hho Hinit Hdist) as (s' & Hrun & Hout).
  exists s', (distFieldCells scheds (paramsOf oi) (cells bi) (cells bo)).
  split; [exact Hrun|]. split; [exact Hout|].
  destruct (distFieldCells_sound (paramsOf oi) (cells bi) scheds (cells bo) Li Lo)
    as (L & Hcells).
  split; [exact L|]. split; [exact Hcells|].
  intros Hnone. apply (distFieldCells_no_seed scheds (paramsOf oi)); [exact Li|exact Lo|].
  apply List.Forall_forall. exact Hnone.
Qed.

Lemma distField_sound_witness :
  let s := deviceWith [(unitGrid 2 1 1 U32, [VU32 1; VU32 0]);
                       (unitGrid 2 1 1 F32, [VF32 0; VF32 0])] in
  exists s' out,
    distField (fun _ => []) 0 1 s = (Ok tt, s') /\
    cellsOf s' 1 = Some out /\
    out !! 0%nat = Some (VF32 0).
Proof.
  intros s.
  destruct (distField_sound (fun _ => []) s 0 1
              (VoxelGridGpu.mk 1 2 1 1 Vector3.zero U32 (Some 0%nat))
              (VoxelGridGpu.mk 1 2 1 1 Vector3.zero F32 (Some 1%nat))
              0 1 (mkBuffer 8 [VU32 1; VU32 0]) (mkBuffer 8 [VF32 0; VF32 0])
              ltac:(lia) eq_refl eq_refl ltac:(unfold sameGeometry; simpl; tauto)
              eq_refl eq_refl eq_refl eq_refl eq_refl eq_refl eq_refl eq_refl)
    as (s' & out & Hrun & Hout & _ & Hcells & _).
  exists s', out. split; [exact Hrun|]. split; [exact Hout|].
  apply (proj1 (Hcells 0%nat (VU32 1) eq_refl)). simpl. lia.
Defined.

(** *** Counting the cells that [fillShape] sets *)








